(** * SlothRanking: the Elo update, the composite rating and the result reader

    A shallow embedding of [ranking.py].  Function and field names are the
    ones of the source.

    Numbers.  Python's [int] is [Z].  Python's [float] has two models.  The
    arithmetic itself, [expected], [adjustElo], [result], [setSRs] and the
    rounding of [setAligRatings], is modelled in binary64 (module [B64], with
    Rocq's primitive floats), and every statement about a stored rating or a
    stored composite is made of that model (Part IV).  The interactive
    session around it (the reader of result lines, the look-up of players,
    the display, the files) is modelled with the ratings as real numbers
    [R], [10 ** x] being [Rpower 10 x]: its theorems (Parts II and III) are
    about which records a line reaches, in which order records are listed
    and what is logged or saved, and compare ratings only where rounding
    keeps the comparison.

    State.  The player list is a Python list of mutable [Player] objects, each
    object occurring once.  It is modelled as a [list Player]; a reference to
    an object of the list is its index, and a mutation of the object is an
    update of the list at that index.  Console output, the log file and the
    player file are fields of a [World] threaded through a small state and
    exception monad. *)

From Stdlib Require Import Floats.
From Stdlib Require Import Reals Lra Lia ZArith List String Ascii Bool.
From Stdlib Require Import Permutation Sorted.
Import ListNotations.

Local Open Scope R_scope.
Set Warnings "-inexact-float".

(** ** Configuration constants (lines 36-42) *)

Definition K_FACTOR : Z := 32.
Definition ELO_WEIGHT : R := 0.5.
Definition ALIG_WEIGHT : R := 0.3.
Definition MMR_WEIGHT : R := 0.2.

(** ** class Player (lines 58-70) *)

Record Player : Type := mkPlayer
  { name : string;
    alig : string;
    bnet : string;
    elo : R;
    aligRating : Z;
    mmr : Z;
    sr : Z }.

(** [Player(name, alig, bnet, elo)]: the two fetched ratings start at 1, the
    composite at 0. *)
Definition newPlayer (n a b : string) (e : R) : Player :=
  mkPlayer n a b e 1 1 0.

Definition set_elo (p : Player) (e : R) : Player :=
  mkPlayer (name p) (alig p) (bnet p) e (aligRating p) (mmr p) (sr p).

Definition set_sr (p : Player) (s : Z) : Player :=
  mkPlayer (name p) (alig p) (bnet p) (elo p) (aligRating p) (mmr p) s.

(** ** The Elo pair (lines 72-89) *)

(** [1 / (1 + 10 ** ((elo2 - elo1) / 400))] *)
Definition expected (elo1 elo2 : R) : R :=
  1 / (1 + Rpower 10 ((elo2 - elo1) / 400)).

(** [oldElo + k * (result - exp)]; [result] and [k] are Python ints. *)
Definition adjustElo (oldElo exp : R) (result : Z) (k : Z) : R :=
  oldElo + IZR k * (IZR result - exp).

(** ** result (lines 92-109)

    The two objects are passed in and the two updated objects are returned.
    [winner] is any Python int; anything but 1 and 2 returns early. *)
Definition result (p1 p2 : Player) (winner : Z) : Player * Player :=
  let ex := expected (elo p1) (elo p2) in
  if (winner =? 1)%Z then
    (set_elo p1 (adjustElo (elo p1) ex 1 K_FACTOR),
     set_elo p2 (adjustElo (elo p2) (1 - ex) 0 K_FACTOR))
  else if (winner =? 2)%Z then
    (set_elo p1 (adjustElo (elo p1) ex 0 K_FACTOR),
     set_elo p2 (adjustElo (elo p2) (1 - ex) 1 K_FACTOR))
  else (p1, p2).

(** The change [result] makes to the rating of side 1. *)
Definition delta1 (p1 p2 : Player) (winner : Z) : R :=
  elo (fst (result p1 p2 winner)) - elo p1.

(** ** Python's [round] on a float: nearest integer, ties to even *)

Definition py_round (x : R) : Z :=
  let n := Int_part x in
  let d := frac_part x in
  if Rlt_dec d (1 / 2) then n
  else if Rlt_dec (1 / 2) d then (n + 1)%Z
  else if Z.even n then n else (n + 1)%Z.

(** ** setSRs (lines 184-192) *)

(** [round(p.aligRating * ALIG_WEIGHT + p.mmr * MMR_WEIGHT
           + round(p.elo * ELO_WEIGHT))] *)
Definition slothRating (p : Player) : Z :=
  py_round (IZR (aligRating p) * ALIG_WEIGHT + IZR (mmr p) * MMR_WEIGHT
            + IZR (py_round (elo p * ELO_WEIGHT))).

Definition setSRs (playerList : list Player) : list Player :=
  map (fun p => set_sr p (slothRating p)) playerList.

(** ** The player file (lines 111-124 and 194-203)

    A line [name alig bnet elo] is kept as its four fields; the decimal text
    of the Elo is not modelled. *)

Record FileLine : Type := mkLine
  { f_name : string; f_alig : string; f_bnet : string; f_elo : R }.

Definition getPlayerList (file : list FileLine) : list Player :=
  map (fun l => newPlayer (f_name l) (f_alig l) (f_bnet l) (f_elo l)) file.

Definition savePlayersToFile (playerList : list Player) : list FileLine :=
  map (fun p => mkLine (name p) (alig p) (bnet p) (elo p)) playerList.

(** ** printRatingList (lines 209-220)

    [playerList.sort(key=lambda x: x.sr, reverse=True)] sorts the list object
    in place.  Python's sort is stable, also with [reverse=True]: records with
    equal keys keep the order they had.  A stable insertion sort is the model:
    a record goes after every record with a greater key and before the
    records, all from later in the list, whose key is equal or smaller. *)

Fixpoint insert_desc (x : Player) (l : list Player) : list Player :=
  match l with
  | [] => [x]
  | y :: l' => if (sr x <? sr y)%Z then y :: insert_desc x l' else x :: l
  end.

Definition sort_desc (l : list Player) : list Player :=
  fold_right insert_desc [] l.

(** [desc p q]: [p] may stand before [q] in a ranking. *)
Definition desc (p q : Player) : Prop := (sr q <= sr p)%Z.

(** The records of a list whose composite is [k], in list order. *)
Definition with_sr (k : Z) (l : list Player) : list Player :=
  filter (fun p => (sr p =? k)%Z) l.

(** What the program writes to the console.  The column layout of a table row
    is not modelled: a row is the six values it shows. *)
Inductive output : Type :=
| Text (s : string)
| Prompt
| TableHeader
| TableRow (rank : Z) (id : string) (slothRating : Z) (roundedElo : Z)
           (aligulac : Z) (ladder : Z)
| Blank.

Fixpoint table_rows (rank : Z) (l : list Player) : list output :=
  match l with
  | [] => []
  | p :: l' =>
      TableRow rank (name p) (sr p) (py_round (elo p)) (aligRating p) (mmr p)
      :: table_rows (rank + 1) l'
  end.

(** The list after the call, and the lines printed. *)
Definition printRatingList (playerList : list Player)
  : list Player * list output :=
  let sorted := sort_desc playerList in
  (sorted, TableHeader :: table_rows 1 sorted ++ [Blank]).

(** ** The world of the interactive session *)

Inductive exn : Type := IndexError | EOFError.

Record World : Type := mkWorld
  { roster : list Player;
    stdout : list output;
    logfile : list string;
    playerFile : list FileLine }.

Inductive res (A : Type) : Type :=
| Ok (a : A)
| Raise (e : exn).
Arguments Ok {A} a.
Arguments Raise {A} e.

Definition M (A : Type) : Type := World -> res A * World.

Definition ret {A : Type} (a : A) : M A := fun w => (Ok a, w).

Definition raise {A : Type} (e : exn) : M A := fun w => (Raise e, w).

Definition bind {A B : Type} (c : M A) (k : A -> M B) : M B :=
  fun w =>
    match c w with
    | (Ok a, w') => k a w'
    | (Raise e, w') => (Raise e, w')
    end.

Declare Scope py_scope.
Delimit Scope py_scope with py.
Notation "x <- c ;; k" := (bind c (fun x => k))
  (at level 61, c at next level, right associativity) : py_scope.
Notation "c ;; k" := (bind c (fun _ => k))
  (at level 61, right associativity) : py_scope.

(** The world after one more line on the console. *)
Definition say (o : output) (w : World) : World :=
  mkWorld (roster w) (stdout w ++ [o]) (logfile w) (playerFile w).

Definition print (o : output) : M unit := fun w => (Ok tt, say o w).

Definition print_lines (lines : list output) : M unit :=
  fun w =>
    (Ok tt, mkWorld (roster w) (stdout w ++ lines) (logfile w) (playerFile w)).

Definition get_roster : M (list Player) := fun w => (Ok (roster w), w).

Definition set_roster (l : list Player) : M unit :=
  fun w => (Ok tt, mkWorld l (stdout w) (logfile w) (playerFile w)).

(** [log] (lines 205-207): one more line at the end of log.txt. *)
Definition log (resString : string) : M unit :=
  fun w =>
    (Ok tt,
     mkWorld (roster w) (stdout w) (logfile w ++ [resString]) (playerFile w)).

(** Opening the player file with "w" and writing the lines replaces its
    contents. *)
Definition write_file (lines : list FileLine) : M unit :=
  fun w => (Ok tt, mkWorld (roster w) (stdout w) (logfile w) lines).

(** [a[i]] on a Python list with a non-negative constant index. *)
Definition item {A : Type} (a : list A) (i : nat) : res A :=
  match nth_error a i with
  | Some x => Ok x
  | None => Raise IndexError
  end.

Definition lift {A : Type} (r : res A) : M A := fun w => (r, w).

(** ** str.split() with no argument

    Runs of white space separate the words; leading and trailing white space
    gives no empty word.  The characters are the bytes of a Rocq string, and
    white space is what [str.isspace] accepts below 128. *)

Definition is_space (c : ascii) : bool :=
  let n := nat_of_ascii c in
  ((9 <=? n)%nat && (n <=? 13)%nat) || ((28 <=? n)%nat && (n <=? 32)%nat)
  || (n =? 133)%nat || (n =? 160)%nat.

(** [word] holds the characters of the word being read, last one first. *)
Fixpoint split_from (word : list ascii) (s : string) : list string :=
  match s with
  | EmptyString =>
      match word with
      | [] => []
      | _ => [string_of_list_ascii (rev word)]
      end
  | String c s' =>
      if is_space c then
        match word with
        | [] => split_from [] s'
        | _ => string_of_list_ascii (rev word) :: split_from [] s'
        end
      else split_from (c :: word) s'
  end.

Definition split (s : string) : list string := split_from [] s.

(** ** readResultString (lines 243-272) *)

Definition dquote : string := String (ascii_of_nat 34) EmptyString.

Definition MSG_NOT_RECOGNIZED : string := "Input not recognized".
Definition MSG_NOT_FOUND : string :=
  "One of the players was not found, please try again.".
Definition MSG_IMPROPER : string :=
  ("Improper use of result string - format should be "
   ++ dquote ++ "ID1 > ID2" ++ dquote ++ " or "
   ++ dquote ++ "ID1 < ID2" ++ dquote)%string.

(** The loop over the player list (lines 257-261).  [p1] and [p2] are the
    references held so far, [i] the index of the head of [playerList].
    [resArray[0]] is read at every record, [resArray[2]] at every record whose
    name is not [resArray[0]]; either raises IndexError on a short list. *)
Fixpoint find_players (resArray : list string) (playerList : list Player)
    (i : nat) (p1 p2 : option nat) : res (option nat * option nat) :=
  match playerList with
  | [] => Ok (p1, p2)
  | p :: rest =>
      match item resArray 0 with
      | Raise e => Raise e
      | Ok t0 =>
          if (t0 =? name p)%string then
            find_players resArray rest (S i) (Some i) p2
          else
            match item resArray 2 with
            | Raise e => Raise e
            | Ok t2 =>
                if (t2 =? name p)%string then
                  find_players resArray rest (S i) p1 (Some i)
                else find_players resArray rest (S i) p1 p2
            end
      end
  end.

(** [is_last P l i]: the record at index [i] of [l] satisfies [P] and no
    later record does. *)
Definition is_last (P : Player -> Prop) (l : list Player) (i : nat) : Prop :=
  (exists p, nth_error l i = Some p /\ P p)
  /\ forall j q, (i < j)%nat -> nth_error l j = Some q -> ~ P q.

(** [held P pl i before after]: a reference that was [before] when the loop
    reached the records [pl], the first of them at index [i], is [after]
    when the loop has bound it at every record satisfying [P]. *)
Definition held (P : Player -> Prop) (pl : list Player) (i : nat)
    (before after : option nat) : Prop :=
  (after = before /\ forall q, In q pl -> ~ P q)
  \/ exists k, after = Some (i + k)%nat /\ is_last P pl k.

(** [l[i] = x] for an index inside the list. *)
Fixpoint update {A : Type} (i : nat) (x : A) (l : list A) {struct l}
  : list A :=
  match l, i with
  | [], _ => []
  | _ :: l', O => x :: l'
  | y :: l', S i' => y :: update i' x l'
  end.

(** [result(p1, p2, winner)] on the objects at indices [i] and [j] of the
    list ([find_players] never binds both names to one object). *)
Definition result_at (i j : nat) (winner : Z) (playerList : list Player)
  : list Player :=
  match nth_error playerList i, nth_error playerList j with
  | Some p1, Some p2 =>
      let (p1', p2') := result p1 p2 winner in
      update j p2' (update i p1' playerList)
  | _, _ => playerList
  end.

Definition readResultString (resString : string) : M unit :=
  (let resArray := split resString in
   (if negb (List.length resArray =? 3)%nat
    then print (Text MSG_NOT_RECOGNIZED) else ret tt) ;;
   playerList <- get_roster ;;
   found <- lift (find_players resArray playerList 0 None None) ;;
   match found with
   | (Some i, Some j) =>
       rel <- lift (item resArray 1) ;;
       if (rel =? ">")%string then
         set_roster (result_at i j 1 playerList) ;; log resString
       else if (rel =? "<")%string then
         set_roster (result_at i j 2 playerList) ;; log resString
       else print (Text MSG_IMPROPER)
   | _ => print (Text MSG_NOT_FOUND)
   end)%py.

(** The world in which the player loop of [readResultString] starts: the
    word-count message is on the console when the line has not three words. *)
Definition after_count_check (resString : string) (w : World) : World :=
  if (List.length (split resString) =? 3)%nat then w
  else say (Text MSG_NOT_RECOGNIZED) w.

(** ** The command loop of main (lines 287-299)

    [stdin] is the list of lines still to be read; [input] on an exhausted
    stdin raises EOFError.  The loop starts after the player list is loaded
    and the two remote ratings are fetched. *)

Definition print_command : M unit :=
  (pl <- get_roster ;;
   set_roster (setSRs pl) ;;
   pl <- get_roster ;;
   let (sorted, lines) := printRatingList pl in
   set_roster sorted ;;
   print_lines lines)%py.

Definition exit_command : M unit :=
  (pl <- get_roster ;; write_file (savePlayersToFile pl))%py.

Fixpoint main_loop (stdin : list string) : M unit :=
  match stdin with
  | [] => (print Prompt ;; raise EOFError)%py
  | inp :: rest =>
      (print Prompt ;;
       if (inp =? "print")%string then print_command ;; main_loop rest
       else if (inp =? "exit")%string then exit_command
       else if (inp =? "forcequit")%string then ret tt
       else readResultString inp ;; main_loop rest)%py
  end.

Definition main_session (stdin : list string) : M unit :=
  (main_loop stdin ;; print (Text "Ending program"))%py.

(** ** Two sample rosters *)

Definition roster_foo_bar : list Player :=
  [newPlayer "Foo" "1" "100" 2000.0; newPlayer "Bar" "2" "200" 2000.0].

Definition roster_two_foos : list Player :=
  [newPlayer "Foo" "1" "100" 2000; newPlayer "Foo" "3" "300" 1500;
   newPlayer "Bar" "2" "200" 1800].

(** * Part I, continued: quantities and functions beyond the claims *)

(** ** What a session keeps *)

(** The three fields read from the player file that nothing ever writes. *)
Definition identity (p : Player) : string * string * string :=
  (name p, alig p, bnet p).

(** [quits inp]: the line ends the command loop. *)
Definition quits (inp : string) : bool :=
  (inp =? "exit")%string || (inp =? "forcequit")%string.

(** The first line of the input that ends the command loop, if any. *)
Fixpoint first_quit (stdin : list string) : option string :=
  match stdin with
  | [] => None
  | inp :: rest => if quits inp then Some inp else first_quit rest
  end.

(** ** setAligRatings (lines 126-143)

    The HTTP request and the JSON decoding are outside the model.  What the
    function does with them is inside: the id list it puts in the URL, and
    the loop that stores the answer.  [objects] is the list
    [data["objects"]], each object given by its
    [["current_rating"]["rating"]]. *)

Definition set_aligRating (p : Player) (a : Z) : Player :=
  mkPlayer (name p) (alig p) (bnet p) (elo p) a (mmr p) (sr p).

(** [s[:-1]]: the string without its last character. *)
Fixpoint drop_last (s : string) : string :=
  match s with
  | EmptyString => EmptyString
  | String c EmptyString => EmptyString
  | String c s' => String c (drop_last s')
  end.

(** Lines 132-135: [players], as it goes into the URL. *)
Definition alig_players (playerList : list Player) : string :=
  drop_last
    (fold_left (fun players p => (players ++ alig p ++ ";")%string)
               playerList EmptyString).

(** Lines 139-143, from the record at index [i] on: the outcome of the
    loop and the records as it leaves them. *)
Fixpoint alig_loop (objects : list R) (i : nat) (playerList : list Player)
  : res unit * list Player :=
  match playerList with
  | [] => (Ok tt, [])
  | p :: rest =>
      match item objects i with
      | Raise e => (Raise e, p :: rest)
      | Ok rating =>
          let (r, rest') := alig_loop objects (S i) rest in
          (r, set_aligRating p (py_round (rating * 1000 + 1000)) :: rest')
      end
  end.

Definition setAligRatings (objects : list R) (playerList : list Player)
  : res unit * list Player :=
  alig_loop objects 0 playerList.

(** ** bnetIdDict (lines 222-230) and setMMRs (lines 145-182)

    A Python dict from Battle.net ids to player objects, used for look-up
    only: an association list with the latest assignment first, an object
    being its index in the player list. *)

Definition dict : Type := list (string * nat).

(** [k in d], and [d[k]] when it is. *)
Fixpoint dict_get (d : dict) (k : string) : option nat :=
  match d with
  | [] => None
  | (k', v) :: d' => if (k =? k')%string then Some v else dict_get d' k
  end.

(** [d[k] = v] *)
Definition dict_set (d : dict) (k : string) (v : nat) : dict := (k, v) :: d.

(** The loop of [bnetIdDict] from the record at index [i] on. *)
Fixpoint bnetIdDict_from (i : nat) (playerList : list Player) (idDict : dict)
  : dict :=
  match playerList with
  | [] => idDict
  | p :: rest => bnetIdDict_from (S i) rest (dict_set idDict (bnet p) i)
  end.

Definition bnetIdDict (playerList : list Player) : dict :=
  bnetIdDict_from 0 playerList [].

Definition set_mmr (p : Player) (m : Z) : Player :=
  mkPlayer (name p) (alig p) (bnet p) (elo p) (aligRating p) m (sr p).

(** One entry of a ladder's ["team"] list: [str(id)] of the first member's
    legacy id, and the team's ["rating"]. *)
Record Team : Type := mkTeam { team_id : string; team_rating : Z }.

(** The body of the two team loops (lines 160-165 and 177-182). *)
Definition scan_team (idDict : dict) (playerList : list Player) (t : Team)
  : list Player :=
  match dict_get idDict (team_id t) with
  | None => playerList
  | Some n =>
      match nth_error playerList n with
      | None => playerList
      | Some p =>
          if (mmr p <? team_rating t)%Z
          then update n (set_mmr p (team_rating t)) playerList
          else playerList
      end
  end.

Definition scan_ladder (idDict : dict) (playerList : list Player)
    (teams : list Team) : list Player :=
  fold_left (scan_team idDict) teams playerList.

(** [gm] is the team list of the Grandmaster ladder, [masters] the team
    lists of the Master 1 divisions in the order the API names them.  The
    dict is built once, before the first loop. *)
Definition setMMRs (gm : list Team) (masters : list (list Team))
    (playerList : list Player) : list Player :=
  let idDict := bnetIdDict playerList in
  fold_left (scan_ladder idDict) masters (scan_ladder idDict playerList gm).

(** The highest rating among [cur] and the teams of [teams] with id [key]. *)
Definition highest (key : string) (teams : list Team) (cur : Z) : Z :=
  fold_left (fun m t => if (team_id t =? key)%string
                        then Z.max m (team_rating t) else m)
            teams cur.

(** [hits idDict n t]: the dict sends the id of team [t] to the object at
    index [n]. *)
Definition hits (idDict : dict) (n : nat) (t : Team) : bool :=
  match dict_get idDict (team_id t) with
  | Some m => (m =? n)%nat
  | None => false
  end.

(** The MMR of the object at index [n] after the teams [teams], from
    [cur]. *)
Definition mmr_after (idDict : dict) (n : nat) (teams : list Team) (cur : Z)
  : Z :=
  fold_left (fun m t => if hits idDict n t then Z.max m (team_rating t) else m)
            teams cur.

(** ** The player file as text (lines 111-124 and 194-203)

    [getPlayerList] and [savePlayersToFile] above keep a line as its four
    fields.  Here is the text itself.  Python's [str] and [float] on a
    float have no counterpart on real numbers and are parameters:
    [str_float x] is [str(x)], and [float_str s] is [float(s)], with [None]
    for ValueError. *)

Definition LF : ascii := ascii_of_nat 10.
Definition CR : ascii := ascii_of_nat 13.
Definition newline : string := String LF EmptyString.

(** [for line in open(filename)]: the lines of a text read with universal
    newlines.  A line ends at "\n", at "\r\n" or at "\r", each read as
    "\n" and kept at the end of the line; a last line may have no end.
    [cur] holds the characters of the line being read, last one first. *)
Fixpoint file_lines_from (cur : list ascii) (text : string) : list string :=
  match text with
  | EmptyString =>
      match cur with
      | [] => []
      | _ => [string_of_list_ascii (rev cur)]
      end
  | String c rest =>
      if Ascii.eqb c LF then
        string_of_list_ascii (rev (LF :: cur)) :: file_lines_from [] rest
      else if Ascii.eqb c CR then
        match rest with
        | String c' rest' =>
            if Ascii.eqb c' LF then
              string_of_list_ascii (rev (LF :: cur)) :: file_lines_from [] rest'
            else
              string_of_list_ascii (rev (LF :: cur)) :: file_lines_from [] rest
        | EmptyString => [string_of_list_ascii (rev (LF :: cur))]
        end
      else file_lines_from (c :: cur) rest
  end.

Definition file_lines (text : string) : list string := file_lines_from [] text.

(** [is_word s]: [s] is not empty and holds no white space, so that
    [s.split()] is [[s]]. *)
Definition no_space (s : string) : bool :=
  forallb (fun c => negb (is_space c)) (list_ascii_of_string s).

Definition is_word (s : string) : bool :=
  match s with
  | EmptyString => false
  | _ => no_space s
  end.

(** [no_break s]: no character of [s] ends a line. *)
Definition no_break (s : string) : bool :=
  forallb (fun c => negb (Ascii.eqb c LF) && negb (Ascii.eqb c CR))
          (list_ascii_of_string s).

(** What loading a file comes to: the list, or the exception raised. *)
Inductive loaded (A : Type) : Type :=
| Loaded (a : A)
| LoadIndexError
| LoadValueError.
Arguments Loaded {A} a.
Arguments LoadIndexError {A}.
Arguments LoadValueError {A}.

Section PlayerFileText.

Variable str_float : R -> string.
Variable float_str : string -> option R.

(** [Player(line[0], line[1], line[2], float(line[3]))] after
    [line = line.split()]. *)
Definition player_of_line (line : string) : loaded Player :=
  match split line with
  | n :: a :: b :: e :: _ =>
      match float_str e with
      | Some x => Loaded (newPlayer n a b x)
      | None => LoadValueError
      end
  | _ => LoadIndexError
  end.

(** The loop of [getPlayerList]: the first line that fails ends it. *)
Fixpoint load_lines (lines : list string) : loaded (list Player) :=
  match lines with
  | [] => Loaded []
  | line :: rest =>
      match player_of_line line with
      | Loaded p =>
          match load_lines rest with
          | Loaded l => Loaded (p :: l)
          | LoadIndexError => LoadIndexError
          | LoadValueError => LoadValueError
          end
      | LoadIndexError => LoadIndexError
      | LoadValueError => LoadValueError
      end
  end.

Definition getPlayerList_text (text : string) : loaded (list Player) :=
  load_lines (file_lines text).

(** [p.name + " " + p.alig + " " + p.bnet + " " + str(p.elo) + "\n"] *)
Definition line_text (p : Player) : string :=
  (name p ++ " " ++ alig p ++ " " ++ bnet p ++ " " ++ str_float (elo p)
   ++ newline)%string.

(** The text in the file after [savePlayersToFile]: one write per player
    into a file opened empty. *)
Definition savePlayersToFile_text (playerList : list Player) : string :=
  fold_right (fun p text => (line_text p ++ text)%string) EmptyString
             playerList.

(** [writable p]: the four fields of [p] go into a line as four words, and
    the text of the Elo reads back as the Elo. *)
Definition writable (p : Player) : Prop :=
  is_word (name p) = true /\ is_word (alig p) = true
  /\ is_word (bnet p) = true /\ is_word (str_float (elo p)) = true
  /\ float_str (str_float (elo p)) = Some (elo p).

End PlayerFileText.

(** A [str] and a [float] that agree on 2000.0, for rosters at that Elo. *)
Definition str_2000 (x : R) : string := "2000.0".
Definition float_2000 (s : string) : option R :=
  if (s =? "2000.0")%string then Some 2000.0 else None.

(** * Part I, binary64: the arithmetic as the interpreter runs it

    [expected], [adjustElo], [result], [setSRs] and the rounding of
    [setAligRatings] over binary64, the float of CPython.  A float is a
    primitive [float] of Rocq (IEEE 754 binary64, round to nearest, ties to
    even); [+ - *] are the primitive operations, which never raise; [/]
    raises ZeroDivisionError on a zero divisor; an int that meets a float
    is converted first ([float_of_int]); [round] with one argument gives
    the nearest int, ties to the even one.  [10 ** x] is what CPython's
    [float_pow] does at base 10.0: the special cases are decided first, and
    the C library's [pow], which the language does not specify, is called
    for a finite, nonzero exponent only.  That function is an argument of
    the model ([pow], with the [errno] it leaves).  Module [B64] has the
    source's names. *)

Module B64.

Local Open Scope float_scope.

(** The exceptions that arithmetic and indexing raise. *)
Inductive error : Type :=
  OverflowError | ZeroDivisionError | ValueError | IndexError.

Inductive py (A : Type) : Type :=
| Val (a : A)
| Exn (e : error).
Arguments Val {A} a.
Arguments Exn {A} e.

Definition bind {A B : Type} (c : py A) (k : A -> py B) : py B :=
  match c with
  | Val a => k a
  | Exn e => Exn e
  end.

Declare Scope b64_scope.
Delimit Scope b64_scope with b64.
Notation "x <- c ;; k" := (bind c (fun x => k))
  (at level 61, c at next level, right associativity) : b64_scope.
Local Open Scope b64_scope.

(** [float(n)] of a Python int, as [int * float] and [int - float] apply it:
    the nearest binary64, ties to even; OverflowError when the int is too
    large for a float. *)
Definition float_of_int (n : Z) : py float :=
  match binary_normalize prec emax n 0 false with
  | S754_infinity _ => Exn OverflowError
  | x => Val (SF2Prim x)
  end.

(** The integer nearest to m * 2^e, ties to the even one. *)
Definition round_half_even (m : positive) (e : Z) : Z :=
  if (0 <=? e)%Z then Zpos m * 2 ^ e
  else
    let d := (2 ^ (- e))%Z in
    let q := (Zpos m / d)%Z in
    match (2 * (Zpos m mod d) ?= d)%Z with
    | Lt => q
    | Gt => (q + 1)%Z
    | Eq => if Z.even q then q else (q + 1)%Z
    end.

(** [round(x)] with one argument. *)
Definition round (x : float) : py Z :=
  match Prim2SF x with
  | S754_nan => Exn ValueError
  | S754_infinity _ => Exn OverflowError
  | S754_zero _ => Val 0%Z
  | S754_finite s m e => Val (cond_Zopp s (round_half_even m e))
  end.

(** [x / y] on floats: ZeroDivisionError on a zero divisor. *)
Definition truediv (x y : float) : py float :=
  if y =? 0 then Exn ZeroDivisionError else Val (x / y).

(** ** Configuration constants (lines 40-42); [K_FACTOR] is an int, as above *)

Definition ELO_WEIGHT : float := 0.5.
Definition ALIG_WEIGHT : float := 0.3.
Definition MMR_WEIGHT : float := 0.2.

(** ** class Player (lines 58-70), the Elo a float *)

Record Player : Type := mkPlayer
  { name : string;
    alig : string;
    bnet : string;
    elo : float;
    aligRating : Z;
    mmr : Z;
    sr : Z }.

Definition newPlayer (n a b : string) (e : float) : Player :=
  mkPlayer n a b e 1 1 0.

Definition set_elo (p : Player) (e : float) : Player :=
  mkPlayer (name p) (alig p) (bnet p) e (aligRating p) (mmr p) (sr p).

Definition set_sr (p : Player) (s : Z) : Player :=
  mkPlayer (name p) (alig p) (bnet p) (elo p) (aligRating p) (mmr p) s.

Definition set_aligRating (p : Player) (a : Z) : Player :=
  mkPlayer (name p) (alig p) (bnet p) (elo p) a (mmr p) (sr p).

(** ** The Elo pair (lines 72-109) *)

Section Libm.

(** The C library's [pow], with the [errno] it leaves: [true] stands for
    ERANGE, [false] for 0. *)
Variable pow : float -> float -> float * bool.

(** [10 ** iw], the int 10 converted: float_pow of CPython at the base 10.0.
    A zero exponent gives 1.0, a NaN gives itself, an infinite one gives
    [inf] or 0.0; otherwise the C library is called, and OverflowError is
    raised when it reports ERANGE with a nonzero result or returns an
    infinity. *)
Definition pow10 (iw : float) : py float :=
  if iw =? 0 then Val 1
  else if is_nan iw then Val iw
  else if is_infinity iw then Val (if 0 <? iw then infinity else 0)
  else
    let (ix, erange) := pow 10 iw in
    if (if erange then negb (ix =? 0) else is_infinity ix)
    then Exn OverflowError
    else Val ix.

(** [1 / (1 + 10 ** ((elo2 - elo1) / 400))] *)
Definition expected (elo1 elo2 : float) : py float :=
  p <- pow10 ((elo2 - elo1) / 400) ;;
  truediv 1 (1 + p).

(** [oldElo + k * (result - exp)]; [result] and [k] are Python ints,
    converted where they meet a float. *)
Definition adjustElo (oldElo exp : float) (result k : Z) : py float :=
  r <- float_of_int result ;;
  kf <- float_of_int k ;;
  Val (oldElo + kf * (r - exp)).

(** [result(p1, p2, winner)]: the two records as the call leaves them.  The
    expected score is computed first, for any [winner]; both new ratings
    come from the ratings read before either is written. *)
Definition result (p1 p2 : Player) (winner : Z) : py (Player * Player) :=
  ex <- expected (elo p1) (elo p2) ;;
  match winner with
  | 1%Z =>
      e1 <- adjustElo (elo p1) ex 1 K_FACTOR ;;
      e2 <- adjustElo (elo p2) (1 - ex) 0 K_FACTOR ;;
      Val (set_elo p1 e1, set_elo p2 e2)
  | 2%Z =>
      e1 <- adjustElo (elo p1) ex 0 K_FACTOR ;;
      e2 <- adjustElo (elo p2) (1 - ex) 1 K_FACTOR ;;
      Val (set_elo p1 e1, set_elo p2 e2)
  | _ => Val (p1, p2)
  end.

End Libm.

(** ** setSRs (lines 184-192) *)

(** [round((p.aligRating * ALIG_WEIGHT) + (p.mmr * MMR_WEIGHT)
    + round((p.elo * ELO_WEIGHT)))], evaluated from left to right. *)
Definition slothRating (p : Player) : py Z :=
  a <- float_of_int (aligRating p) ;;
  m <- float_of_int (mmr p) ;;
  e <- round (elo p * ELO_WEIGHT) ;;
  ef <- float_of_int e ;;
  round (a * ALIG_WEIGHT + m * MMR_WEIGHT + ef).

(** The loop: the exception that ends it, if one does, and the records as
    it leaves them. *)
Fixpoint setSRs (playerList : list Player) : option error * list Player :=
  match playerList with
  | [] => (None, [])
  | p :: rest =>
      match slothRating p with
      | Exn e => (Some e, p :: rest)
      | Val s => let (r, rest') := setSRs rest in (r, set_sr p s :: rest')
      end
  end.

(** ** The loop of setAligRatings (lines 139-143) *)

(** A JSON number, as [response.json()] gives it: an int or a float. *)
Inductive number : Type :=
| Int (n : Z)
| Float (x : float).

(** [round(rating * 1000 + 1000)] (line 142) *)
Definition aligRating_of (rating : number) : py Z :=
  match rating with
  | Int n => Val (n * 1000 + 1000)%Z
  | Float x => round (x * 1000 + 1000)
  end.

(** [l[i]] *)
Definition item {A : Type} (l : list A) (i : nat) : py A :=
  match nth_error l i with
  | Some x => Val x
  | None => Exn IndexError
  end.

(** Lines 139-143, from the record at index [i] on: the exception that ends
    the loop, if one does, and the records as the loop leaves them. *)
Fixpoint alig_loop (objects : list number) (i : nat) (playerList : list Player)
  : option error * list Player :=
  match playerList with
  | [] => (None, [])
  | p :: rest =>
      match (rating <- item objects i ;; aligRating_of rating) with
      | Exn e => (Some e, p :: rest)
      | Val a =>
          let (r, rest') := alig_loop objects (S i) rest in
          (r, set_aligRating p a :: rest')
      end
  end.

Definition setAligRatings (objects : list number) (playerList : list Player)
  : option error * list Player :=
  alig_loop objects 0 playerList.

End B64.

(** ** Numbers of the format as integers

    The definitions that the rounding theorems of Part IV are stated with. *)

(** The value of a finite number, in units of 2^-1074 (so an integer). *)
Definition SF2Z (x : spec_float) : Z :=
  match x with
  | S754_finite s m e => cond_Zopp s (Zpos m * 2 ^ (e + 1074))%Z
  | _ => 0%Z
  end.

Definition F2Z (x : float) : Z := SF2Z (Prim2SF x).

Definition SFfinite (x : spec_float) : bool :=
  match x with
  | S754_zero _ | S754_finite _ _ _ => true
  | _ => false
  end.

Definition SFnonneg (x : spec_float) : bool :=
  match x with
  | S754_zero false | S754_finite false _ _ | S754_infinity false => true
  | _ => false
  end.

Definition SFnan (x : spec_float) : bool :=
  match x with S754_nan => true | _ => false end.

Definition SFinf (x : spec_float) : bool :=
  match x with S754_infinity _ => true | _ => false end.

Definition SFzero (x : spec_float) : bool :=
  match x with S754_zero _ => true | _ => false end.

(** [brk N D mrs]: the rational N / D, not below 0, lies in [m, m + 1) for
    the mantissa m of the record, and the two bits r and s are both clear
    exactly when N / D = m. *)
Definition brk (N D : Z) (mrs : shr_record) : Prop :=
  (0 < D)%Z /\ (0 <= shr_m mrs)%Z /\
  (shr_m mrs * D <= N < (shr_m mrs + 1) * D)%Z /\
  (shr_r mrs || shr_s mrs = false <-> N = (shr_m mrs * D)%Z).

Definition brk_loc (N D m : Z) (l : location) : Prop :=
  (0 < D)%Z /\ (0 <= m)%Z /\ (m * D <= N < (m + 1) * D)%Z /\
  (l = loc_Exact <-> N = (m * D)%Z).

(** The second half of [binary_round_aux]: the carry of the rounded
    mantissa and the overflow test. *)
Definition pack (s : bool) (m1 e' : Z) : spec_float :=
  let '(mrs'', e'') := shr_fexp prec emax m1 e' loc_Exact in
  match shr_m mrs'' with
  | Z0 => S754_zero s
  | Zpos m =>
      if (e'' <=? emax - prec)%Z then S754_finite s m e'' else S754_infinity s
  | _ => S754_nan
  end.

(** [faithful V W r]: [r] is a number or an infinity, and no finite number
    of the format lies strictly between [r] and the exact value V / W (in
    units of 2^-1074, with W > 0). *)
Definition faithful (V W : Z) (r : spec_float) : Prop :=
  valid_binary r = true /\ SFnan r = false /\
  forall c, valid_binary c = true -> SFfinite c = true ->
    ((SF2Z c * W <= V)%Z -> SFleb c r = true) /\
    ((V <= SF2Z c * W)%Z -> SFleb r c = true).

(** What every C library grants of [pow(10.0, y)]: a number, not below 0. *)
Definition pow_nonneg (pow : float -> float -> float * bool) : Prop :=
  forall y, (0 <=? fst (pow 10%float y))%float = true.

(** A [pow] that answers [v] and leaves no error: the C library at one
    call. *)
Definition pow_const (v : float) : float -> float -> float * bool :=
  fun _ _ => (v, false).

Definition playerA (e : float) : B64.Player := B64.newPlayer "A" "1" "100" e.
Definition playerB (e : float) : B64.Player := B64.newPlayer "B" "2" "200" e.

(** [rated p q]: [q] is [p] with the composite of [p] stored in it. *)
Definition rated (p q : B64.Player) : Prop :=
  exists s, B64.slothRating p = B64.Val s /\ q = B64.set_sr p s.

(** The record at place [i] as the loop of [setAligRatings] leaves it when
    it gets there. *)
Definition fetched (objects : list B64.number) (i : nat) (p : B64.Player)
  : B64.py B64.Player :=
  B64.bind (B64.item objects i)
    (fun rating => B64.bind (B64.aligRating_of rating)
       (fun a => B64.Val (B64.set_aligRating p a))).

(** * Part II: properties *)

(** ** Real arithmetic of the logistic curve *)

Section Logistic.

Variables a b : R.


Lemma pow10_0 : Rpower 10 0 = 1.
Proof. apply Rpower_O. lra. Qed.

Lemma pow10_opp (x : R) : Rpower 10 (- x) = / Rpower 10 x.
Proof. apply Rpower_Ropp. Qed.

Lemma pow10_1 : Rpower 10 1 = 10.
Proof. apply Rpower_1. lra. Qed.


Lemma expected_diag : expected a a = 1 / 2.
Proof.
  unfold expected. replace ((a - a) / 400) with 0 by field.
  rewrite pow10_0. lra.
Qed.

End Logistic.

(** A rating gap of 400 points: the favourite is expected to score 10/11. *)
Lemma expected_gap_400 (a b : R) : a - b = 400 -> expected a b = 10 / 11.
Proof.
  intros G. unfold expected.
  replace ((b - a) / 400) with (Ropp 1) by lra.
  rewrite pow10_opp, pow10_1. lra.
Qed.

(** ** What [result] does to the two records *)

Section Result.

Variables p1 p2 : Player.

Lemma result_1 :
  result p1 p2 1 =
  (set_elo p1 (elo p1 + 32 * (1 - expected (elo p1) (elo p2))),
   set_elo p2 (elo p2 + 32 * (0 - (1 - expected (elo p1) (elo p2))))).
Proof. reflexivity. Qed.

Lemma result_2 :
  result p1 p2 2 =
  (set_elo p1 (elo p1 + 32 * (0 - expected (elo p1) (elo p2))),
   set_elo p2 (elo p2 + 32 * (1 - (1 - expected (elo p1) (elo p2))))).
Proof. reflexivity. Qed.

Lemma delta1_1 : delta1 p1 p2 1 = 32 * (1 - expected (elo p1) (elo p2)).
Proof. unfold delta1. rewrite result_1. simpl. lra. Qed.

Lemma delta1_2 : delta1 p1 p2 2 = - (32 * expected (elo p1) (elo p2)).
Proof. unfold delta1. rewrite result_2. simpl. lra. Qed.


End Result.

(** ** The mirror claim in real arithmetic *)

(** C5, as stated, fails at 2200 against 1800: side 1 gains 32/11 by winning
    and drops 320/11 by losing. *)
Lemma C5_counterexample :
  delta1 (newPlayer "A" "1" "10" 2200) (newPlayer "B" "2" "20" 1800) 1 = 32 / 11
  /\ delta1 (newPlayer "A" "1" "10" 2200) (newPlayer "B" "2" "20" 1800) 2
     = - (320 / 11)
  /\ delta1 (newPlayer "A" "1" "10" 2200) (newPlayer "B" "2" "20" 1800) 1
     <> - delta1 (newPlayer "A" "1" "10" 2200) (newPlayer "B" "2" "20" 1800) 2.
Proof.
  rewrite delta1_1, delta1_2. simpl.
  rewrite (expected_gap_400 2200 1800) by lra.
  repeat split; lra.
Qed.

(** ** Rounding and the composite rating *)

(** [py_round] is within one half of its argument. *)
Lemma py_round_near (x : R) : Rabs (IZR (py_round x) - x) <= 1 / 2.
Proof.
  unfold py_round.
  pose proof (base_fp x) as [F0 F1]. apply Rge_le in F0.
  pose proof (Rplus_Int_part_frac_part x) as E.
  destruct (Rlt_dec (frac_part x) (1 / 2)) as [L | NL].
  - apply Rabs_le. lra.
  - destruct (Rlt_dec (1 / 2) (frac_part x)) as [G | NG].
    + rewrite plus_IZR. apply Rabs_le. lra.
    + destruct (Z.even (Int_part x)); [| rewrite plus_IZR]; apply Rabs_le; lra.
Qed.

Lemma setSRs_length (pl : list Player) :
  List.length (setSRs pl) = List.length pl.
Proof. apply length_map. Qed.

Lemma setSRs_elo (pl : list Player) : map elo (setSRs pl) = map elo pl.
Proof. unfold setSRs. rewrite map_map. reflexivity. Qed.

(** Recomputing the composite on unchanged ratings changes nothing. *)
Lemma setSRs_idempotent (pl : list Player) : setSRs (setSRs pl) = setSRs pl.
Proof.
  unfold setSRs. rewrite map_map. apply map_ext. intros p. reflexivity.
Qed.

(** A list whose composites are up to date is left as it is. *)
Lemma setSRs_fixed (pl : list Player) :
  (forall p, In p pl -> sr p = slothRating p) -> setSRs pl = pl.
Proof.
  induction pl as [| p pl IH]; intros Hp; [reflexivity |].
  simpl. rewrite IH by (intros q Hq; apply Hp; right; exact Hq).
  f_equal. unfold set_sr. rewrite <- (Hp p (or_introl eq_refl)).
  destruct p. reflexivity.
Qed.

(** ** The in-place sort of printRatingList *)

Lemma insert_desc_perm (x : Player) (l : list Player) :
  Permutation (insert_desc x l) (x :: l).
Proof.
  induction l as [| y l IH]; simpl.
  - apply Permutation_refl.
  - destruct (sr x <? sr y)%Z.
    + apply Permutation_trans with (y :: x :: l).
      * apply perm_skip, IH.
      * apply perm_swap.
    + apply Permutation_refl.
Qed.

Lemma sort_desc_perm (l : list Player) : Permutation (sort_desc l) l.
Proof.
  induction l as [| x l IH]; simpl.
  - apply perm_nil.
  - apply Permutation_trans with (x :: sort_desc l).
    + apply insert_desc_perm.
    + apply perm_skip, IH.
Qed.

Lemma insert_desc_sorted (x : Player) (l : list Player) :
  StronglySorted desc l -> StronglySorted desc (insert_desc x l).
Proof.
  induction 1 as [| y l S IH F]; simpl.
  - constructor; constructor.
  - destruct (Z.ltb_spec (sr x) (sr y)) as [L | G].
    + constructor; [exact IH |].
      apply Forall_forall. intros z Hz.
      apply (Permutation_in _ (insert_desc_perm x l)) in Hz.
      destruct Hz as [<- | Hz].
      * unfold desc. lia.
      * rewrite Forall_forall in F. apply F, Hz.
    + constructor; [constructor; assumption |].
      constructor; [unfold desc; lia |].
      apply Forall_impl with (P := desc y); [| exact F].
      unfold desc. intros z Hz. lia.
Qed.

Lemma sort_desc_sorted (l : list Player) : StronglySorted desc (sort_desc l).
Proof.
  induction l as [| x l IH]; simpl.
  - constructor.
  - apply insert_desc_sorted, IH.
Qed.

Lemma insert_desc_with_sr (k : Z) (x : Player) (l : list Player) :
  with_sr k (insert_desc x l) = with_sr k (x :: l).
Proof.
  unfold with_sr. induction l as [| y l IH]; [reflexivity |].
  simpl. destruct (Z.ltb_spec (sr x) (sr y)) as [L | G]; [| reflexivity].
  simpl. rewrite IH. simpl.
  destruct (Z.eqb_spec (sr x) k) as [Ex | Nx]; [| reflexivity].
  destruct (Z.eqb_spec (sr y) k) as [Ey | Ny]; [lia | reflexivity].
Qed.

(** The sort is stable: records with one composite keep their order. *)
Lemma sort_desc_stable (k : Z) (l : list Player) :
  with_sr k (sort_desc l) = with_sr k l.
Proof.
  induction l as [| x l IH]; [reflexivity |].
  simpl. rewrite insert_desc_with_sr. unfold with_sr in *. simpl.
  rewrite IH. reflexivity.
Qed.

Lemma insert_desc_head (x : Player) (l : list Player) :
  Forall (desc x) l -> insert_desc x l = x :: l.
Proof.
  destruct l as [| y l]; [reflexivity |].
  intros F. apply Forall_inv in F. unfold desc in F. simpl.
  destruct (Z.ltb_spec (sr x) (sr y)); [lia | reflexivity].
Qed.

(** A list already in ranking order is left as it is. *)
Lemma sort_desc_fixed (l : list Player) :
  StronglySorted desc l -> sort_desc l = l.
Proof.
  induction 1 as [| x l S IH F]; [reflexivity |].
  simpl. rewrite IH. apply insert_desc_head, F.
Qed.

Lemma print_command_roster (w : World) :
  print_command w =
  (Ok tt,
   mkWorld (sort_desc (setSRs (roster w)))
           (stdout w ++ snd (printRatingList (setSRs (roster w))))
           (logfile w) (playerFile w)).
Proof. reflexivity. Qed.

Lemma exit_command_file (w : World) :
  exit_command w =
  (Ok tt,
   mkWorld (roster w) (stdout w) (logfile w) (savePlayersToFile (roster w))).
Proof. reflexivity. Qed.

Lemma main_loop_print (rest : list string) (w : World) :
  main_loop ("print"%string :: rest) w
  = main_loop rest (snd (print_command (say Prompt w))).
Proof. reflexivity. Qed.

Lemma main_loop_exit (rest : list string) (w : World) :
  main_loop ("exit"%string :: rest) w = exit_command (say Prompt w).
Proof. reflexivity. Qed.

(** C9.  [printRatingList] hands back its list in descending order of
    composite, with the same records, none of them altered.  The display
    command leaves the list object reordered in this way: its roster is the
    stable descending sort by composite of the roster it found (with the
    composites just recomputed).  A save after it writes the lines in that order (so
    does the session "print" then "exit"), and a second display starts from
    the reordered list, which it keeps. *)
Theorem C9_display_reorders_roster (playerList : list Player) (w : World) :
  let shown := snd (print_command w) in
  StronglySorted desc (fst (printRatingList playerList))
  /\ Permutation (fst (printRatingList playerList)) playerList
  /\ fst (printRatingList (setSRs (roster w))) = roster shown
  /\ StronglySorted desc (roster shown)
  /\ Permutation (roster shown) (setSRs (roster w))
  /\ (forall k, with_sr k (roster shown) = with_sr k (setSRs (roster w)))
  /\ playerFile (snd (exit_command shown)) = savePlayersToFile (roster shown)
  /\ map f_name (playerFile (snd (exit_command shown)))
     = map name (sort_desc (setSRs (roster w)))
  /\ roster (snd (print_command shown)) = roster shown
  /\ playerFile (snd (main_session ["print"; "exit"]%string w))
     = savePlayersToFile (sort_desc (setSRs (roster w))).
Proof.
  intros shown. subst shown.
  assert (Session : playerFile (snd (main_session ["print"; "exit"]%string w))
                    = savePlayersToFile (sort_desc (setSRs (roster w))))
    by (unfold main_session, bind; rewrite main_loop_print, main_loop_exit;
        reflexivity).
  split; [apply sort_desc_sorted |].
  split; [apply sort_desc_perm |].
  rewrite print_command_roster. cbn [snd roster].
  split; [reflexivity |].
  split; [apply sort_desc_sorted |].
  split; [apply sort_desc_perm |].
  split; [intros k; apply sort_desc_stable |].
  rewrite exit_command_file. cbn [snd playerFile roster].
  split; [reflexivity |].
  split; [unfold savePlayersToFile; rewrite map_map; reflexivity |].
  split; [| exact Session].
  - rewrite print_command_roster. cbn [snd roster].
    assert (E : setSRs (sort_desc (setSRs (roster w)))
                = sort_desc (setSRs (roster w))).
    { apply setSRs_fixed. intros p Hp.
      apply (Permutation_in _ (sort_desc_perm _)) in Hp.
      unfold setSRs in Hp. apply in_map_iff in Hp.
      destruct Hp as (q & <- & _). reflexivity. }
    rewrite E. apply sort_desc_fixed, sort_desc_sorted.
Qed.

(** ** The result reader *)

Lemma readResultString_eq (resString : string) (w : World) :
  readResultString resString w =
  let w1 := after_count_check resString w in
  match find_players (split resString) (roster w) 0 None None with
  | Raise e => (Raise e, w1)
  | Ok (Some i, Some j) =>
      match item (split resString) 1 with
      | Raise e => (Raise e, w1)
      | Ok rel =>
          if (rel =? ">")%string then
            (Ok tt, mkWorld (result_at i j 1 (roster w)) (stdout w1)
                            (logfile w ++ [resString]) (playerFile w))
          else if (rel =? "<")%string then
            (Ok tt, mkWorld (result_at i j 2 (roster w)) (stdout w1)
                            (logfile w ++ [resString]) (playerFile w))
          else (Ok tt, say (Text MSG_IMPROPER) w1)
      end
  | Ok _ => (Ok tt, say (Text MSG_NOT_FOUND) w1)
  end.
Proof.
  unfold readResultString, after_count_check, bind, get_roster, lift, print,
    ret, set_roster, log.
  destruct (List.length (split resString) =? 3)%nat; simpl;
    (destruct (find_players (split resString) (roster w) 0 None None)
       as [[[i |] [j |]] | e]; try reflexivity;
     destruct (item (split resString) 1) as [rel | e]; try reflexivity;
     destruct (rel =? ">")%string; try reflexivity;
     destruct (rel =? "<")%string; reflexivity).
Qed.

Lemma after_count_check_frame (resString : string) (w : World) :
  roster (after_count_check resString w) = roster w
  /\ logfile (after_count_check resString w) = logfile w
  /\ playerFile (after_count_check resString w) = playerFile w.
Proof.
  unfold after_count_check.
  destruct (List.length (split resString) =? 3)%nat; repeat split.
Qed.

(** Facts about [is_last] on a list with one more record in front. *)

Lemma is_last_later (P : Player -> Prop) (p : Player) (rest : list Player)
    (k : nat) :
  is_last P rest k -> is_last P (p :: rest) (S k).
Proof.
  intros [Hk Hl]. split; [exact Hk |].
  intros j q Hj Hq. destruct j as [| j]; [lia |].
  apply (Hl j q); [lia | exact Hq].
Qed.

Lemma is_last_front (P : Player -> Prop) (p : Player) (rest : list Player) :
  P p -> (forall q, In q rest -> ~ P q) -> is_last P (p :: rest) 0.
Proof.
  intros Pp No. split; [exists p; split; [reflexivity | exact Pp] |].
  intros j q Hj Hq. destruct j as [| j]; [lia |].
  apply No. apply (nth_error_In rest j). exact Hq.
Qed.

Lemma none_cons (P : Player -> Prop) (p : Player) (rest : list Player) :
  ~ P p -> (forall q, In q rest -> ~ P q) ->
  forall q, In q (p :: rest) -> ~ P q.
Proof. intros Np No q [<- | Hq]; [exact Np | apply No, Hq]. Qed.

Lemma held_skip (P : Player -> Prop) (p : Player) (rest : list Player)
    (i : nat) (before after : option nat) :
  ~ P p -> held P rest (S i) before after -> held P (p :: rest) i before after.
Proof.
  intros Np [[-> No] | (k & -> & L)].
  - left. split; [reflexivity | apply none_cons; assumption].
  - right. exists (S k). split; [f_equal; lia | apply is_last_later, L].
Qed.

Lemma held_bind (P : Player -> Prop) (p : Player) (rest : list Player)
    (i : nat) (before after : option nat) :
  P p -> held P rest (S i) (Some i) after -> held P (p :: rest) i before after.
Proof.
  intros Pp [[-> No] | (k & -> & L)]; right.
  - exists 0%nat. split; [f_equal; lia | apply is_last_front; assumption].
  - exists (S k). split; [f_equal; lia | apply is_last_later, L].
Qed.

Section FindPlayers.

Variable resArray : list string.
Variables t0 t2 : string.
Hypothesis H0 : item resArray 0 = Ok t0.
Hypothesis H2 : item resArray 2 = Ok t2.

Lemma find_players_cons (p : Player) (rest : list Player) (i : nat)
    (p1 p2 : option nat) :
  find_players resArray (p :: rest) i p1 p2 =
  if (t0 =? name p)%string then
    find_players resArray rest (S i) (Some i) p2
  else if (t2 =? name p)%string then
    find_players resArray rest (S i) p1 (Some i)
  else find_players resArray rest (S i) p1 p2.
Proof. simpl. rewrite H0, H2. reflexivity. Qed.

(** With both names readable the loop runs to its end. *)
Lemma find_players_total (pl : list Player) :
  forall i p1 p2, exists r1 r2, find_players resArray pl i p1 p2 = Ok (r1, r2).
Proof.
  induction pl as [| p rest IH]; intros i p1 p2.
  - exists p1, p2. reflexivity.
  - rewrite find_players_cons.
    destruct (t0 =? name p)%string; [apply IH |].
    destruct (t2 =? name p)%string; apply IH.
Qed.

(** The first reference is bound at the records named [t0], the second at
    the records named [t2] and not [t0]. *)
Lemma find_players_held (pl : list Player) :
  forall i p1 p2 r1 r2,
    find_players resArray pl i p1 p2 = Ok (r1, r2) ->
    held (fun q => name q = t0) pl i p1 r1
    /\ held (fun q => name q <> t0 /\ name q = t2) pl i p2 r2.
Proof.
  induction pl as [| p rest IH]; intros i p1 p2 r1 r2 F.
  - simpl in F. inversion F. subst r1 r2.
    split; left; (split; [reflexivity | intros q []]).
  - rewrite find_players_cons in F.
    destruct (String.eqb_spec t0 (name p)) as [E | N].
    + destruct (IH _ _ _ _ _ F) as [A B]. split.
      * apply held_bind; [symmetry; exact E | exact A].
      * apply held_skip; [intros [X _]; congruence | exact B].
    + destruct (String.eqb_spec t2 (name p)) as [E2 | N2];
        destruct (IH _ _ _ _ _ F) as [A B]; split.
      * apply held_skip; [congruence | exact A].
      * apply held_bind; [split; congruence | exact B].
      * apply held_skip; [congruence | exact A].
      * apply held_skip; [intros [_ X]; congruence | exact B].
Qed.

End FindPlayers.

Lemma is_last_unique (P : Player -> Prop) (l : list Player) (i j : nat) :
  is_last P l i -> is_last P l j -> i = j.
Proof.
  intros [(p & Hp & Pp) Li] [(q & Hq & Pq) Lj].
  destruct (Nat.lt_trichotomy i j) as [L | [E | G]]; [| exact E |].
  - exfalso. apply (Li j q L Hq Pq).
  - exfalso. apply (Lj i p G Hp Pp).
Qed.

(** C7, as stated, fails on a roster with two records named Foo: the first
    is at index 0, the lookup of "Foo > Bar" binds the one at index 1, and
    the result leaves the Elo of the first at 2000 while the second moves. *)
Lemma C7_counterexample :
  option_map name (nth_error roster_two_foos 0) = Some "Foo"%string
  /\ find_players (split "Foo > Bar") roster_two_foos 0 None None
     = Ok (Some 1%nat, Some 2%nat)
  /\ map elo (roster (snd (readResultString "Foo > Bar"
                             (mkWorld roster_two_foos [] [] []))))
     = [2000; 1500 + 32 * (1 - expected 1500 1800);
        1800 + 32 * (0 - (1 - expected 1500 1800))].
Proof.
  split; [reflexivity |]. split; [reflexivity |].
  rewrite readResultString_eq. reflexivity.
Qed.

(** C7, amended.  When the first and the third word can be read, the loop
    ends with the first reference on the LAST record of the roster whose name
    is the first word, and the second reference on the last record whose name
    is the third word and not the first; a reference stays unbound exactly
    when there is no such record. *)
Theorem C7_lookup_takes_last_match (resArray : list string) (t0 t2 : string)
    (playerList : list Player) :
  item resArray 0 = Ok t0 ->
  item resArray 2 = Ok t2 ->
  exists r1 r2,
    find_players resArray playerList 0 None None = Ok (r1, r2)
    /\ (forall i, r1 = Some i <-> is_last (fun q => name q = t0) playerList i)
    /\ (forall j, r2 = Some j <->
                  is_last (fun q => name q <> t0 /\ name q = t2) playerList j).
Proof.
  intros H0 H2.
  destruct (find_players_total resArray t0 t2 H0 H2 playerList 0 None None)
    as (r1 & r2 & F).
  exists r1, r2. split; [exact F |]. split.
  - destruct (proj1 (find_players_held resArray t0 t2 H0 H2 _ _ _ _ _ _ F))
      as [[-> No] | (k & -> & L)]; intros i; split.
    + discriminate.
    + intros [(p & Hp & Pp) _]. exfalso. apply (No p); [| exact Pp].
      eapply nth_error_In, Hp.
    + intros E. inversion E. subst i. exact L.
    + intros Li. f_equal. simpl. eapply is_last_unique; eassumption.
  - destruct (proj2 (find_players_held resArray t0 t2 H0 H2 _ _ _ _ _ _ F))
      as [[-> No] | (k & -> & L)]; intros j; split.
    + discriminate.
    + intros [(p & Hp & Pp) _]. exfalso. apply (No p); [| exact Pp].
      eapply nth_error_In, Hp.
    + intros E. inversion E. subst j. exact L.
    + intros Lj. f_equal. simpl. eapply is_last_unique; eassumption.
Qed.

(** C7, on the roster with two records named Foo. *)
Lemma C7_lookup_takes_last_match_witness :
  exists r1 r2,
    find_players ["Foo"; ">"; "Bar"]%string roster_two_foos 0 None None
    = Ok (r1, r2)
    /\ (forall i, r1 = Some i <->
                  is_last (fun q => name q = "Foo"%string) roster_two_foos i)
    /\ (forall j, r2 = Some j <->
                  is_last (fun q => name q <> "Foo"%string
                                    /\ name q = "Bar"%string)
                          roster_two_foos j).
Proof.
  apply (C7_lookup_takes_last_match ["Foo"; ">"; "Bar"]%string
           "Foo"%string "Bar"%string roster_two_foos); reflexivity.
Defined.

(** With one name on both sides the second reference is never bound. *)
Lemma find_players_same_name (resArray : list string) (t : string)
    (pl : list Player) :
  item resArray 0 = Ok t ->
  item resArray 2 = Ok t ->
  forall i p1, exists r1, find_players resArray pl i p1 None = Ok (r1, None).
Proof.
  intros H0 H2. induction pl as [| p rest IH]; intros i p1.
  - exists p1. reflexivity.
  - rewrite (find_players_cons resArray t t H0 H2).
    destruct (t =? name p)%string; apply IH.
Qed.

Lemma item_nth_error {A : Type} (a : list A) (i : nat) (x : A) :
  nth_error a i = Some x -> item a i = Ok x.
Proof. unfold item. intros ->. reflexivity. Qed.

(** C10.  A result line whose first and third words are one and the same
    name never gets its second reference bound, whatever the roster: the
    reader prints the player-not-found message (after the word-count message
    when the line has more than three words), returns normally, and leaves
    the roster, hence every Elo, and the log as they were. *)
Theorem C10_same_name_on_both_sides (resString t : string) (w : World) :
  nth_error (split resString) 0 = Some t ->
  nth_error (split resString) 2 = Some t ->
  (exists r1, find_players (split resString) (roster w) 0 None None
              = Ok (r1, None))
  /\ readResultString resString w
     = (Ok tt, say (Text MSG_NOT_FOUND) (after_count_check resString w))
  /\ roster (snd (readResultString resString w)) = roster w
  /\ logfile (snd (readResultString resString w)) = logfile w.
Proof.
  intros H0 H2. apply item_nth_error in H0, H2.
  destruct (find_players_same_name _ t (roster w) H0 H2 0%nat None) as (r1 & F).
  assert (E : readResultString resString w
              = (Ok tt, say (Text MSG_NOT_FOUND)
                            (after_count_check resString w))).
  { rewrite readResultString_eq, F. cbv zeta. destruct r1; reflexivity. }
  split; [exists r1; exact F |]. split; [exact E |].
  rewrite E. cbn [snd say roster logfile].
  destruct (after_count_check_frame resString w) as (R & L & _).
  split; assumption.
Qed.

(** C10, at the line "Foo > Foo" on the roster of Foo and Bar. *)
Lemma C10_same_name_on_both_sides_witness :
  readResultString "Foo > Foo" (mkWorld roster_foo_bar [] [] [])
  = (Ok tt, mkWorld roster_foo_bar [Text MSG_NOT_FOUND] [] []).
Proof.
  apply (C10_same_name_on_both_sides "Foo > Foo" "Foo"
           (mkWorld roster_foo_bar [] [] []) eq_refl eq_refl).
Defined.

(** ** Lines the reader turns down *)

(** A three-word line whose middle word is neither ">" nor "<" changes
    nothing but the console. *)
Lemma readResultString_unknown_relation (resString t0 rel t2 : string)
    (w : World) :
  split resString = [t0; rel; t2] ->
  rel <> ">"%string -> rel <> "<"%string ->
  exists msg, readResultString resString w = (Ok tt, say (Text msg) w).
Proof.
  intros S N1 N2. rewrite readResultString_eq.
  unfold after_count_check. rewrite S. cbn [List.length Nat.eqb].
  destruct (find_players_total [t0; rel; t2] t0 t2 eq_refl eq_refl
              (roster w) 0 None None) as (r1 & r2 & F).
  rewrite F. cbv zeta. cbn [item nth_error].
  destruct (String.eqb_spec rel ">"); [contradiction |].
  destruct (String.eqb_spec rel "<"); [contradiction |].
  destruct r1, r2; eauto.
Qed.

(** A three-word line naming a player the roster does not hold changes
    nothing but the console. *)
Lemma readResultString_unknown_player (resString t0 rel t2 : string)
    (w : World) :
  split resString = [t0; rel; t2] ->
  (forall q, In q (roster w) -> name q <> t0)
  \/ (forall q, In q (roster w) -> name q <> t2) ->
  readResultString resString w = (Ok tt, say (Text MSG_NOT_FOUND) w).
Proof.
  intros S U. rewrite readResultString_eq.
  unfold after_count_check. rewrite S. cbn [List.length Nat.eqb].
  destruct (find_players_total [t0; rel; t2] t0 t2 eq_refl eq_refl
              (roster w) 0 None None) as (r1 & r2 & F).
  rewrite F. cbv zeta.
  destruct U as [U | U].
  - destruct (proj1 (find_players_held [t0; rel; t2] t0 t2 eq_refl eq_refl
                       _ _ _ _ _ _ F))
      as [[-> _] | (k & _ & ((p & Hp & Pp) & _))].
    + reflexivity.
    + exfalso. apply (U p); [eapply nth_error_In, Hp | exact Pp].
  - destruct (proj2 (find_players_held [t0; rel; t2] t0 t2 eq_refl eq_refl
                       _ _ _ _ _ _ F))
      as [[-> _] | (k & _ & ((p & Hp & (_ & Pp)) & _))].
    + destruct r1; reflexivity.
    + exfalso. apply (U p); [eapply nth_error_In, Hp | exact Pp].
Qed.

(** ** The command loop *)

Lemma main_loop_result_line (inp : string) (rest : list string) (w : World) :
  inp <> "print"%string -> inp <> "exit"%string -> inp <> "forcequit"%string ->
  main_loop (inp :: rest) w =
  match readResultString inp (say Prompt w) with
  | (Ok _, w') => main_loop rest w'
  | (Raise e, w') => (Raise e, w')
  end.
Proof.
  intros N1 N2 N3. cbn [main_loop]. unfold bind at 1. cbn [print].
  destruct (String.eqb_spec inp "print"); [contradiction |].
  destruct (String.eqb_spec inp "exit"); [contradiction |].
  destruct (String.eqb_spec inp "forcequit"); [contradiction |].
  reflexivity.
Qed.

(** C6 fails on the code for a wrong word count, where the reader prints
    its message and then carries on.  On the roster of Foo and Bar, both at
    2000.0: the four-word line "Foo > Bar extra" is reported as not
    recognized and is applied and logged all the same (2016 and 1984); the
    one-word line "Foo" is reported and then raises IndexError, which ends
    the session before the "exit" that follows can save; the three-word line
    "Foo >< Bar" is turned down with no change. *)
Theorem C6_wrong_word_count_is_not_turned_down :
  readResultString "Foo > Bar extra" (mkWorld roster_foo_bar [] [] [])
  = (Ok tt,
     mkWorld [newPlayer "Foo" "1" "100" 2016.0;
              newPlayer "Bar" "2" "200" 1984.0]
             [Text MSG_NOT_RECOGNIZED] ["Foo > Bar extra"%string] [])
  /\ readResultString "Foo" (mkWorld roster_foo_bar [] [] [])
     = (Raise IndexError,
        mkWorld roster_foo_bar [Text MSG_NOT_RECOGNIZED] [] [])
  /\ main_session ["Foo"; "exit"]%string (mkWorld roster_foo_bar [] [] [])
     = (Raise IndexError,
        mkWorld roster_foo_bar [Prompt; Text MSG_NOT_RECOGNIZED] [] [])
  /\ readResultString "Foo >< Bar" (mkWorld roster_foo_bar [] [] [])
     = (Ok tt, mkWorld roster_foo_bar [Text MSG_IMPROPER] [] []).
Proof.
  split; [| split; [| split]].
  - rewrite readResultString_eq. cbv zeta.
    change (find_players (split "Foo > Bar extra")
              (roster (mkWorld roster_foo_bar [] [] [])) 0 None None)
      with (@Ok (option nat * option nat) (Some 0%nat, Some 1%nat)).
    cbn [item split nth_error]. 
    change (item (split "Foo > Bar extra") 1) with (Ok ">"%string).
    cbn [String.eqb Ascii.eqb Bool.eqb].
    f_equal. f_equal.
    unfold result_at, roster_foo_bar. cbn [roster nth_error].
    rewrite result_1.
    cbn [update elo newPlayer set_elo name alig bnet aligRating mmr sr].
    rewrite expected_diag. unfold newPlayer, set_elo.
    cbn [name alig bnet elo aligRating mmr sr].
    replace (2000.0 + 32 * (1 - 1 / 2)) with 2016.0 by lra.
    replace (2000.0 + 32 * (0 - (1 - 1 / 2))) with 1984.0 by lra.
    reflexivity.
  - rewrite readResultString_eq. reflexivity.
  - unfold main_session, bind. rewrite main_loop_result_line by discriminate.
    rewrite readResultString_eq. reflexivity.
  - rewrite readResultString_eq. reflexivity.
Qed.

(** ** Where an Elo may change *)

(** [result] writes the Elo of each record and nothing else. *)
Lemma result_fields (p1 p2 : Player) (winner : Z) :
  fst (result p1 p2 winner) = set_elo p1 (elo (fst (result p1 p2 winner)))
  /\ snd (result p1 p2 winner) = set_elo p2 (elo (snd (result p1 p2 winner))).
Proof.
  unfold result. destruct (winner =? 1)%Z; [split; reflexivity |].
  destruct (winner =? 2)%Z; [split; reflexivity |].
  destruct p1, p2. split; reflexivity.
Qed.

Lemma nth_error_update {A : Type} (i n : nat) (x : A) (l : list A) :
  nth_error (update i x l) n =
  if (n =? i)%nat then option_map (fun _ => x) (nth_error l n)
  else nth_error l n.
Proof.
  revert i n. induction l as [| y l IH]; intros i n.
  - simpl. destruct n; destruct (_ =? _)%nat; reflexivity.
  - destruct i as [| i], n as [| n]; simpl; try reflexivity. apply IH.
Qed.

(** One result touches no field of a record but its Elo. *)
Lemma result_at_frame (i j : nat) (winner : Z) (pl : list Player) (n : nat)
    (p : Player) :
  nth_error pl n = Some p ->
  exists q, nth_error (result_at i j winner pl) n = Some q
            /\ q = set_elo p (elo q).
Proof.
  intros Hn. unfold result_at.
  assert (Same : exists q, Some p = Some q /\ q = set_elo p (elo q)).
  { exists p. split; [reflexivity | destruct p; reflexivity]. }
  destruct (nth_error pl i) as [p1 |] eqn:Hi; [| rewrite Hn; exact Same].
  destruct (nth_error pl j) as [p2 |] eqn:Hj; [| rewrite Hn; exact Same].
  destruct (result_fields p1 p2 winner) as [F1 F2].
  destruct (result p1 p2 winner) as [q1 q2]. simpl in F1, F2.
  rewrite !nth_error_update.
  destruct (Nat.eqb_spec n j) as [-> | Nj].
  - destruct (Nat.eqb_spec j i) as [-> | Ni]; rewrite Hn; simpl;
      exists q2; (split; [reflexivity |]);
      assert (p2 = p) by congruence; subst p2; assumption.
  - destruct (Nat.eqb_spec n i) as [-> | Ni]; rewrite Hn; simpl.
    + exists q1. split; [reflexivity |].
      assert (p1 = p) by congruence. subst p1. assumption.
    + exact Same.
Qed.

(** The reader changes the list by one application of [result] or not at
    all. *)
Lemma readResultString_roster (resString : string) (w : World) :
  roster (snd (readResultString resString w)) = roster w
  \/ exists i j winner,
       roster (snd (readResultString resString w))
       = result_at i j winner (roster w).
Proof.
  rewrite readResultString_eq. cbv zeta.
  destruct (after_count_check_frame resString w) as (R & _ & _).
  destruct (find_players (split resString) (roster w) 0 None None)
    as [[[i |] [j |]] | e]; try (left; exact R).
  destruct (item (split resString) 1) as [rel | e]; [| left; exact R].
  destruct (rel =? ">")%string; [right; exists i, j, 1%Z; reflexivity |].
  destruct (rel =? "<")%string; [right; exists i, j, 2%Z; reflexivity |].
  left. exact R.
Qed.

(** * Part III: the rest of the program *)

(** ** One step of the command loop *)

Lemma main_loop_nil (w : World) :
  main_loop [] w = (Raise EOFError, say Prompt w).
Proof. reflexivity. Qed.

Lemma main_loop_forcequit (rest : list string) (w : World) :
  main_loop ("forcequit"%string :: rest) w = (Ok tt, say Prompt w).
Proof. reflexivity. Qed.

(** The four branches of the loop body, by the line read. *)
Ltac loop_cases inp :=
  destruct (String.eqb_spec inp "print") as [-> | ?];
  [ rewrite main_loop_print
  | destruct (String.eqb_spec inp "exit") as [-> | ?];
    [ rewrite main_loop_exit
    | destruct (String.eqb_spec inp "forcequit") as [-> | ?];
      [ rewrite main_loop_forcequit
      | rewrite main_loop_result_line by assumption ] ] ].

Lemma main_session_eq (stdin : list string) (w : World) :
  main_session stdin w =
  match main_loop stdin w with
  | (Ok _, w') => (Ok tt, say (Text "Ending program") w')
  | (Raise e, w') => (Raise e, w')
  end.
Proof.
  unfold main_session, bind. destruct (main_loop stdin w) as [[[] | e] w'];
    reflexivity.
Qed.

(** ** Rosters related through a whole session *)

Section SessionRelation.

Variable Rel : list Player -> list Player -> Prop.
Hypothesis Rel_refl : forall l, Rel l l.
Hypothesis Rel_trans : forall l1 l2 l3, Rel l1 l2 -> Rel l2 l3 -> Rel l1 l3.
Hypothesis Rel_read :
  forall s w, Rel (roster w) (roster (snd (readResultString s w))).
Hypothesis Rel_display : forall l, Rel l (sort_desc (setSRs l)).

Lemma main_loop_related (stdin : list string) :
  forall w, Rel (roster w) (roster (snd (main_loop stdin w))).
Proof.
  induction stdin as [| inp rest IH]; intros w.
  - rewrite main_loop_nil. apply Rel_refl.
  - loop_cases inp.
    + eapply Rel_trans; [| apply IH]. rewrite print_command_roster.
      cbn [snd roster say]. apply Rel_display.
    + rewrite exit_command_file. apply Rel_refl.
    + apply Rel_refl.
    + pose proof (Rel_read inp (say Prompt w)) as Hr.
      destruct (readResultString inp (say Prompt w)) as [[u | e] w'];
        cbn [snd] in Hr |- *; [| exact Hr].
      eapply Rel_trans; [exact Hr | apply IH].
Qed.

Lemma main_session_related (stdin : list string) (w : World) :
  Rel (roster w) (roster (snd (main_session stdin w))).
Proof.
  rewrite main_session_eq. pose proof (main_loop_related stdin w) as H.
  destruct (main_loop stdin w) as [[u | e] w']; exact H.
Qed.

End SessionRelation.

(** A bound second reference means that both names could be read. *)
Lemma find_players_read_both (resArray : list string) (pl : list Player) :
  forall i p1 r1 j,
    find_players resArray pl i p1 None = Ok (r1, Some j) ->
    exists t0 t2, item resArray 0 = Ok t0 /\ item resArray 2 = Ok t2.
Proof.
  induction pl as [| p rest IH]; intros i p1 r1 j F; simpl in F.
  - discriminate.
  - destruct (item resArray 0) as [t0 |]; [| discriminate].
    destruct (t0 =? name p)%string; [exact (IH _ _ _ _ F) |].
    destruct (item resArray 2) as [t2 |]; [| discriminate].
    exists t0, t2. split; reflexivity.
Qed.

(** The two references never point to one object. *)
Lemma find_players_distinct (resArray : list string) (pl : list Player)
    (i j : nat) :
  find_players resArray pl 0 None None = Ok (Some i, Some j) -> i <> j.
Proof.
  intros F.
  destruct (find_players_read_both _ _ _ _ _ _ F) as (t0 & t2 & H0 & H2).
  destruct (find_players_held resArray t0 t2 H0 H2 _ _ _ _ _ _ F) as [A B].
  destruct A as [[A _] | (k & Ek & ((p & Hp & Pp) & _))]; [discriminate |].
  destruct B as [[B _] | (k' & Ek' & ((q & Hq & (Nq & _)) & _))];
    [discriminate |].
  inversion Ek. inversion Ek'. subst i j. simpl. intros E. subst k'.
  rewrite Hp in Hq. inversion Hq. subst q. contradiction.
Qed.

(** The list after a line is the list before, or one result between two
    different records of it. *)
Lemma readResultString_applied (resString : string) (w : World) :
  (roster (snd (readResultString resString w)) = roster w
   /\ logfile (snd (readResultString resString w)) = logfile w)
  \/ exists i j winner,
       i <> j /\ (winner = 1%Z \/ winner = 2%Z)
       /\ fst (readResultString resString w) = Ok tt
       /\ roster (snd (readResultString resString w))
          = result_at i j winner (roster w)
       /\ logfile (snd (readResultString resString w))
          = logfile w ++ [resString].
Proof.
  rewrite readResultString_eq. cbv zeta.
  destruct (after_count_check_frame resString w) as (R & L & _).
  destruct (find_players (split resString) (roster w) 0 None None)
    as [[[i |] [j |]] | e] eqn:F; try (left; split; assumption).
  apply find_players_distinct in F.
  destruct (item (split resString) 1) as [rel | e];
    [| left; split; assumption].
  destruct (rel =? ">")%string.
  { right. exists i, j, 1%Z. repeat split; auto. }
  destruct (rel =? "<")%string.
  { right. exists i, j, 2%Z. repeat split; auto. }
  left. split; assumption.
Qed.

(** ** Who is on the roster *)

Lemma identity_update (i : nat) (x old : Player) (l : list Player) :
  nth_error l i = Some old -> identity x = identity old ->
  map identity (update i x l) = map identity l.
Proof.
  revert i. induction l as [| y l IH]; intros [| i] H E; try discriminate.
  - simpl in H. inversion H. subst y. simpl. rewrite E. reflexivity.
  - simpl in H. simpl. rewrite (IH i H E). reflexivity.
Qed.

Lemma result_identity (p1 p2 : Player) (winner : Z) :
  identity (fst (result p1 p2 winner)) = identity p1
  /\ identity (snd (result p1 p2 winner)) = identity p2.
Proof.
  destruct (result_fields p1 p2 winner) as [-> ->]. split; reflexivity.
Qed.

Lemma result_at_identity (i j : nat) (winner : Z) (pl : list Player) :
  map identity (result_at i j winner pl) = map identity pl.
Proof.
  unfold result_at.
  destruct (nth_error pl i) as [p1 |] eqn:Hi; [| reflexivity].
  destruct (nth_error pl j) as [p2 |] eqn:Hj; [| reflexivity].
  destruct (result_identity p1 p2 winner) as [I1 I2].
  destruct (result p1 p2 winner) as [q1 q2]. simpl in I1, I2.
  assert (Hj' : exists old, nth_error (update i q1 pl) j = Some old
                            /\ identity q2 = identity old).
  { rewrite nth_error_update. destruct (Nat.eqb_spec j i) as [-> | N].
    - rewrite Hi. simpl. exists q1. split; [reflexivity |].
      rewrite I2, I1. congruence.
    - exists p2. split; assumption. }
  destruct Hj' as (old & Ho & Io).
  rewrite (identity_update j q2 old _ Ho Io).
  apply (identity_update i q1 p1 pl Hi I1).
Qed.

Lemma setSRs_identity (l : list Player) :
  map identity (setSRs l) = map identity l.
Proof. unfold setSRs. rewrite map_map. reflexivity. Qed.

(** X2.  A session never adds, drops or renames a player, and never touches
    an Aligulac or Battle.net id: at its end, however it ends, the roster
    holds the same (name, alig, bnet) triples as at its start, reordered at
    most; a result line alone does not even reorder them. *)
Theorem session_keeps_the_players (stdin : list string) (resString : string)
    (w : World) :
  Permutation (map identity (roster (snd (main_session stdin w))))
              (map identity (roster w))
  /\ List.length (roster (snd (main_session stdin w))) = List.length (roster w)
  /\ map identity (roster (snd (readResultString resString w)))
     = map identity (roster w).
Proof.
  assert (Read : forall s w0,
             map identity (roster (snd (readResultString s w0)))
             = map identity (roster w0)).
  { intros s w0.
    destruct (readResultString_applied s w0)
      as [[-> _] | (i & j & k & _ & _ & _ & -> & _)]; [reflexivity |].
    apply result_at_identity. }
  assert (P : Permutation (map identity (roster w))
                          (map identity (roster (snd (main_session stdin w))))).
  { apply (main_session_related
             (fun l l' => Permutation (map identity l) (map identity l'))).
    - intros l. apply Permutation_refl.
    - intros l1 l2 l3. apply Permutation_trans.
    - intros s w0. rewrite Read. apply Permutation_refl.
    - intros l. rewrite <- (setSRs_identity l) at 1.
      apply Permutation_map, Permutation_sym, sort_desc_perm. }
  split; [apply Permutation_sym, P |]. split; [| apply Read].
  apply Permutation_length in P. rewrite !length_map in P. symmetry. exact P.
Qed.

(** ** The log *)

Lemma main_loop_log (stdin : list string) :
  forall w, exists applied,
    logfile (snd (main_loop stdin w)) = logfile w ++ applied
    /\ incl applied stdin
    /\ (List.length applied <= List.length stdin)%nat.
Proof.
  induction stdin as [| inp rest IH]; intros w.
  - exists []. rewrite main_loop_nil, app_nil_r.
    split; [reflexivity |]. split; [apply incl_nil_l | apply Nat.le_refl].
  - loop_cases inp.
    + destruct (IH (snd (print_command (say Prompt w)))) as (a & E & I & L).
      exists a. rewrite E, print_command_roster. cbn [snd logfile say].
      split; [reflexivity |]. split; [apply incl_tl, I | simpl; lia].
    + exists []. rewrite exit_command_file, app_nil_r. cbn [snd logfile say].
      split; [reflexivity |]. split; [apply incl_nil_l | simpl; lia].
    + exists []. rewrite app_nil_r.
      split; [reflexivity |]. split; [apply incl_nil_l | simpl; lia].
    + pose proof (readResultString_applied inp (say Prompt w)) as A.
      destruct (readResultString inp (say Prompt w)) as [[u | e] w'];
        cbn [snd fst] in A |- *.
      * destruct (IH w') as (a & E & I & L).
        destruct A as [[_ Lg] | (_ & _ & _ & _ & _ & _ & _ & Lg)];
          rewrite E, Lg; cbn [logfile say].
        -- exists a. split; [reflexivity |].
           split; [apply incl_tl, I | simpl; lia].
        -- exists (inp :: a). rewrite <- app_assoc.
           split; [reflexivity |]. split; [| simpl; lia].
           apply incl_cons; [left; reflexivity | apply incl_tl, I].
      * destruct A as [[_ Lg] | (_ & _ & _ & _ & _ & Bad & _)];
          [| discriminate].
        exists []. rewrite Lg, app_nil_r. cbn [logfile say].
        split; [reflexivity |]. split; [apply incl_nil_l | simpl; lia].
Qed.

(** X3.  Every change of the roster by a line is on the log.  A line either
    leaves roster and log as they were, or it is one result between two
    different records, returns normally, and puts exactly the line, as it
    was typed, at the end of the log.  Over a session the log only grows, by
    lines of the input and by no more lines than were read. *)
Theorem every_applied_result_is_logged (resString : string)
    (stdin : list string) (w : World) :
  ((roster (snd (readResultString resString w)) = roster w
    /\ logfile (snd (readResultString resString w)) = logfile w)
   \/ (exists i j winner,
          i <> j /\ (winner = 1%Z \/ winner = 2%Z)
          /\ fst (readResultString resString w) = Ok tt
          /\ roster (snd (readResultString resString w))
             = result_at i j winner (roster w)
          /\ logfile (snd (readResultString resString w))
             = logfile w ++ [resString]))
  /\ exists applied,
       logfile (snd (main_session stdin w)) = logfile w ++ applied
       /\ incl applied stdin
       /\ (List.length applied <= List.length stdin)%nat.
Proof.
  split; [apply readResultString_applied |].
  destruct (main_loop_log stdin w) as (a & E & I & L).
  exists a. rewrite main_session_eq.
  destruct (main_loop stdin w) as [[u | e] w']; cbn [snd logfile say] in *;
    repeat split; assumption.
Qed.

(** ** A well-formed line *)





(** ** How a session ends *)

Lemma readResultString_file (resString : string) (w : World) :
  playerFile (snd (readResultString resString w)) = playerFile w.
Proof.
  rewrite readResultString_eq. cbv zeta.
  destruct (after_count_check_frame resString w) as (_ & _ & PF).
  destruct (find_players (split resString) (roster w) 0 None None)
    as [[[i |] [j |]] | e]; try exact PF.
  destruct (item (split resString) 1) as [rel | e]; [| exact PF].
  destruct (rel =? ">")%string; [reflexivity |].
  destruct (rel =? "<")%string; [reflexivity | exact PF].
Qed.

Lemma quits_spec (inp : string) :
  quits inp = true <-> inp = "exit"%string \/ inp = "forcequit"%string.
Proof.
  unfold quits. rewrite orb_true_iff, !String.eqb_eq. reflexivity.
Qed.

Lemma main_loop_outcome (stdin : list string) :
  forall w,
    match fst (main_loop stdin w) with
    | Raise _ => playerFile (snd (main_loop stdin w)) = playerFile w
    | Ok _ =>
        (first_quit stdin = Some "exit"%string
         /\ playerFile (snd (main_loop stdin w))
            = savePlayersToFile (roster (snd (main_loop stdin w))))
        \/ (first_quit stdin = Some "forcequit"%string
            /\ playerFile (snd (main_loop stdin w)) = playerFile w)
    end.
Proof.
  induction stdin as [| inp rest IH]; intros w.
  - reflexivity.
  - loop_cases inp.
    + specialize (IH (snd (print_command (say Prompt w)))).
      rewrite print_command_roster in IH |- *. cbn [snd playerFile say] in *.
      exact IH.
    + left. split; reflexivity.
    + right. split; reflexivity.
    + assert (Q : quits inp = false).
      { destruct (quits inp) eqn:Q; [| reflexivity].
        apply quits_spec in Q. destruct Q; contradiction. }
      cbn [first_quit]. rewrite Q.
      pose proof (readResultString_file inp (say Prompt w)) as PF.
      destruct (readResultString inp (say Prompt w)) as [[u | e] w'];
        cbn [snd fst] in PF |- *; [| exact PF].
      specialize (IH w'). rewrite PF in IH. exact IH.
Qed.

Lemma main_loop_needs_quit (stdin : list string) :
  forall w, first_quit stdin = None ->
            exists e, fst (main_loop stdin w) = Raise e.
Proof.
  induction stdin as [| inp rest IH]; intros w Q.
  - exists EOFError. reflexivity.
  - cbn [first_quit] in Q. destruct (quits inp) eqn:Qi; [discriminate |].
    loop_cases inp; try discriminate.
    + apply IH, Q.
    + destruct (readResultString inp (say Prompt w)) as [[u | e] w'].
      * apply IH, Q.
      * exists e. reflexivity.
Qed.

(** X5.  The player file is written by "exit" and by nothing else.  When a
    session ends with an exception its file is what it was, so the Elo
    changes of the session are lost; without an "exit" or "forcequit" line
    in the input it always ends so.  When it ends normally, the first of
    these two lines in the input decides: after "exit" the file is the saved
    final roster, after "forcequit" it is what it was; the last line on the
    console is then "Ending program". *)
Theorem player_file_is_written_by_exit_alone (stdin : list string)
    (w : World) :
  let final := snd (main_session stdin w) in
  (forall e, fst (main_session stdin w) = Raise e ->
             playerFile final = playerFile w)
  /\ (first_quit stdin = None -> exists e, fst (main_session stdin w) = Raise e)
  /\ (fst (main_session stdin w) = Ok tt ->
      ((first_quit stdin = Some "exit"%string
        /\ playerFile final = savePlayersToFile (roster final))
       \/ (first_quit stdin = Some "forcequit"%string
           /\ playerFile final = playerFile w))
      /\ exists out, stdout final = out ++ [Text "Ending program"]).
Proof.
  intros final. subst final. rewrite main_session_eq.
  pose proof (main_loop_outcome stdin w) as O.
  pose proof (main_loop_needs_quit stdin w) as N.
  destruct (main_loop stdin w) as [[u | e] w']; cbn [fst snd] in *.
  - split; [discriminate |]. split.
    + intros Q. destruct (N Q) as (e & He). discriminate.
    + intros _. split; [exact O |]. exists (stdout w'). reflexivity.
  - split; [intros _ _; exact O |]. split; [| discriminate].
    intros _. exists e. reflexivity.
Qed.

Lemma main_loop_stops_at_quit (pre rest : list string) (inp : string) :
  quits inp = true ->
  forall w, main_loop (pre ++ inp :: rest) w = main_loop (pre ++ [inp]) w.
Proof.
  intros Q. apply quits_spec in Q.
  induction pre as [| c pre IH]; intros w.
  - destruct Q as [-> | ->]; reflexivity.
  - rewrite <- !app_comm_cons.
    destruct (String.eqb_spec c "print") as [-> | N1];
      [rewrite !main_loop_print; apply IH |].
    destruct (String.eqb_spec c "exit") as [-> | N2]; [reflexivity |].
    destruct (String.eqb_spec c "forcequit") as [-> | N3]; [reflexivity |].
    rewrite !main_loop_result_line by assumption.
    destruct (readResultString c (say Prompt w)) as [[u | e] w'];
      [apply IH | reflexivity].
Qed.

(** X6.  Nothing typed after an "exit" or a "forcequit" is read: the
    session is the same whatever follows that line. *)
Theorem input_after_quit_is_ignored (pre rest : list string) (inp : string)
    (w : World) :
  quits inp = true ->
  main_session (pre ++ inp :: rest) w = main_session (pre ++ [inp]) w.
Proof.
  intros Q. rewrite !main_session_eq, (main_loop_stops_at_quit pre rest inp Q).
  reflexivity.
Qed.

(** X6, at a session of one result line, "exit", and two more lines. *)
Lemma input_after_quit_is_ignored_witness :
  main_session ["Foo > Bar"; "exit"; "Bar > Foo"; "print"]%string
               (mkWorld roster_foo_bar [] [] [])
  = main_session ["Foo > Bar"; "exit"]%string
                 (mkWorld roster_foo_bar [] [] []).
Proof.
  apply (input_after_quit_is_ignored ["Foo > Bar"%string]
           ["Bar > Foo"; "print"]%string "exit"%string
           (mkWorld roster_foo_bar [] [] []) eq_refl).
Defined.

(** ** The composite and its roundings *)







(** ** The table of printRatingList *)

Lemma table_rows_length (rank : Z) (l : list Player) :
  List.length (table_rows rank l) = List.length l.
Proof.
  revert rank. induction l as [| p l IH]; intros rank; [reflexivity |].
  simpl. rewrite IH. reflexivity.
Qed.

Lemma table_rows_nth (l : list Player) :
  forall rank n p,
    nth_error l n = Some p ->
    nth_error (table_rows rank l) n
    = Some (TableRow (rank + Z.of_nat n) (name p) (sr p) (py_round (elo p))
                     (aligRating p) (mmr p)).
Proof.
  induction l as [| q l IH]; intros rank [| n] p H; try discriminate.
  - simpl in H. inversion H. subst q. simpl. rewrite Z.add_0_r. reflexivity.
  - simpl in H. cbn [table_rows nth_error]. rewrite (IH _ _ _ H).
    do 2 f_equal. lia.
Qed.

Lemma sorted_head_is_top (p : Player) (l : list Player) :
  StronglySorted desc (p :: l) -> forall q, In q (p :: l) -> (sr q <= sr p)%Z.
Proof.
  intros S q [<- | Hq]; [lia |].
  apply StronglySorted_inv in S. destruct S as [_ F].
  rewrite Forall_forall in F. apply (F q Hq).
Qed.

(** X10.  [printRatingList] prints the header, one row for every player of
    the list and a blank line.  The row in place n (from 0) carries rank
    n + 1 and the values of the record in place n of the sorted list, its
    Elo rounded to an integer no more than one half away; ranks run
    1, 2, 3, ... also through ties.  The record shown at rank 1 has the
    highest composite of the list. *)
Theorem ranking_table_rows (playerList : list Player) :
  exists rows,
    snd (printRatingList playerList) = TableHeader :: rows ++ [Blank]
    /\ List.length rows = List.length playerList
    /\ (forall n p,
           nth_error (fst (printRatingList playerList)) n = Some p ->
           nth_error rows n
           = Some (TableRow (Z.of_nat n + 1) (name p) (sr p) (py_round (elo p))
                            (aligRating p) (mmr p))
           /\ Rabs (IZR (py_round (elo p)) - elo p) <= 1 / 2)
    /\ (forall p, nth_error (fst (printRatingList playerList)) 0 = Some p ->
                  forall q, In q playerList -> (sr q <= sr p)%Z).
Proof.
  exists (table_rows 1 (sort_desc playerList)). cbn [printRatingList fst snd].
  split; [reflexivity |]. split.
  { rewrite table_rows_length.
    apply Permutation_length, sort_desc_perm. }
  split.
  - intros n p H. split; [| apply py_round_near].
    rewrite (table_rows_nth _ 1 n p H). do 2 f_equal. lia.
  - intros p H q Hq.
    pose proof (sort_desc_sorted playerList) as S.
    apply (Permutation_in
             _ (Permutation_sym (sort_desc_perm playerList))) in Hq.
    destruct (sort_desc playerList) as [| p' l]; [discriminate |].
    simpl in H. inversion H. subst p'. apply (sorted_head_is_top p l S q Hq).
Qed.

(** ** setAligRatings *)

Lemma drop_last_app (s t : string) :
  t <> EmptyString -> drop_last (s ++ t) = (s ++ drop_last t)%string.
Proof.
  intros N. induction s as [| c s IH]; [reflexivity |].
  simpl. rewrite IH. destruct (s ++ t)%string eqn:E; [| reflexivity].
  destruct s; [simpl in E; contradiction | discriminate].
Qed.

Lemma drop_last_snoc (s : string) :
  drop_last (s ++ ";") = s.
Proof.
  induction s as [| c s IH]; [reflexivity |].
  simpl. rewrite IH. destruct (s ++ ";")%string eqn:E; [| reflexivity].
  destruct s; discriminate.
Qed.

Lemma append_assoc (s t u : string) :
  ((s ++ t) ++ u = s ++ (t ++ u))%string.
Proof.
  induction s as [| c s IH]; [reflexivity |]. simpl. rewrite IH. reflexivity.
Qed.

Lemma append_nil_r (s : string) : (s ++ "")%string = s.
Proof.
  induction s as [| c s IH]; [reflexivity |]. simpl. rewrite IH. reflexivity.
Qed.

Lemma alig_fold (pl : list Player) :
  forall acc,
    fold_left (fun players p => (players ++ alig p ++ ";")%string) pl acc
    = (acc ++ String.concat "" (map (fun p => alig p ++ ";") pl))%string.
Proof.
  induction pl as [| p pl IH]; intros acc.
  - simpl. rewrite append_nil_r. reflexivity.
  - cbn [fold_left map]. rewrite IH.
    destruct pl as [| q pl].
    + simpl. rewrite append_nil_r. reflexivity.
    + cbn [map String.concat]. rewrite !append_assoc. reflexivity.
Qed.

Lemma item_none {A : Type} (a : list A) (i : nat) :
  (List.length a <= i)%nat -> item a i = Raise IndexError.
Proof.
  intros L. unfold item. apply nth_error_None in L. rewrite L. reflexivity.
Qed.

Lemma alig_loop_elo (objects : list R) (pl : list Player) :
  forall i, map elo (snd (alig_loop objects i pl)) = map elo pl
            /\ map identity (snd (alig_loop objects i pl)) = map identity pl.
Proof.
  induction pl as [| p pl IH]; intros i; [split; reflexivity |].
  simpl. destruct (item objects i); [| split; reflexivity].
  specialize (IH (S i)). destruct (alig_loop objects (S i) pl) as [r rest'].
  cbn [snd] in *. destruct IH as [E I]. simpl. rewrite E, I.
  split; reflexivity.
Qed.

Lemma concat_semis_nonempty (p : Player) (pl : list Player) :
  String.concat "" (map (fun q => (alig q ++ ";")%string) (p :: pl))
  <> EmptyString.
Proof.
  cbn [map String.concat]. destruct pl as [| q pl].
  - destruct (alig p); discriminate.
  - cbn [map]. destruct (alig p); discriminate.
Qed.

(** X12.  The id list that [setAligRatings] puts in its request is the
    players' Aligulac ids in roster order with a ";" between neighbours:
    none before the first or after the last, and the empty string for an
    empty roster. *)
Theorem alig_players_is_the_joined_ids (playerList : list Player) :
  alig_players playerList = String.concat ";" (map alig playerList).
Proof.
  unfold alig_players. rewrite alig_fold. cbn [append].
  induction playerList as [| p pl IH]; [reflexivity |].
  destruct pl as [| q pl].
  - cbn [map String.concat]. apply drop_last_snoc.
  - change (String.concat "" (map (fun p0 => (alig p0 ++ ";")%string)
                                  (p :: q :: pl)))
      with ((alig p ++ ";") ++ "" ++
            String.concat "" (map (fun p0 => (alig p0 ++ ";")%string)
                                  (q :: pl)))%string.
    cbn [append]. rewrite drop_last_app by apply concat_semis_nonempty.
    rewrite IH. cbn [map String.concat]. rewrite append_assoc. reflexivity.
Qed.

(** ** bnetIdDict and setMMRs *)

Lemma bnetIdDict_from_held (key : string) (pl : list Player) :
  forall i d,
    held (fun q => bnet q = key) pl i
         (dict_get d key) (dict_get (bnetIdDict_from i pl d) key).
Proof.
  induction pl as [| p rest IH]; intros i d.
  - left. split; [reflexivity | intros q []].
  - cbn [bnetIdDict_from].
    specialize (IH (S i) (dict_set d (bnet p) i)).
    cbn [dict_set dict_get] in IH.
    destruct (String.eqb_spec key (bnet p)) as [E | N].
    + apply held_bind; [symmetry; exact E | exact IH].
    + apply held_skip; [congruence | exact IH].
Qed.

Lemma dict_get_bnetIdDict (playerList : list Player) (key : string) (n : nat) :
  dict_get (bnetIdDict playerList) key = Some n
  <-> is_last (fun q => bnet q = key) playerList n.
Proof.
  pose proof (bnetIdDict_from_held key playerList 0 []) as H.
  fold (bnetIdDict playerList) in H. cbn [dict_get] in H.
  destruct H as [[E No] | (k & E & L)]; rewrite E; split.
  - discriminate.
  - intros [(p & Hp & Pp) _]. exfalso.
    apply (No p); [eapply nth_error_In, Hp | exact Pp].
  - intros Hn. inversion Hn. subst n. exact L.
  - intros Ln. f_equal. simpl. eapply is_last_unique; eassumption.
Qed.

(** X13.  [bnetIdDict] maps a Battle.net id to the LAST record of the list
    that carries it, and holds no other key: of two players with one id the
    earlier one cannot be reached through the dict. *)
Theorem bnetIdDict_maps_id_to_last_record (playerList : list Player)
    (key : string) :
  (forall n, dict_get (bnetIdDict playerList) key = Some n
             <-> is_last (fun q => bnet q = key) playerList n)
  /\ (dict_get (bnetIdDict playerList) key = None
      <-> forall q, In q playerList -> bnet q <> key).
Proof.
  split; [intros n; apply dict_get_bnetIdDict |].
  pose proof (bnetIdDict_from_held key playerList 0 []) as H.
  fold (bnetIdDict playerList) in H. cbn [dict_get] in H.
  destruct H as [[E No] | (k & E & L)]; rewrite E.
  - split; [intros _; exact No | reflexivity].
  - split; [discriminate |]. intros No. exfalso.
    destruct L as [(p & Hp & Pp) _].
    apply (No p); [eapply nth_error_In, Hp | exact Pp].
Qed.

Lemma set_mmr_same (p : Player) : set_mmr p (mmr p) = p.
Proof. destruct p. reflexivity. Qed.

Lemma scan_team_nth (d : dict) (t : Team) (cur : list Player) (n : nat)
    (p : Player) :
  nth_error cur n = Some p ->
  nth_error (scan_team d cur t) n
  = Some (set_mmr p (if hits d n t then Z.max (mmr p) (team_rating t)
                     else mmr p)).
Proof.
  intros H. unfold scan_team, hits.
  destruct (dict_get d (team_id t)) as [m |];
    [| rewrite set_mmr_same; exact H].
  destruct (Nat.eqb_spec m n) as [-> | N].
  - rewrite H. destruct (Z.ltb_spec (mmr p) (team_rating t)) as [L | G].
    + rewrite nth_error_update, Nat.eqb_refl, H. simpl.
      rewrite Z.max_r by lia. reflexivity.
    + rewrite Z.max_l by lia. rewrite set_mmr_same. exact H.
  - rewrite set_mmr_same.
    destruct (nth_error cur m) as [pm |]; [| exact H].
    destruct (mmr pm <? team_rating t)%Z; [| exact H].
    rewrite nth_error_update.
    destruct (Nat.eqb_spec n m); [congruence | exact H].
Qed.

Lemma scan_teams_nth (d : dict) (teams : list Team) :
  forall cur n p,
    nth_error cur n = Some p ->
    nth_error (fold_left (scan_team d) teams cur) n
    = Some (set_mmr p (mmr_after d n teams (mmr p))).
Proof.
  induction teams as [| t ts IH]; intros cur n p H.
  - simpl. rewrite set_mmr_same. exact H.
  - cbn [fold_left]. rewrite (IH _ n _ (scan_team_nth d t cur n p H)).
    reflexivity.
Qed.

Lemma scan_ladders_flat (d : dict) (masters : list (list Team)) :
  forall cur,
    fold_left (scan_ladder d) masters cur
    = fold_left (scan_team d) (List.concat masters) cur.
Proof.
  induction masters as [| ts masters IH]; intros cur; [reflexivity |].
  cbn [fold_left List.concat]. rewrite fold_left_app. apply IH.
Qed.

(** The ladders are scanned as one list of teams. *)
Lemma setMMRs_flat (gm : list Team) (masters : list (list Team))
    (pl : list Player) :
  setMMRs gm masters pl
  = fold_left (scan_team (bnetIdDict pl)) (gm ++ List.concat masters) pl.
Proof.
  unfold setMMRs. cbv zeta. rewrite scan_ladders_flat. unfold scan_ladder.
  rewrite fold_left_app. reflexivity.
Qed.

Lemma setMMRs_nth (gm : list Team) (masters : list (list Team))
    (pl : list Player) (n : nat) (p : Player) :
  nth_error pl n = Some p ->
  nth_error (setMMRs gm masters pl) n
  = Some (set_mmr p (mmr_after (bnetIdDict pl) n (gm ++ List.concat masters)
                               (mmr p))).
Proof. intros H. rewrite setMMRs_flat. apply scan_teams_nth, H. Qed.

(** Through the dict of [pl], a team hits the record in place [n] when
    that record is the last one with its id and the id is the team's. *)
Lemma hits_bnetIdDict (pl : list Player) (n : nat) (p : Player) (t : Team) :
  nth_error pl n = Some p ->
  hits (bnetIdDict pl) n t = true
  <-> team_id t = bnet p /\ is_last (fun q => bnet q = bnet p) pl n.
Proof.
  intros H. unfold hits. split.
  - destruct (dict_get (bnetIdDict pl) (team_id t)) as [m |] eqn:G;
      [| discriminate].
    intros E. apply Nat.eqb_eq in E. subst m.
    apply dict_get_bnetIdDict in G.
    assert (B : bnet p = team_id t).
    { destruct G as [(q & Hq & Pq) _]. congruence. }
    split; [symmetry; exact B | rewrite B; exact G].
  - intros [E L]. rewrite <- E in L. apply dict_get_bnetIdDict in L.
    rewrite L. apply Nat.eqb_refl.
Qed.

Lemma mmr_after_max (d : dict) (n : nat) (teams : list Team) :
  forall cur,
    (cur <= mmr_after d n teams cur)%Z
    /\ (forall t, In t teams -> hits d n t = true ->
                  (team_rating t <= mmr_after d n teams cur)%Z)
    /\ (mmr_after d n teams cur = cur
        \/ exists t, In t teams /\ hits d n t = true
                     /\ team_rating t = mmr_after d n teams cur).
Proof.
  unfold mmr_after. induction teams as [| t ts IH]; intros cur.
  - simpl. split; [lia |]. split; [intros t [] | left; reflexivity].
  - cbn [fold_left]. destruct (hits d n t) eqn:Ht.
    + destruct (IH (Z.max cur (team_rating t))) as (A & B & C).
      split; [lia |]. split.
      * intros t' [<- | Hin] Ht'; [lia | apply (B t' Hin Ht')].
      * destruct C as [C | (t' & Hin & Ht' & C)].
        -- destruct (Z.max_spec cur (team_rating t)) as [[_ M] | [_ M]].
           ++ right. exists t. split; [left; reflexivity |].
              split; [exact Ht | congruence].
           ++ left. congruence.
        -- right. exists t'. split; [right; exact Hin | split; assumption].
    + destruct (IH cur) as (A & B & C).
      split; [exact A |]. split.
      * intros t' [<- | Hin] Ht'; [congruence | apply (B t' Hin Ht')].
      * destruct C as [C | (t' & Hin & Ht' & C)]; [left; exact C |].
        right. exists t'. split; [right; exact Hin | split; assumption].
Qed.

Lemma mmr_after_miss (d : dict) (n : nat) (teams : list Team) (cur : Z) :
  (forall t, In t teams -> hits d n t = false) ->
  mmr_after d n teams cur = cur.
Proof.
  intros No. destruct (mmr_after_max d n teams cur)
    as (_ & _ & [E | (t & Hin & Ht & _)]); [exact E |].
  rewrite (No t Hin) in Ht. discriminate.
Qed.

Lemma scan_team_none (d : dict) (t : Team) (cur : list Player) (n : nat) :
  nth_error cur n = None -> nth_error (scan_team d cur t) n = None.
Proof.
  intros H. unfold scan_team.
  destruct (dict_get d (team_id t)) as [m |]; [| exact H].
  destruct (nth_error cur m) as [pm |]; [| exact H].
  destruct (mmr pm <? team_rating t)%Z; [| exact H].
  rewrite nth_error_update, H. destruct (n =? m)%nat; reflexivity.
Qed.

Lemma scan_teams_none (d : dict) (teams : list Team) :
  forall cur n,
    nth_error cur n = None ->
    nth_error (fold_left (scan_team d) teams cur) n = None.
Proof.
  induction teams as [| t ts IH]; intros cur n H; [exact H |].
  cbn [fold_left]. apply IH, scan_team_none, H.
Qed.

(** Every place of the list after the scan, by the place before it. *)
Lemma scan_teams_places (d : dict) (teams : list Team) (cur : list Player)
    (n : nat) :
  nth_error (fold_left (scan_team d) teams cur) n
  = option_map (fun p => set_mmr p (mmr_after d n teams (mmr p)))
               (nth_error cur n).
Proof.
  destruct (nth_error cur n) as [p |] eqn:H.
  - apply scan_teams_nth, H.
  - apply scan_teams_none, H.
Qed.

Lemma mmr_after_highest (pl : list Player) (n : nat) (p : Player)
    (teams : list Team) :
  nth_error pl n = Some p ->
  is_last (fun q => bnet q = bnet p) pl n ->
  forall cur, mmr_after (bnetIdDict pl) n teams cur
              = highest (bnet p) teams cur.
Proof.
  intros H L. unfold mmr_after, highest.
  induction teams as [| t ts IH]; intros cur; [reflexivity |].
  cbn [fold_left]. rewrite <- IH. f_equal.
  destruct (String.eqb_spec (team_id t) (bnet p)) as [E | N].
  - rewrite (proj2 (hits_bnetIdDict pl n p t H) (conj E L)). reflexivity.
  - destruct (hits (bnetIdDict pl) n t) eqn:Ht; [| reflexivity].
    apply (hits_bnetIdDict pl n p t H) in Ht. destruct Ht. contradiction.
Qed.

(** X14.  [setMMRs] gives a player the highest rating seen: the record that
    is the last of the list with its Battle.net id ends with the maximum of
    its old MMR and the ratings of all teams, of every ladder scanned, that
    carry this id, so its MMR never goes down and stays put when no team
    carries the id.  A record with a later namesake in id is never
    touched.  Nothing but the MMR of a record changes. *)
Theorem setMMRs_keeps_the_highest_rating (gm : list Team)
    (masters : list (list Team)) (playerList : list Player) (n : nat)
    (p : Player) :
  nth_error playerList n = Some p ->
  let teams := gm ++ List.concat masters in
  exists q,
    nth_error (setMMRs gm masters playerList) n = Some q
    /\ q = set_mmr p (mmr q)
    /\ (mmr p <= mmr q)%Z
    /\ (is_last (fun r => bnet r = bnet p) playerList n ->
        mmr q = highest (bnet p) teams (mmr p)
        /\ (forall t, In t teams -> team_id t = bnet p ->
                      (team_rating t <= mmr q)%Z)
        /\ (mmr q = mmr p
            \/ exists t, In t teams /\ team_id t = bnet p
                         /\ team_rating t = mmr q))
    /\ (~ is_last (fun r => bnet r = bnet p) playerList n -> q = p).
Proof.
  intros H teams.
  pose (d := bnetIdDict playerList).
  exists (set_mmr p (mmr_after d n teams (mmr p))).
  destruct (mmr_after_max d n teams (mmr p)) as (A & B & C).
  split; [apply setMMRs_nth, H |]. split; [reflexivity |].
  split; [exact A |]. cbn [mmr set_mmr]. split.
  - intros L. split; [apply mmr_after_highest; assumption |]. split.
    + intros t Hin E. apply (B t Hin).
      apply (hits_bnetIdDict playerList n p t H). split; assumption.
    + destruct C as [C | (t & Hin & Ht & C)]; [left; exact C |].
      right. exists t. split; [exact Hin |]. split; [| exact C].
      apply (hits_bnetIdDict playerList n p t H) in Ht. apply Ht.
  - intros NL. rewrite mmr_after_miss; [apply set_mmr_same |].
    intros t _. destruct (hits d n t) eqn:Ht; [| reflexivity].
    apply (hits_bnetIdDict playerList n p t H) in Ht.
    destruct Ht as [_ L]. contradiction.
Qed.

(** X14, at Foo (id 100) with a Grandmaster team rated 5000 and a Master
    team rated 4500. *)
Lemma setMMRs_keeps_the_highest_rating_witness :
  exists q,
    nth_error (setMMRs [mkTeam "100" 5000]
                       [[mkTeam "200" 4000; mkTeam "100" 4500]]
                       roster_foo_bar) 0 = Some q
    /\ (1 <= mmr q)%Z.
Proof.
  destruct (setMMRs_keeps_the_highest_rating
              [mkTeam "100" 5000] [[mkTeam "200" 4000; mkTeam "100" 4500]]
              roster_foo_bar 0 (newPlayer "Foo" "1" "100" 2000.0) eq_refl)
    as (q & Hq & _ & Hm & _).
  exists q. split; [exact Hq | exact Hm].
Defined.

Lemma mmr_after_perm (d : dict) (n : nat) (teams teams' : list Team) :
  Permutation teams teams' ->
  forall cur, mmr_after d n teams cur = mmr_after d n teams' cur.
Proof.
  unfold mmr_after.
  induction 1 as [| t l l' _ IH | t u l | l l' l'' _ IH1 _ IH2]; intros cur.
  - reflexivity.
  - cbn [fold_left]. apply IH.
  - cbn [fold_left]. f_equal.
    destruct (hits d n t), (hits d n u); try reflexivity. lia.
  - rewrite IH1. apply IH2.
Qed.

(** X15.  Only the set of teams counts for [setMMRs]: in which ladder a
    team is listed, and where, has no bearing on the outcome. *)
Theorem setMMRs_ignores_the_order_of_teams (gm gm' : list Team)
    (masters masters' : list (list Team)) (playerList : list Player) :
  Permutation (gm ++ List.concat masters) (gm' ++ List.concat masters') ->
  setMMRs gm masters playerList = setMMRs gm' masters' playerList.
Proof.
  intros P. rewrite !setMMRs_flat. apply nth_error_ext. intros n.
  rewrite !scan_teams_places.
  destruct (nth_error playerList n) as [p |]; [| reflexivity].
  simpl. rewrite (mmr_after_perm _ n _ _ P). reflexivity.
Qed.

(** X15, with the teams of one Master division moved to the Grandmaster
    list and reversed. *)
Lemma setMMRs_ignores_the_order_of_teams_witness :
  setMMRs [mkTeam "100" 5000] [[mkTeam "200" 4000; mkTeam "100" 4500]]
          roster_foo_bar
  = setMMRs [mkTeam "100" 4500; mkTeam "200" 4000; mkTeam "100" 5000] []
            roster_foo_bar.
Proof.
  apply setMMRs_ignores_the_order_of_teams. simpl.
  apply Permutation_sym.
  apply (perm_trans (l' := [mkTeam "100" 4500; mkTeam "100" 5000;
                            mkTeam "200" 4000])).
  - apply perm_skip, perm_swap.
  - apply (perm_trans (l' := [mkTeam "100" 5000; mkTeam "100" 4500;
                              mkTeam "200" 4000])).
    + apply perm_swap.
    + apply perm_skip, perm_swap.
Defined.

Lemma bnetIdDict_from_bnets (l l' : list Player) :
  map bnet l = map bnet l' ->
  forall i d, bnetIdDict_from i l d = bnetIdDict_from i l' d.
Proof.
  revert l'. induction l as [| p l IH]; intros [| q l'] E i d;
    try discriminate; [reflexivity |].
  simpl in E. inversion E as [[E1 E2]]. cbn [bnetIdDict_from].
  rewrite E1. apply IH, E2.
Qed.

Lemma setMMRs_bnets (gm : list Team) (masters : list (list Team))
    (pl : list Player) :
  map bnet (setMMRs gm masters pl) = map bnet pl.
Proof.
  apply nth_error_ext. intros n. rewrite !nth_error_map, setMMRs_flat.
  rewrite scan_teams_places. destruct (nth_error pl n); reflexivity.
Qed.

Lemma mmr_after_twice (d : dict) (n : nat) (teams : list Team) (cur : Z) :
  mmr_after d n teams (mmr_after d n teams cur) = mmr_after d n teams cur.
Proof.
  destruct (mmr_after_max d n teams cur) as (_ & B & _).
  destruct (mmr_after_max d n teams (mmr_after d n teams cur))
    as (A' & _ & [C' | (t & Hin & Ht & C')]); [exact C' |].
  specialize (B t Hin Ht). lia.
Qed.

(** X16.  Running [setMMRs] again on the same answers changes nothing:
    every rating it could raise is already as high as the teams allow. *)
Theorem setMMRs_twice_is_once (gm : list Team) (masters : list (list Team))
    (playerList : list Player) :
  setMMRs gm masters (setMMRs gm masters playerList)
  = setMMRs gm masters playerList.
Proof.
  assert (D : bnetIdDict (setMMRs gm masters playerList)
              = bnetIdDict playerList).
  { unfold bnetIdDict. apply bnetIdDict_from_bnets, setMMRs_bnets. }
  rewrite (setMMRs_flat gm masters (setMMRs gm masters playerList)), D.
  rewrite setMMRs_flat. apply nth_error_ext. intros n.
  rewrite !scan_teams_places.
  destruct (nth_error playerList n) as [p |]; [| reflexivity].
  simpl. f_equal. unfold set_mmr at 1.
  cbn [name alig bnet elo aligRating mmr sr].
  rewrite mmr_after_twice. reflexivity.
Qed.

(** ** The player file as text *)

Lemma string_of_list_ascii_app (l l' : list ascii) :
  string_of_list_ascii (l ++ l')
  = (string_of_list_ascii l ++ string_of_list_ascii l')%string.
Proof.
  induction l as [| c l IH]; [reflexivity |]. simpl. rewrite IH. reflexivity.
Qed.

Lemma string_of_rev_rev (s : string) (acc : list ascii) :
  string_of_list_ascii (rev (rev (list_ascii_of_string s) ++ acc))
  = (string_of_list_ascii (rev acc) ++ s)%string.
Proof.
  rewrite rev_app_distr, rev_involutive, string_of_list_ascii_app.
  rewrite string_of_list_ascii_of_string. reflexivity.
Qed.

Lemma no_space_cons (c : ascii) (s : string) :
  no_space (String c s) = true -> is_space c = false /\ no_space s = true.
Proof.
  unfold no_space. simpl. intros H. apply andb_true_iff in H.
  destruct H as [H1 H2]. apply negb_true_iff in H1. split; assumption.
Qed.

Lemma is_word_no_space (s : string) : is_word s = true -> no_space s = true.
Proof. destruct s; [discriminate | intros H; exact H]. Qed.

(** A run of characters that are no white space goes whole into the word
    being read. *)
Lemma split_from_run (w : string) :
  no_space w = true ->
  forall acc rest,
    split_from acc (w ++ rest)
    = split_from (rev (list_ascii_of_string w) ++ acc) rest.
Proof.
  induction w as [| c w IH]; intros N acc rest; [reflexivity |].
  apply no_space_cons in N. destruct N as [Nc Nw].
  cbn [append split_from]. rewrite Nc, (IH Nw). cbn [list_ascii_of_string rev].
  rewrite <- app_assoc. reflexivity.
Qed.

(** A word followed by white space is the first word of the split. *)
Lemma split_word_then_space (w : string) (c : ascii) (rest : string) :
  is_word w = true -> is_space c = true ->
  split (w ++ String c rest) = w :: split rest.
Proof.
  intros W C. unfold split.
  rewrite (split_from_run w (is_word_no_space w W)). cbn [split_from].
  rewrite C, app_nil_r.
  destruct w as [| a w]; [discriminate |].
  destruct (rev (list_ascii_of_string (String a w))) as [| x l] eqn:E.
  - apply (f_equal (@List.length ascii)) in E. rewrite length_rev in E.
    discriminate.
  - rewrite <- E, rev_involutive, string_of_list_ascii_of_string.
    reflexivity.
Qed.

Lemma split_line_text (n a b e : string) :
  is_word n = true -> is_word a = true -> is_word b = true ->
  is_word e = true ->
  split (n ++ " " ++ a ++ " " ++ b ++ " " ++ e ++ newline) = [n; a; b; e].
Proof.
  intros Wn Wa Wb We.
  change (" " ++ a ++ " " ++ b ++ " " ++ e ++ newline)%string
    with (String " " (a ++ " " ++ b ++ " " ++ e ++ newline))%string.
  rewrite (split_word_then_space n) by (assumption || reflexivity).
  change (" " ++ b ++ " " ++ e ++ newline)%string
    with (String " " (b ++ " " ++ e ++ newline))%string.
  rewrite (split_word_then_space a) by (assumption || reflexivity).
  change (" " ++ e ++ newline)%string with (String " " (e ++ newline))%string.
  rewrite (split_word_then_space b) by (assumption || reflexivity).
  unfold newline.
  rewrite (split_word_then_space e LF EmptyString)
    by (assumption || reflexivity).
  reflexivity.
Qed.

Lemma no_break_cons (c : ascii) (s : string) :
  no_break (String c s) = true ->
  Ascii.eqb c LF = false /\ Ascii.eqb c CR = false /\ no_break s = true.
Proof.
  unfold no_break. simpl. intros H. apply andb_true_iff in H.
  destruct H as [H1 H2]. apply andb_true_iff in H1. destruct H1 as [A B].
  apply negb_true_iff in A, B. repeat split; assumption.
Qed.

Lemma no_break_app (s t : string) :
  no_break s = true -> no_break t = true -> no_break (s ++ t) = true.
Proof.
  intros S T. induction s as [| c s IH]; [exact T |].
  apply no_break_cons in S. destruct S as (A & B & S).
  unfold no_break in *. simpl. rewrite A, B. simpl. apply IH, S.
Qed.

Lemma space_of_break (c : ascii) :
  is_space c = false -> Ascii.eqb c LF = false /\ Ascii.eqb c CR = false.
Proof.
  intros N. split.
  - destruct (Ascii.eqb_spec c LF) as [-> | ?]; [discriminate | reflexivity].
  - destruct (Ascii.eqb_spec c CR) as [-> | ?]; [discriminate | reflexivity].
Qed.

Lemma no_space_no_break (s : string) : no_space s = true -> no_break s = true.
Proof.
  induction s as [| c s IH]; intros N; [reflexivity |].
  apply no_space_cons in N. destruct N as [Nc Ns].
  destruct (space_of_break c Nc) as [A B].
  unfold no_break in *. simpl. rewrite A, B. simpl. apply IH, Ns.
Qed.

Lemma file_lines_from_run (s : string) :
  no_break s = true ->
  forall acc rest,
    file_lines_from acc (s ++ rest)
    = file_lines_from (rev (list_ascii_of_string s) ++ acc) rest.
Proof.
  induction s as [| c s IH]; intros N acc rest; [reflexivity |].
  apply no_break_cons in N. destruct N as (A & B & N).
  cbn [append file_lines_from]. rewrite A, B, (IH N).
  cbn [list_ascii_of_string rev]. rewrite <- app_assoc. reflexivity.
Qed.

(** A run without a line break, closed by "\n", is the first line. *)
Lemma file_lines_first (body rest : string) :
  no_break body = true ->
  file_lines ((body ++ newline) ++ rest)
  = (body ++ newline)%string :: file_lines rest.
Proof.
  intros N. unfold file_lines. rewrite append_assoc.
  rewrite (file_lines_from_run body N). unfold newline.
  cbn [append file_lines_from]. rewrite Ascii.eqb_refl, app_nil_r.
  f_equal. cbn [rev]. rewrite rev_involutive, string_of_list_ascii_app.
  rewrite string_of_list_ascii_of_string. reflexivity.
Qed.

Section TextRoundTrip.

Variable str_float : R -> string.
Variable float_str : string -> option R.

Lemma line_text_body (p : Player) :
  line_text str_float p
  = ((name p ++ " " ++ alig p ++ " " ++ bnet p ++ " " ++ str_float (elo p))
     ++ newline)%string.
Proof. unfold line_text. rewrite !append_assoc. reflexivity. Qed.

Lemma writable_body (p : Player) :
  writable str_float float_str p ->
  no_break (name p ++ " " ++ alig p ++ " " ++ bnet p ++ " "
            ++ str_float (elo p)) = true.
Proof.
  intros (Wn & Wa & Wb & We & _).
  repeat (apply no_break_app;
          [first [ reflexivity | apply no_space_no_break, is_word_no_space;
                                 assumption ] |]).
  apply no_space_no_break, is_word_no_space, We.
Qed.

Lemma file_lines_saved (pl : list Player) :
  Forall (writable str_float float_str) pl ->
  file_lines (savePlayersToFile_text str_float pl)
  = map (line_text str_float) pl.
Proof.
  induction 1 as [| p pl W _ IH]; [reflexivity |].
  cbn [savePlayersToFile_text fold_right map]. rewrite line_text_body.
  rewrite (file_lines_first _ _ (writable_body p W)). f_equal. exact IH.
Qed.

Lemma player_of_line_text (p : Player) :
  writable str_float float_str p ->
  player_of_line float_str (line_text str_float p)
  = Loaded (newPlayer (name p) (alig p) (bnet p) (elo p)).
Proof.
  intros (Wn & Wa & Wb & We & F). unfold player_of_line, line_text.
  rewrite (split_line_text _ _ _ _ Wn Wa Wb We), F. reflexivity.
Qed.

Lemma load_lines_short (lines : list string) (line : string) :
  In line lines -> (List.length (split line) < 4)%nat ->
  forall pl, load_lines float_str lines <> Loaded pl.
Proof.
  induction lines as [| l lines IH]; intros Hin S pl; [destruct Hin |].
  destruct Hin as [<- | Hin].
  - cbn [load_lines]. unfold player_of_line.
    destruct (split l) as [| n [| a [| b [| e rest]]]];
      try discriminate. simpl in S. lia.
  - cbn [load_lines]. destruct (player_of_line float_str l);
      try discriminate.
    specialize (IH Hin S).
    destruct (load_lines float_str lines) as [l' | |]; try discriminate.
    exfalso. apply (IH l'). reflexivity.
Qed.

End TextRoundTrip.

(** X17.  Saving and loading give the players back.  For a roster whose
    names, Aligulac ids, Battle.net ids and Elo texts are words (not empty,
    no white space) and whose Elo texts read back as the Elos, the saved
    text has one line per player, and loading it gives the same players in
    the same order with the same name, ids and Elo; the Aligulac rating and
    the MMR of each are back at 1 and the composite at 0, as for any player
    fresh from a file. *)
Theorem save_then_load_gives_the_players_back (str_float : R -> string)
    (float_str : string -> option R) (playerList : list Player) :
  Forall (writable str_float float_str) playerList ->
  file_lines (savePlayersToFile_text str_float playerList)
  = map (line_text str_float) playerList
  /\ getPlayerList_text float_str (savePlayersToFile_text str_float playerList)
     = Loaded (map (fun p => newPlayer (name p) (alig p) (bnet p) (elo p))
                   playerList)
  /\ getPlayerList (savePlayersToFile playerList)
     = map (fun p => newPlayer (name p) (alig p) (bnet p) (elo p)) playerList.
Proof.
  intros W. split; [apply (file_lines_saved str_float float_str _ W) |].
  split.
  - unfold getPlayerList_text. rewrite (file_lines_saved _ _ _ W).
    induction W as [| p pl Wp _ IH]; [reflexivity |].
    cbn [map load_lines]. rewrite (player_of_line_text _ _ p Wp), IH.
    reflexivity.
  - unfold getPlayerList, savePlayersToFile. rewrite map_map. reflexivity.
Qed.

(** X17, on the roster of Foo and Bar, both at Elo 2000.0. *)
Lemma save_then_load_gives_the_players_back_witness :
  getPlayerList_text float_2000 (savePlayersToFile_text str_2000 roster_foo_bar)
  = Loaded roster_foo_bar.
Proof.
  apply (save_then_load_gives_the_players_back str_2000 float_2000
           roster_foo_bar).
  repeat constructor.
Defined.

(** X18.  What [getPlayerList] makes of a text.  It returns a list when
    every line has at least four words and the fourth of each reads as a
    float: then there is one player per line, in order, made of the first
    three words and that float, and words after the fourth are dropped.
    Otherwise the first bad line decides, the lines before it being good
    ones: IndexError when it has fewer than four words, ValueError when its
    fourth word is no float.  So a single short line anywhere, a blank one
    included, keeps the whole file from loading. *)
Theorem getPlayerList_reads_four_words_a_line
    (float_str : string -> option R) (text : string) :
  match getPlayerList_text float_str text with
  | Loaded playerList =>
      Forall2 (fun line p =>
                 exists n a b e more x,
                   split line = n :: a :: b :: e :: more
                   /\ float_str e = Some x /\ p = newPlayer n a b x)
              (file_lines text) playerList
  | LoadIndexError =>
      exists good bad rest,
        file_lines text = good ++ bad :: rest
        /\ Forall (fun line =>
                     exists n a b e more x,
                       split line = n :: a :: b :: e :: more
                       /\ float_str e = Some x) good
        /\ (List.length (split bad) < 4)%nat
  | LoadValueError =>
      exists good bad rest n a b e more,
        file_lines text = good ++ bad :: rest
        /\ Forall (fun line =>
                     exists n a b e more x,
                       split line = n :: a :: b :: e :: more
                       /\ float_str e = Some x) good
        /\ split bad = n :: a :: b :: e :: more /\ float_str e = None
  end
  /\ (forall line,
         In line (file_lines text) -> (List.length (split line) < 4)%nat ->
         forall playerList,
           getPlayerList_text float_str text <> Loaded playerList).
Proof.
  unfold getPlayerList_text. split; [| apply load_lines_short].
  induction (file_lines text) as [| l lines IH]; [constructor |].
  cbn [load_lines]. unfold player_of_line at 1.
  destruct (split l) as [| n [| a [| b [| e more]]]] eqn:S;
    try (exists [], l, lines; split; [reflexivity |];
         split; [constructor | rewrite S; simpl; lia]).
  destruct (float_str e) as [x |] eqn:F.
  - assert (G : exists n a b e more x,
                  split l = n :: a :: b :: e :: more /\ float_str e = Some x)
      by (exists n, a, b, e, more, x; split; assumption).
    destruct (load_lines float_str lines) as [pl | |].
    + constructor; [| exact IH]. exists n, a, b, e, more, x.
      repeat split; assumption.
    + destruct IH as (good & bad & rest & E & Hg & Hs).
      exists (l :: good), bad, rest. rewrite E.
      split; [reflexivity |]. split; [constructor; assumption | exact Hs].
    + destruct IH as (good & bad & rest & n' & a' & b' & e' & more' & E & Hg
                      & Hs & Hf).
      exists (l :: good), bad, rest, n', a', b', e', more'. rewrite E.
      split; [reflexivity |]. split; [constructor; assumption |].
      split; assumption.
  - exists [], l, lines, n, a, b, e, more.
    split; [reflexivity |]. split; [constructor |]. split; assumption.
Qed.

(** X19.  Nothing guards the words of a line.  A player whose name is two
    words (the other fields being words) is saved as a line of five words,
    and that line loads as another player: the second word of the name has
    become the Aligulac id, the Aligulac id the Battle.net id, and the
    Battle.net id is read as the Elo, or raises ValueError when it is no
    float; the Elo itself is dropped. *)
Theorem two_word_name_does_not_survive (str_float : R -> string)
    (float_str : string -> option R) (p : Player) (n1 n2 : string) :
  name p = (n1 ++ " " ++ n2)%string ->
  is_word n1 = true -> is_word n2 = true ->
  is_word (alig p) = true -> is_word (bnet p) = true ->
  is_word (str_float (elo p)) = true ->
  player_of_line float_str (line_text str_float p)
  = match float_str (bnet p) with
    | Some x => Loaded (newPlayer n1 n2 (alig p) x)
    | None => LoadValueError
    end.
Proof.
  intros N W1 W2 Wa Wb We. unfold player_of_line, line_text. rewrite N.
  rewrite append_assoc.
  change ((" " ++ n2) ++ " " ++ alig p ++ " " ++ bnet p ++ " "
          ++ str_float (elo p) ++ newline)%string
    with (String " " (n2 ++ " " ++ alig p ++ " " ++ bnet p ++ " "
                      ++ str_float (elo p) ++ newline))%string.
  rewrite (split_word_then_space n1) by (assumption || reflexivity).
  change (" " ++ alig p ++ " " ++ bnet p ++ " " ++ str_float (elo p)
          ++ newline)%string
    with (String " " (alig p ++ " " ++ bnet p ++ " " ++ str_float (elo p)
                      ++ newline))%string.
  rewrite (split_word_then_space n2) by (assumption || reflexivity).
  change (" " ++ bnet p ++ " " ++ str_float (elo p) ++ newline)%string
    with (String " " (bnet p ++ " " ++ str_float (elo p) ++ newline))%string.
  rewrite (split_word_then_space (alig p)) by (assumption || reflexivity).
  change (" " ++ str_float (elo p) ++ newline)%string
    with (String " " (str_float (elo p) ++ newline))%string.
  rewrite (split_word_then_space (bnet p)) by (assumption || reflexivity).
  reflexivity.
Qed.

(** X19, at a player named "Foo Bar" with Battle.net id "2000.0". *)
Lemma two_word_name_does_not_survive_witness :
  player_of_line float_2000
    (line_text str_2000 (newPlayer "Foo Bar" "1" "2000.0" 2000.0))
  = Loaded (newPlayer "Foo" "Bar" "1" 2000.0).
Proof.
  apply (two_word_name_does_not_survive str_2000 float_2000
           (newPlayer "Foo Bar" "1" "2000.0" 2000.0) "Foo" "Bar");
    reflexivity.
Defined.

Lemma setMMRs_fields (gm : list Team) (masters : list (list Team))
    (pl : list Player) :
  map elo (setMMRs gm masters pl) = map elo pl
  /\ map identity (setMMRs gm masters pl) = map identity pl
  /\ map aligRating (setMMRs gm masters pl) = map aligRating pl.
Proof.
  repeat split; apply nth_error_ext; intros n;
    rewrite !nth_error_map, setMMRs_flat, scan_teams_places;
    destruct (nth_error pl n); reflexivity.
Qed.

(** X20.  The two fetches leave what came from the file alone.  Whatever
    the two services answer, the list has afterwards the players of the
    file in the order of the file, each with its name, its two ids and its
    Elo; and [setMMRs] keeps the Aligulac ratings that were just stored. *)
Theorem fetches_keep_the_file_data (objects : list R) (gm : list Team)
    (masters : list (list Team)) (playerList : list Player) :
  let fetched := setMMRs gm masters (snd (setAligRatings objects playerList)) in
  map elo fetched = map elo playerList
  /\ map identity fetched = map identity playerList
  /\ map aligRating fetched
     = map aligRating (snd (setAligRatings objects playerList)).
Proof.
  intros fetched. subst fetched.
  destruct (setMMRs_fields gm masters (snd (setAligRatings objects playerList)))
    as (E & I & A).
  destruct (alig_loop_elo objects playerList 0) as [E' I'].
  unfold setAligRatings in *. rewrite E, I, A, E', I'. repeat split.
Qed.

(** * Part IV: the arithmetic in binary64

    Rounding to nearest never crosses a number of the format.  This is
    proved of [binary_round_aux], the rounding of Rocq's specification of
    IEEE 754, and carried to the primitive operations by the axioms that
    link them to the specification. *)

Import SpecFloat FloatAxioms.
Local Open Scope Z_scope.

(** ** Powers of two and the number of digits *)

Lemma digits2_pos_bounds (p : positive) :
  2 ^ (Zpos (digits2_pos p) - 1) <= Zpos p < 2 ^ Zpos (digits2_pos p).
Proof.
  induction p as [p IH | p IH |]; cbn [digits2_pos].
  - rewrite Pos2Z.inj_succ.
    replace (Z.succ (Zpos (digits2_pos p)) - 1) with (Z.succ (Zpos (digits2_pos p) - 1)) by lia.
    rewrite !Z.pow_succ_r by lia. lia.
  - rewrite Pos2Z.inj_succ.
    replace (Z.succ (Zpos (digits2_pos p)) - 1) with (Z.succ (Zpos (digits2_pos p) - 1)) by lia.
    rewrite !Z.pow_succ_r by lia. lia.
  - cbn. lia.
Qed.

Lemma pow2_pos (e : Z) : 0 <= e -> 0 < 2 ^ e.
Proof. intros H. apply Z.pow_pos_nonneg; lia. Qed.

Lemma pow2_le (a b : Z) : 0 <= a <= b -> 2 ^ a <= 2 ^ b.
Proof. intros H. apply Z.pow_le_mono_r; lia. Qed.

Lemma pow2_split (a b : Z) : 0 <= a -> 0 <= b -> 2 ^ (a + b) = 2 ^ a * 2 ^ b.
Proof. intros. apply Z.pow_add_r; lia. Qed.

Lemma digits_unique (m d : Z) :
  0 < d -> 2 ^ (d - 1) <= m < 2 ^ d -> Zdigits2 m = d.
Proof.
  intros Hd [Hlo Hhi].
  assert (0 < m) by (pose proof (pow2_pos (d - 1)); lia).
  destruct m as [| p | p]; try lia. cbn [Zdigits2].
  pose proof (digits2_pos_bounds p) as [Blo Bhi].
  set (k := Zpos (digits2_pos p)) in *.
  assert (0 < k) by (subst k; lia).
  destruct (Z.lt_trichotomy k d) as [Hlt | [Heq | Hgt]]; [| assumption |].
  - pose proof (pow2_le k (d - 1)). lia.
  - pose proof (pow2_le d (k - 1)). lia.
Qed.

Lemma digits_pos_bounds (m : Z) :
  0 < m -> 0 < Zdigits2 m /\ 2 ^ (Zdigits2 m - 1) <= m < 2 ^ Zdigits2 m.
Proof.
  intros H. destruct m as [| p | p]; try lia. cbn [Zdigits2].
  split; [lia | apply digits2_pos_bounds].
Qed.

(** ** Canonical mantissas and the order of the format *)

Lemma fexp_eq (e : Z) : fexp prec emax e = Z.max (e - 53) (-1074).
Proof. reflexivity. Qed.

Lemma canonical_inv (p : positive) (e : Z) :
  canonical_mantissa prec emax p e = true ->
  -1074 <= e /\ Zpos p < 2 ^ 53 /\ (-1074 < e -> 2 ^ 52 <= Zpos p).
Proof.
  unfold canonical_mantissa. rewrite Z.eqb_eq, fexp_eq. intros H.
  pose proof (digits2_pos_bounds p) as [Blo Bhi].
  set (d := Zpos (digits2_pos p)) in *.
  assert (Hd : 0 < d) by (subst d; lia).
  assert (Hd53 : d <= 53) by lia.
  repeat split.
  - lia.
  - pose proof (pow2_le d 53). lia.
  - intros He. assert (d = 53) by lia.
    replace (d - 1) with 52 in Blo by lia. exact Blo.
Qed.

Lemma canonical_intro (p : positive) (e : Z) :
  -1074 <= e -> Zpos p < 2 ^ 53 -> (-1074 < e -> 2 ^ 52 <= Zpos p) ->
  canonical_mantissa prec emax p e = true.
Proof.
  intros He Hhi Hlo. unfold canonical_mantissa. rewrite Z.eqb_eq, fexp_eq.
  pose proof (digits2_pos_bounds p) as [Blo Bhi].
  set (d := Zpos (digits2_pos p)) in *.
  assert (Hd : 0 < d) by (subst d; lia).
  assert (Hd53 : d <= 53).
  { destruct (Z_le_gt_dec d 53) as [|Hgt]; [assumption|].
    pose proof (pow2_le 53 (d - 1)). lia. }
  destruct (Z.eq_dec e (-1074)) as [-> | Hne]; [lia |].
  assert (d = 53).
  { destruct (Z.eq_dec d 53) as [|Hd']; [assumption|].
    pose proof (pow2_le d 52). lia. }
  lia.
Qed.

Lemma canonical_order (m1 m2 : positive) (e1 e2 : Z) :
  canonical_mantissa prec emax m1 e1 = true ->
  canonical_mantissa prec emax m2 e2 = true ->
  e1 < e2 ->
  Zpos m1 * 2 ^ (e1 + 1074) < Zpos m2 * 2 ^ (e2 + 1074).
Proof.
  intros C1 C2 H.
  apply canonical_inv in C1, C2.
  destruct C1 as (E1 & H1 & _), C2 as (E2 & _ & L2).
  specialize (L2 ltac:(lia)).
  pose proof (pow2_pos (e1 + 1074) ltac:(lia)) as P1.
  replace (e2 + 1074) with ((e1 + 1074) + (1 + (e2 - e1 - 1))) by lia.
  rewrite (pow2_split (e1 + 1074)) by lia.
  rewrite (pow2_split 1) by lia.
  pose proof (pow2_pos (e2 - e1 - 1) ltac:(lia)) as P2.
  change (2 ^ 1) with 2.
  change (2 ^ 53) with (2 * 2 ^ 52) in H1.
  set (P := 2 ^ (e1 + 1074)) in *. set (Q := 2 ^ (e2 - e1 - 1)) in *.
  set (T := 2 ^ 52) in *.
  assert (Zpos m1 * P < 2 * T * P) by (apply Z.mul_lt_mono_pos_r; lia).
  assert (2 * T * P <= Zpos m2 * (P * 2)) by nia.
  assert (Zpos m2 * (P * 2) <= Zpos m2 * (P * (2 * Q))) by nia.
  lia.
Qed.

Lemma SF2Z_pos (m : positive) (e : Z) :
  -1074 <= e -> 0 < Zpos m * 2 ^ (e + 1074).
Proof. intros H. pose proof (pow2_pos (e + 1074) ltac:(lia)). nia. Qed.

Lemma compare_finite_pos (m1 m2 : positive) (e1 e2 : Z) :
  canonical_mantissa prec emax m1 e1 = true ->
  canonical_mantissa prec emax m2 e2 = true ->
  match e1 ?= e2 with
  | Lt => Lt
  | Gt => Gt
  | Eq => Pos.compare_cont Eq m1 m2
  end = (Zpos m1 * 2 ^ (e1 + 1074) ?= Zpos m2 * 2 ^ (e2 + 1074)).
Proof.
  intros C1 C2. symmetry.
  destruct (Z.compare_spec e1 e2) as [-> | Hlt | Hgt].
  - pose proof (canonical_inv _ _ C2) as (E & _ & _).
    pose proof (pow2_pos (e2 + 1074) ltac:(lia)) as P.
    change (Pos.compare_cont Eq m1 m2) with (Zpos m1 ?= Zpos m2).
    destruct (Z.compare_spec (Zpos m1) (Zpos m2)) as [Heq | Hl | Hg].
    + rewrite Heq. apply Z.compare_refl.
    + apply Z.compare_lt_iff. nia.
    + apply Z.compare_gt_iff. nia.
  - apply Z.compare_lt_iff. now apply canonical_order.
  - apply Z.compare_gt_iff. now apply canonical_order.
Qed.

Lemma valid_finite (s : bool) (m : positive) (e : Z) :
  valid_binary (S754_finite s m e) = true ->
  canonical_mantissa prec emax m e = true /\ e <= 971.
Proof.
  cbn [SpecFloat.valid_binary]. unfold bounded. rewrite andb_true_iff, Z.leb_le.
  intros [H1 H2]. split; [assumption | exact H2].
Qed.

Lemma SFcompare_finite (x y : spec_float) :
  valid_binary x = true -> valid_binary y = true ->
  SFfinite x = true -> SFfinite y = true ->
  SFcompare x y = Some (SF2Z x ?= SF2Z y).
Proof.
  intros Vx Vy Fx Fy.
  destruct x as [sx | sx | | sx mx ex], y as [sy | sy | | sy my ey];
    try discriminate; cbn [SFcompare SF2Z].
  - reflexivity.
  - apply valid_finite in Vy as [Cy _].
    pose proof (canonical_inv _ _ Cy) as (E & _ & _).
    pose proof (SF2Z_pos my ey E).
    destruct sy; cbn [cond_Zopp]; f_equal; symmetry.
    + apply Z.compare_gt_iff. lia.
    + apply Z.compare_lt_iff. lia.
  - apply valid_finite in Vx as [Cx _].
    pose proof (canonical_inv _ _ Cx) as (E & _ & _).
    pose proof (SF2Z_pos mx ex E).
    destruct sx; cbn [cond_Zopp]; f_equal; symmetry.
    + apply Z.compare_lt_iff. lia.
    + apply Z.compare_gt_iff. lia.
  - apply valid_finite in Vx as [Cx _]. apply valid_finite in Vy as [Cy _].
    pose proof (canonical_inv _ _ Cx) as (Ex & _ & _).
    pose proof (canonical_inv _ _ Cy) as (Ey & _ & _).
    pose proof (SF2Z_pos mx ex Ex). pose proof (SF2Z_pos my ey Ey).
    destruct sx, sy; cbn [cond_Zopp]; f_equal.
    + rewrite Z.compare_opp.
      rewrite (Z.compare_antisym (Zpos mx * 2 ^ (ex + 1074))).
      rewrite <- (compare_finite_pos _ _ _ _ Cx Cy).
      destruct (ex ?= ey); reflexivity.
    + symmetry. apply Z.compare_lt_iff. lia.
    + symmetry. apply Z.compare_gt_iff. lia.
    + apply (compare_finite_pos _ _ _ _ Cx Cy).
Qed.

Lemma SFleb_finite (x y : spec_float) :
  valid_binary x = true -> valid_binary y = true ->
  SFfinite x = true -> SFfinite y = true ->
  SFleb x y = true <-> SF2Z x <= SF2Z y.
Proof.
  intros Vx Vy Fx Fy. unfold SFleb. rewrite (SFcompare_finite x y Vx Vy Fx Fy).
  destruct (Z.compare_spec (SF2Z x) (SF2Z y)); split; intros; try lia; try discriminate; reflexivity.
Qed.

(** ** Shifting right keeps the bracket *)

Lemma shr_1_brk (N D : Z) (mrs : shr_record) :
  brk N D mrs -> brk N (2 * D) (shr_1 mrs).
Proof.
  destruct mrs as [m r s]. unfold brk. cbn [shr_m shr_r shr_s].
  intros (HD & Hm & HN & Hx1 & Hx2).
  destruct m as [| [p | p |] |]; try lia; cbn [shr_1 shr_m shr_r shr_s];
    (split; [lia |]); (split; [lia |]); (split; [lia |]);
    destruct r, s; cbn [orb] in *; split; intros E;
    first [ discriminate E
          | reflexivity
          | specialize (Hx1 eq_refl); lia
          | exfalso; assert (E' : N = 0 * D) by lia; specialize (Hx2 E'); discriminate
          | exfalso; assert (E' : N = Zpos p~0 * D) by lia; specialize (Hx2 E'); discriminate
          | exfalso; lia ].
Qed.

Lemma iter_shr_1_brk (n : positive) :
  forall (N D : Z) (mrs : shr_record),
  brk N D mrs -> brk N (D * 2 ^ Zpos n) (iter_pos shr_1 n mrs).
Proof.
  induction n as [n IH | n IH |]; intros N D mrs H; cbn [iter_pos].
  - apply shr_1_brk in H. apply IH in H. apply IH in H.
    replace (D * 2 ^ Zpos n~1) with (2 * D * 2 ^ Zpos n * 2 ^ Zpos n); [exact H |].
    rewrite Pos2Z.inj_xI. rewrite pow2_split by lia.
    change (2 ^ 1) with 2. replace (2 * Zpos n) with (Zpos n + Zpos n) by lia.
    rewrite pow2_split by lia. ring.
  - apply IH in H. apply IH in H.
    replace (D * 2 ^ Zpos n~0) with (D * 2 ^ Zpos n * 2 ^ Zpos n); [exact H |].
    change (Zpos n~0) with (2 * Zpos n). replace (2 * Zpos n) with (Zpos n + Zpos n) by lia.
    rewrite pow2_split by lia. ring.
  - apply shr_1_brk in H. replace (D * 2 ^ 1) with (2 * D) by (change (2 ^ 1) with 2; ring).
    exact H.
Qed.

Lemma shr_brk (N D : Z) (mrs : shr_record) (e n : Z) :
  0 <= n -> brk N D mrs ->
  brk N (D * 2 ^ n) (fst (shr mrs e n)) /\ snd (shr mrs e n) = e + n.
Proof.
  intros Hn H. destruct n as [| p | p]; try lia; cbn [shr fst snd].
  - rewrite Z.mul_1_r. split; [exact H | lia].
  - split; [now apply iter_shr_1_brk | reflexivity].
Qed.

Lemma brk_of_loc (N D m : Z) (l : location) :
  brk_loc N D m l -> brk N D (shr_record_of_loc m l).
Proof.
  intros (HD & Hm & HN & Hx). unfold brk.
  destruct l as [| [| |]]; cbn [shr_record_of_loc shr_m shr_r shr_s orb];
    repeat split; try lia; try discriminate; intros; try tauto;
    try (exfalso; assert (E : @eq location loc_Exact loc_Exact) by reflexivity; tauto).
  all: try (apply Hx; reflexivity).
  all: try (apply Hx in H; discriminate).
Qed.

Lemma round_nearest_even_brk (N D : Z) (mrs : shr_record) :
  brk N D mrs ->
  let m1 := round_nearest_even (shr_m mrs) (loc_of_shr_record mrs) in
  shr_m mrs <= m1 <= shr_m mrs + 1 /\ (N = shr_m mrs * D -> m1 = shr_m mrs).
Proof.
  destruct mrs as [m r s]. unfold brk. cbn [shr_m shr_r shr_s].
  intros (HD & Hm & HN & Hx).
  destruct r, s; cbn [loc_of_shr_record round_nearest_even orb] in *;
    try (destruct (Z.even m)); split; try lia; intros E; apply Hx in E; discriminate.
Qed.

(** ** The two halves of [binary_round_aux] *)

Lemma binary_round_aux_pack (s : bool) (m e : Z) (l : location) :
  binary_round_aux prec emax s m e l =
  pack s (round_nearest_even (shr_m (fst (shr_fexp prec emax m e l)))
                             (loc_of_shr_record (fst (shr_fexp prec emax m e l))))
         (snd (shr_fexp prec emax m e l)).
Proof.
  unfold binary_round_aux, pack.
  destruct (shr_fexp prec emax m e l) as [mrs' e']. reflexivity.
Qed.

Lemma shr_fexp_noop (m e : Z) (l : location) :
  fexp prec emax (Zdigits2 m + e) - e <= 0 ->
  shr_fexp prec emax m e l = (shr_record_of_loc m l, e).
Proof.
  intros H. unfold shr_fexp, shr.
  destruct (fexp prec emax (Zdigits2 m + e) - e) as [| p | p]; try reflexivity. lia.
Qed.

Lemma pack_value (s : bool) (m1 e' : Z) :
  -1074 <= e' -> 0 <= m1 <= 2 ^ 53 -> (-1074 < e' -> 2 ^ 52 <= m1) ->
  (m1 = 0 /\ pack s m1 e' = S754_zero s) \/
  (0 < m1 /\ exists (p : positive) (e'' : Z),
     Zpos p * 2 ^ (e'' + 1074) = m1 * 2 ^ (e' + 1074) /\
     canonical_mantissa prec emax p e'' = true /\
     pack s m1 e' = if e'' <=? 971 then S754_finite s p e'' else S754_infinity s).
Proof.
  intros He Hm Hn.
  destruct (Z.eq_dec m1 0) as [-> | Hnz].
  { left. split; [reflexivity |]. unfold pack.
    rewrite shr_fexp_noop by (cbn [Zdigits2]; rewrite fexp_eq; lia). reflexivity. }
  right. split; [lia |].
  destruct (Z.eq_dec m1 (2 ^ 53)) as [-> | Hne].
  - exists (Z.to_pos (2 ^ 52)), (e' + 1). repeat split.
    + replace (e' + 1 + 1074) with (1 + (e' + 1074)) by lia.
      rewrite pow2_split by lia. change (2 ^ 53) with (2 ^ 52 * 2 ^ 1).
      change (Zpos (Z.to_pos (2 ^ 52))) with (2 ^ 52). ring.
    + apply canonical_intro; [lia | reflexivity | intros _; cbn; lia].
    + unfold pack, shr_fexp.
      replace (fexp prec emax (Zdigits2 (2 ^ 53) + e') - e') with 1
        by (change (Zdigits2 (2 ^ 53)) with 54; rewrite fexp_eq; lia).
      reflexivity.
  - destruct m1 as [| p | p]; try lia.
    assert (Hd : Zdigits2 (Zpos p) <= 53).
    { pose proof (digits_pos_bounds (Zpos p) ltac:(lia)) as (Hd0 & Hlo & Hhi).
      destruct (Z_le_gt_dec (Zdigits2 (Zpos p)) 53) as [|Hgt]; [assumption |].
      pose proof (pow2_le 53 (Zdigits2 (Zpos p) - 1)). lia. }
    exists p, e'. repeat split.
    + apply canonical_intro; [lia | lia | exact Hn].
    + unfold pack. rewrite shr_fexp_noop by (rewrite fexp_eq; lia).
      reflexivity.
Qed.

Lemma shr_fexp_brk (N D m e : Z) (l : location) :
  brk_loc N D m l -> e <= fexp prec emax (Zdigits2 m + e) ->
  snd (shr_fexp prec emax m e l) = fexp prec emax (Zdigits2 m + e) /\
  brk N (D * 2 ^ (fexp prec emax (Zdigits2 m + e) - e)) (fst (shr_fexp prec emax m e l)).
Proof.
  intros B He. unfold shr_fexp.
  destruct (shr_brk N D (shr_record_of_loc m l) e
              (fexp prec emax (Zdigits2 m + e) - e) ltac:(lia) (brk_of_loc _ _ _ _ B))
    as [H1 H2].
  split; [rewrite H2; lia | exact H1].
Qed.

(** What the first half of [binary_round_aux] yields: a mantissa [m1] at
    the exponent [e'] of the format that is the floor or the ceiling of
    the exact quotient N / D'. *)
Lemma binary_round_aux_core (s : bool) (N D m e : Z) (l : location) :
  brk_loc N D m l -> e <= fexp prec emax (Zdigits2 m + e) ->
  exists m1 e' : Z,
    e' = fexp prec emax (Zdigits2 m + e) /\
    0 < D * 2 ^ (e' - e) /\ 0 <= N /\
    (forall k, k * (D * 2 ^ (e' - e)) <= N -> k <= m1) /\
    (forall k, N <= k * (D * 2 ^ (e' - e)) -> m1 <= k) /\
    N < 2 ^ 53 * (D * 2 ^ (e' - e)) /\
    (-1074 < e' -> 2 ^ 52 * (D * 2 ^ (e' - e)) <= N) /\
    binary_round_aux prec emax s m e l = pack s m1 e'.
Proof.
  intros B He.
  destruct (shr_fexp_brk N D m e l B He) as [E1 B1].
  pose proof (round_nearest_even_brk _ _ _ B1) as [R1 R2]. cbn zeta in R1, R2.
  set (e' := fexp prec emax (Zdigits2 m + e)) in *.
  set (mrs := fst (shr_fexp prec emax m e l)) in *.
  set (m1 := round_nearest_even (shr_m mrs) (loc_of_shr_record mrs)) in *.
  set (D' := D * 2 ^ (e' - e)) in *.
  destruct B1 as (HD' & Hm' & HN' & Hx').
  destruct B as (HD & Hm & HN & Hx).
  pose proof (pow2_pos (e' - e) ltac:(lia)) as Pn.
  exists m1, e'. split; [reflexivity |]. split; [exact HD' |].
  split; [nia |].
  split; [intros k Hk; assert (k < shr_m mrs + 1) by nia; lia |].
  split.
  { intros k Hk.
    destruct (Z.eq_dec N (shr_m mrs * D')) as [Ex | Nex].
    - rewrite (R2 Ex). nia.
    - assert (shr_m mrs < k) by nia. lia. }
  split.
  { destruct (Z.eq_dec m 0) as [-> | Hnz].
    - assert (N < D) by lia.
      assert (D <= D') by (unfold D'; nia).
      assert (D' <= 2 ^ 53 * D') by (change (2 ^ 53) with 9007199254740992; lia).
      lia.
    - pose proof (digits_pos_bounds m ltac:(lia)) as (Hd0 & Hlo & Hhi).
      set (d := Zdigits2 m) in *.
      assert (Hn : d - 53 <= e' - e) by (unfold e'; rewrite fexp_eq; lia).
      assert (N < 2 ^ d * D) by nia.
      assert (2 ^ d <= 2 ^ 53 * 2 ^ (e' - e)).
      { rewrite <- pow2_split by lia. apply pow2_le. lia. }
      unfold D'. nia. }
  split.
  { intros He'.
    assert (Hd : e' = Zdigits2 m + e - 53) by (unfold e' in *; rewrite fexp_eq in *; lia).
    assert (Hnz : 0 < m).
    { destruct m as [| p | p]; try lia. cbn [Zdigits2] in Hd. lia. }
    pose proof (digits_pos_bounds m Hnz) as (Hd0 & Hlo & Hhi).
    set (d := Zdigits2 m) in *.
    assert (2 ^ 52 * 2 ^ (e' - e) = 2 ^ (d - 1)).
    { rewrite <- pow2_split by lia. f_equal. lia. }
    unfold D'. nia. }
  rewrite binary_round_aux_pack. fold mrs. fold m1. rewrite E1. reflexivity.
Qed.

Lemma bound_low (N D e e' m1 mc ec : Z) :
  0 < D -> -2148 <= e <= e' -> -1074 <= e' -> -1074 <= ec ->
  0 < mc < 2 ^ 53 -> 0 <= m1 ->
  (forall k, k * (D * 2 ^ (e' - e)) <= N -> k <= m1) ->
  (-1074 < e' -> 2 ^ 52 <= m1) ->
  mc * 2 ^ (ec + 1074) * 2 ^ 1074 * D <= N * 2 ^ (e + 2148) ->
  mc * 2 ^ (ec + 1074) <= m1 * 2 ^ (e' + 1074).
Proof.
  intros HD He He' Hec Hmc Hm1 Hk Hn H.
  pose proof (pow2_pos (e + 2148) ltac:(lia)) as Pa.
  pose proof (pow2_pos (e' - e) ltac:(lia)) as Pn.
  pose proof (pow2_pos (e' + 1074) ltac:(lia)) as Pe'.
  destruct (Z_le_gt_dec e' ec) as [Hle | Hgt].
  - pose proof (pow2_pos (ec - e') ltac:(lia)) as Pk.
    assert (E1 : 2 ^ (ec + 1074) * 2 ^ 1074 = 2 ^ (ec - e') * 2 ^ (e' - e) * 2 ^ (e + 2148)).
    { rewrite <- !pow2_split by lia. f_equal. lia. }
    assert (E2 : 2 ^ (ec + 1074) = 2 ^ (ec - e') * 2 ^ (e' + 1074)).
    { rewrite <- pow2_split by lia. f_equal. lia. }
    assert (Hk' : mc * 2 ^ (ec - e') <= m1).
    { apply Hk.
      apply (Z.mul_le_mono_pos_r _ _ (2 ^ (e + 2148)) Pa).
      replace (mc * 2 ^ (ec - e') * (D * 2 ^ (e' - e)) * 2 ^ (e + 2148))
        with (mc * (2 ^ (ec - e') * 2 ^ (e' - e) * 2 ^ (e + 2148)) * D) by ring.
      rewrite <- E1. rewrite Z.mul_assoc. exact H. }
    rewrite E2. rewrite Z.mul_assoc.
    apply Z.mul_le_mono_nonneg_r; lia.
  - specialize (Hn ltac:(lia)).
    assert (E : 2 ^ 53 * 2 ^ (ec + 1074) <= 2 ^ 52 * 2 ^ (e' + 1074)).
    { rewrite <- !pow2_split by lia. apply pow2_le. lia. }
    pose proof (pow2_pos (ec + 1074) ltac:(lia)) as Pc.
    assert (mc * 2 ^ (ec + 1074) <= 2 ^ 53 * 2 ^ (ec + 1074))
      by (apply Z.mul_le_mono_nonneg_r; lia).
    assert (2 ^ 52 * 2 ^ (e' + 1074) <= m1 * 2 ^ (e' + 1074))
      by (apply Z.mul_le_mono_nonneg_r; lia).
    lia.
Qed.

Lemma bound_high (N D e e' m1 mc ec : Z) :
  0 < D -> -2148 <= e <= e' -> -1074 <= e' -> -1074 <= ec ->
  0 < mc < 2 ^ 53 ->
  (forall k, N <= k * (D * 2 ^ (e' - e)) -> m1 <= k) ->
  (-1074 < e' -> 2 ^ 52 * (D * 2 ^ (e' - e)) <= N) ->
  N * 2 ^ (e + 2148) <= mc * 2 ^ (ec + 1074) * 2 ^ 1074 * D ->
  m1 * 2 ^ (e' + 1074) <= mc * 2 ^ (ec + 1074).
Proof.
  intros HD He He' Hec Hmc Hk Hn H.
  pose proof (pow2_pos (e + 2148) ltac:(lia)) as Pa.
  pose proof (pow2_pos (e' - e) ltac:(lia)) as Pn.
  pose proof (pow2_pos (e' + 1074) ltac:(lia)) as Pe'.
  destruct (Z_le_gt_dec e' ec) as [Hle | Hgt].
  - pose proof (pow2_pos (ec - e') ltac:(lia)) as Pk.
    assert (E1 : 2 ^ (ec + 1074) * 2 ^ 1074 = 2 ^ (ec - e') * 2 ^ (e' - e) * 2 ^ (e + 2148)).
    { rewrite <- !pow2_split by lia. f_equal. lia. }
    assert (E2 : 2 ^ (ec + 1074) = 2 ^ (ec - e') * 2 ^ (e' + 1074)).
    { rewrite <- pow2_split by lia. f_equal. lia. }
    assert (Hk' : m1 <= mc * 2 ^ (ec - e')).
    { apply Hk.
      apply (Z.mul_le_mono_pos_r _ _ (2 ^ (e + 2148)) Pa).
      replace (mc * 2 ^ (ec - e') * (D * 2 ^ (e' - e)) * 2 ^ (e + 2148))
        with (mc * (2 ^ (ec - e') * 2 ^ (e' - e) * 2 ^ (e + 2148)) * D) by ring.
      rewrite <- E1. rewrite Z.mul_assoc. exact H. }
    rewrite E2. rewrite Z.mul_assoc.
    apply Z.mul_le_mono_nonneg_r; lia.
  - exfalso. specialize (Hn ltac:(lia)).
    assert (E : 2 ^ 53 * (2 ^ (ec + 1074) * 2 ^ 1074) <= 2 ^ 52 * (2 ^ (e' - e) * 2 ^ (e + 2148))).
    { rewrite <- !pow2_split by lia. apply pow2_le. lia. }
    pose proof (pow2_pos (ec + 1074) ltac:(lia)) as Pc.
    pose proof (pow2_pos 1074 ltac:(lia)) as P1074.
    set (A := 2 ^ (e + 2148)) in *. set (Pn' := 2 ^ (e' - e)) in *.
    set (C := 2 ^ (ec + 1074) * 2 ^ 1074) in *.
    assert (0 < C) by (unfold C; nia).
    assert (H1 : 2 ^ 52 * (D * Pn') * A <= N * A) by (apply Z.mul_le_mono_nonneg_r; lia).
    assert (H2 : mc * 2 ^ (ec + 1074) * 2 ^ 1074 * D = mc * C * D) by (unfold C; ring).
    assert (H3 : mc * C * D < 2 ^ 53 * C * D).
    { apply Z.mul_lt_mono_pos_r; [lia |]. apply Z.mul_lt_mono_pos_r; lia. }
    assert (H4 : 2 ^ 53 * C * D <= 2 ^ 52 * (Pn' * A) * D).
    { apply Z.mul_le_mono_nonneg_r; lia. }
    replace (2 ^ 52 * (D * Pn') * A) with (2 ^ 52 * (Pn' * A) * D) in H1 by ring.
    lia.
Qed.

(** ** Rounding does not cross a number of the format *)

Lemma pack_opp (m1 e' : Z) : pack true m1 e' = SFopp (pack false m1 e').
Proof.
  unfold pack. destruct (shr_fexp prec emax m1 e' loc_Exact) as [mrs e''].
  destruct (shr_m mrs); try reflexivity.
  destruct (e'' <=? emax - prec); reflexivity.
Qed.

Lemma binary_round_aux_opp (m e : Z) (l : location) :
  binary_round_aux prec emax true m e l = SFopp (binary_round_aux prec emax false m e l).
Proof. rewrite !binary_round_aux_pack. apply pack_opp. Qed.

(** The rounding of a nonnegative exact value never crosses a number of
    the format.  The exact value is (N / D) * 2^e; values are compared in
    units of 2^-2148. *)
Theorem binary_round_aux_faithful (N D m e : Z) (l : location) :
  brk_loc N D m l -> e <= fexp prec emax (Zdigits2 m + e) -> -2148 <= e ->
  valid_binary (binary_round_aux prec emax false m e l) = true /\
  SFnonneg (binary_round_aux prec emax false m e l) = true /\
  forall c, valid_binary c = true -> SFfinite c = true ->
    (SF2Z c * 2 ^ 1074 * D <= N * 2 ^ (e + 2148) ->
     SFleb c (binary_round_aux prec emax false m e l) = true) /\
    (N * 2 ^ (e + 2148) <= SF2Z c * 2 ^ 1074 * D ->
     SFleb (binary_round_aux prec emax false m e l) c = true).
Proof.
  intros B He Hlow.
  destruct (binary_round_aux_core false N D m e l B He)
    as (m1 & e' & He' & HD' & HN & Klo & Khi & Htop & Hbot & ->).
  assert (Ee' : -1074 <= e' /\ e <= e') by (rewrite He'; rewrite fexp_eq in *; lia).
  destruct B as (HD & _ & _ & _).
  assert (Hm1 : 0 <= m1) by (apply Klo; lia).
  assert (Hm1' : m1 <= 2 ^ 53) by (apply Khi; lia).
  assert (Hm1'' : -1074 < e' -> 2 ^ 52 <= m1) by (intros H; apply Klo; auto).
  pose proof (pow2_pos (e + 2148) ltac:(lia)) as Pa.
  pose proof (pow2_pos 1074 ltac:(lia)) as P1074.
  assert (Hzero : N * 2 ^ (e + 2148) <= 0 -> m1 = 0).
  { intros H. assert (N = 0) by nia. assert (m1 <= 0) by (apply Khi; lia). lia. }
  assert (Hneg : forall mc ec, -1074 <= ec ->
            ~ N * 2 ^ (e + 2148) <= - (Zpos mc * 2 ^ (ec + 1074)) * 2 ^ 1074 * D).
  { intros mc ec Hec H. pose proof (SF2Z_pos mc ec Hec). nia. }
  destruct (pack_value false m1 e' ltac:(lia) ltac:(lia) Hm1'')
    as [[-> ->] | (Hpos & p & e'' & Hv & Hc & ->)].
  - split; [reflexivity |]. split; [reflexivity |].
    intros c Vc Fc. destruct c as [sc | sc | | sc mc ec]; try discriminate.
    + split; reflexivity.
    + apply valid_finite in Vc as [Cc Hec].
      pose proof (canonical_inv _ _ Cc) as (Ec & Hmc & _).
      cbn [SF2Z]. destruct sc; cbn [cond_Zopp]; split; intros H; try reflexivity.
      * exfalso. exact (Hneg _ _ Ec H).
      * exfalso.
        pose proof (bound_low N D e e' 0 (Zpos mc) ec HD ltac:(lia) ltac:(lia) Ec
                      ltac:(lia) ltac:(lia) Klo Hm1'' H).
        pose proof (SF2Z_pos mc ec Ec) as Pmc. lia.
  - pose proof (canonical_inv _ _ Hc) as (Ee'' & Hp & Hp').
    destruct (Z.leb_spec e'' 971) as [Hfin | Hinf].
    + assert (Vr : valid_binary (S754_finite false p e'') = true).
      { cbn [SpecFloat.valid_binary]. unfold bounded. rewrite Hc.
        apply Z.leb_le. exact Hfin. }
      split; [exact Vr |]. split; [reflexivity |].
      intros c Vc Fc.
      rewrite !(SFleb_finite _ _) by (assumption || reflexivity).
      cbn [SF2Z cond_Zopp] . rewrite Hv.
      pose proof (pow2_pos (e' + 1074) ltac:(lia)) as Pe'.
      destruct c as [sc | sc | | sc mc ec]; try discriminate; cbn [SF2Z].
      * split; intros H; [nia |]. rewrite (Hzero ltac:(lia)) in Hpos. lia.
      * apply valid_finite in Vc as [Cc Hec].
        pose proof (canonical_inv _ _ Cc) as (Ec & Hmc & _).
        pose proof (SF2Z_pos mc ec Ec) as Pmc.
        destruct sc; cbn [cond_Zopp]; split; intros H.
        -- nia.
        -- exfalso. exact (Hneg _ _ Ec H).
        -- apply (bound_low N D e e' m1 (Zpos mc) ec); auto; lia.
        -- apply (bound_high N D e e' m1 (Zpos mc) ec); auto; lia.
    + split; [reflexivity |]. split; [reflexivity |].
      intros c Vc Fc.
      destruct c as [sc | sc | | sc mc ec]; try discriminate.
      * split; intros H; [destruct sc; reflexivity |].
        rewrite (Hzero ltac:(cbn [SF2Z] in H; lia)) in Hpos. lia.
      * apply valid_finite in Vc as [Cc Hec].
        pose proof (canonical_inv _ _ Cc) as (Ec & Hmc & _).
        pose proof (SF2Z_pos mc ec Ec) as Pmc.
        cbn [SF2Z]. destruct sc; cbn [cond_Zopp]; split; intros H; try reflexivity.
        -- exfalso. exact (Hneg _ _ Ec H).
        -- exfalso.
           pose proof (bound_high N D e e' m1 (Zpos mc) ec HD ltac:(lia) ltac:(lia) Ec
                         ltac:(lia) Khi Hbot H) as Hb.
           rewrite <- Hv in Hb. specialize (Hp' ltac:(lia)).
           assert (E : 2 ^ 53 * 2 ^ (ec + 1074) <= 2 ^ 52 * 2 ^ (e'' + 1074)).
           { rewrite <- !pow2_split by lia. apply pow2_le. lia. }
           pose proof (pow2_pos (ec + 1074) ltac:(lia)) as Pc.
           pose proof (pow2_pos (e'' + 1074) ltac:(lia)) as Pe''.
           assert (Zpos mc * 2 ^ (ec + 1074) < 2 ^ 53 * 2 ^ (ec + 1074))
             by (apply Z.mul_lt_mono_pos_r; lia).
           assert (2 ^ 52 * 2 ^ (e'' + 1074) <= Zpos p * 2 ^ (e'' + 1074))
             by (apply Z.mul_le_mono_nonneg_r; lia).
           lia.
Qed.

(** ** Addition and subtraction *)

Lemma iter_xO (d m : positive) : Zpos (Pos.iter xO m d) = Zpos m * 2 ^ Zpos d.
Proof.
  induction d as [| d IH] using Pos.peano_ind.
  - cbn [Pos.iter]. change (2 ^ 1) with 2. lia.
  - rewrite Pos.iter_succ. rewrite Pos2Z.inj_succ, Z.pow_succ_r by lia.
    change (Zpos (Pos.iter xO m d)~0) with (2 * Zpos (Pos.iter xO m d)).
    rewrite IH. ring.
Qed.

Lemma shl_align_spec (mx : positive) (ex ex' : Z) :
  snd (shl_align mx ex ex') = Z.min ex ex' /\
  Zpos (fst (shl_align mx ex ex')) = Zpos mx * 2 ^ (ex - Z.min ex ex').
Proof.
  unfold shl_align. destruct (ex' - ex) as [| d | d] eqn:E; cbn [fst snd].
  - replace (Z.min ex ex') with ex by lia. rewrite Z.sub_diag. cbn. lia.
  - replace (Z.min ex ex') with ex by lia. rewrite Z.sub_diag. cbn. lia.
  - replace (Z.min ex ex') with ex' by lia. split; [reflexivity |].
    rewrite iter_xO. f_equal. f_equal. lia.
Qed.

Lemma digits_shift (m n : Z) : 0 < m -> 0 <= n -> Zdigits2 (m * 2 ^ n) = Zdigits2 m + n.
Proof.
  intros Hm Hn. pose proof (digits_pos_bounds m Hm) as (Hd & Hlo & Hhi).
  pose proof (pow2_pos n Hn) as Pn.
  apply digits_unique; [lia |].
  replace (Zdigits2 m + n - 1) with (Zdigits2 m - 1 + n) by lia.
  rewrite !pow2_split by lia. nia.
Qed.

Lemma SFnonneg_not_nan (x : spec_float) : SFnonneg x = true -> SFnan x = false.
Proof. destruct x as [[|] | [|] | | [|] m e]; intros H; try discriminate; reflexivity. Qed.

Lemma SFleb_opp (x y : spec_float) : SFleb (SFopp x) (SFopp y) = SFleb y x.
Proof.
  unfold SFleb.
  destruct x as [[|] | [|] | | [|] mx ex], y as [[|] | [|] | | [|] my ey];
    try reflexivity; cbn [SFopp SFcompare negb];
    change (Pos.compare_cont Eq my mx) with (Pos.compare my mx);
    change (Pos.compare_cont Eq mx my) with (Pos.compare mx my);
    rewrite (Pos.compare_antisym mx my);
    destruct (Z.compare_spec ex ey), (Z.compare_spec ey ex); try lia; try reflexivity;
    destruct (Pos.compare mx my); reflexivity.
Qed.

Lemma SFopp_involutive (x : spec_float) : SFopp (SFopp x) = x.
Proof. destruct x as [[|] | [|] | | [|] m e]; reflexivity. Qed.

Lemma SF2Z_opp (x : spec_float) : SF2Z (SFopp x) = - SF2Z x.
Proof. destruct x as [[|] | [|] | | [|] m e]; cbn [SFopp SF2Z cond_Zopp negb]; lia. Qed.

Lemma valid_opp (x : spec_float) : valid_binary (SFopp x) = valid_binary x.
Proof. destruct x as [[|] | [|] | | [|] m e]; reflexivity. Qed.

Lemma SFfinite_opp (x : spec_float) : SFfinite (SFopp x) = SFfinite x.
Proof. destruct x as [[|] | [|] | | [|] m e]; reflexivity. Qed.

Lemma SFnan_opp (x : spec_float) : SFnan (SFopp x) = SFnan x.
Proof. destruct x as [[|] | [|] | | [|] m e]; reflexivity. Qed.

Lemma faithful_opp (V W : Z) (r : spec_float) :
  faithful V W r -> faithful (- V) W (SFopp r).
Proof.
  intros (Vr & Nr & H). split; [now rewrite valid_opp |]. split; [now rewrite SFnan_opp |].
  intros c Vc Fc.
  destruct (H (SFopp c)) as [H1 H2]; [now rewrite valid_opp | now rewrite SFfinite_opp |].
  rewrite SF2Z_opp in H1, H2.
  split; intros Hc.
  - replace (SFleb c (SFopp r)) with (SFleb r (SFopp c))
      by (rewrite <- (SFleb_opp (SFopp c) r), SFopp_involutive; reflexivity).
    apply H2. lia.
  - replace (SFleb (SFopp r) c) with (SFleb (SFopp c) r)
      by (rewrite <- (SFleb_opp r (SFopp c)), SFopp_involutive; reflexivity).
    apply H1. lia.
Qed.

Lemma faithful_scale (V W k : Z) (r : spec_float) :
  0 < k -> faithful (V * k) (W * k) r -> faithful V W r.
Proof.
  intros Hk (Vr & Nr & H). split; [assumption |]. split; [assumption |].
  intros c Vc Fc. destruct (H c Vc Fc) as [H1 H2].
  split; intros Hc; [apply H1 | apply H2]; nia.
Qed.

Lemma faithful_ext (V V' W W' : Z) (r : spec_float) :
  V = V' -> W = W' -> faithful V W r -> faithful V' W' r.
Proof. intros -> ->. auto. Qed.

Lemma faithful_exact (x : spec_float) :
  valid_binary x = true -> SFfinite x = true -> faithful (SF2Z x) 1 x.
Proof.
  intros Vx Fx. split; [assumption |]. split; [destruct x; try discriminate; reflexivity |].
  intros c Vc Fc. rewrite !SFleb_finite by assumption. lia.
Qed.

Lemma binary_round_faithful (mx : positive) (ex : Z) :
  -2148 <= ex ->
  faithful (Zpos mx * 2 ^ (ex + 2148)) (2 ^ 1074) (binary_round prec emax false mx ex) /\
  SFnonneg (binary_round prec emax false mx ex) = true.
Proof.
  intros He. unfold binary_round.
  pose proof (shl_align_spec mx ex (fexp prec emax (Zpos (digits2_pos mx) + ex))) as [S1 S2].
  destruct (shl_align mx ex (fexp prec emax (Zpos (digits2_pos mx) + ex))) as [mz ez].
  cbn [fst snd] in S1, S2.
  set (f := fexp prec emax (Zpos (digits2_pos mx) + ex)) in *.
  assert (Hf : -1074 <= f) by (unfold f; rewrite fexp_eq; lia).
  assert (Hpre : ez <= fexp prec emax (Zdigits2 (Zpos mz) + ez)).
  { rewrite S2. rewrite digits_shift by lia.
    replace (Zdigits2 (Zpos mx) + (ex - Z.min ex f) + ez) with (Zpos (digits2_pos mx) + ex)
      by (cbn [Zdigits2]; lia).
    fold f. lia. }
  assert (B : brk_loc (Zpos mz) 1 (Zpos mz) loc_Exact).
  { unfold brk_loc. repeat split; try lia. }
  destruct (binary_round_aux_faithful (Zpos mz) 1 (Zpos mz) ez loc_Exact B Hpre ltac:(lia))
    as (Vr & Nn & H).
  split; [| exact Nn].
  split; [exact Vr |]. split; [now apply SFnonneg_not_nan |].
  intros c Vc Fc. destruct (H c Vc Fc) as [H1 H2].
  assert (E : Zpos mz * 2 ^ (ez + 2148) = Zpos mx * 2 ^ (ex + 2148)).
  { rewrite S2. rewrite <- Z.mul_assoc, <- pow2_split by lia. f_equal. f_equal. lia. }
  rewrite E in H1, H2. rewrite Z.mul_1_r in H1, H2. split; assumption.
Qed.

Lemma binary_round_opp (mx : positive) (ex : Z) :
  binary_round prec emax true mx ex = SFopp (binary_round prec emax false mx ex).
Proof.
  unfold binary_round.
  destruct (shl_align mx ex (fexp prec emax (Zpos (digits2_pos mx) + ex))) as [mz ez].
  apply binary_round_aux_opp.
Qed.

Lemma binary_normalize_faithful (M e : Z) :
  -1074 <= e ->
  faithful (M * 2 ^ (e + 1074)) 1 (binary_normalize prec emax M e false).
Proof.
  intros He.
  assert (P : forall p, faithful (Zpos p * 2 ^ (e + 1074)) 1 (binary_round prec emax false p e)).
  { intros p. destruct (binary_round_faithful p e ltac:(lia)) as [H _].
    apply (faithful_scale _ _ (2 ^ 1074)); [apply pow2_pos; lia |].
    revert H. apply faithful_ext; [| lia].
    rewrite <- Z.mul_assoc, <- pow2_split by lia. f_equal. f_equal. lia. }
  destruct M as [| p | p]; cbn [binary_normalize].
  - rewrite Z.mul_0_l. apply (faithful_exact (S754_zero false)); reflexivity.
  - apply P.
  - rewrite binary_round_opp. replace (Zneg p * 2 ^ (e + 1074)) with (- (Zpos p * 2 ^ (e + 1074))) by lia.
    apply faithful_opp, P.
Qed.

Lemma aligned_value (s : bool) (m : positive) (e ez : Z) :
  -1074 <= ez -> ez <= e ->
  cond_Zopp s (Zpos (fst (shl_align m e ez))) * 2 ^ (ez + 1074) = SF2Z (S754_finite s m e).
Proof.
  intros H1 H2. pose proof (shl_align_spec m e ez) as [_ ->].
  replace (Z.min e ez) with ez by lia. cbn [SF2Z].
  assert (E : Zpos m * 2 ^ (e - ez) * 2 ^ (ez + 1074) = Zpos m * 2 ^ (e + 1074)).
  { rewrite <- Z.mul_assoc, <- pow2_split by lia. f_equal. f_equal. lia. }
  destruct s; cbn [cond_Zopp]; lia.
Qed.

Theorem SFadd_faithful (x y : spec_float) :
  valid_binary x = true -> valid_binary y = true ->
  SFfinite x = true -> SFfinite y = true ->
  faithful (SF2Z x + SF2Z y) 1 (SF64add x y).
Proof.
  intros Vx Vy Fx Fy.
  destruct x as [sx | sx | | sx mx ex], y as [sy | sy | | sy my ey]; try discriminate;
    unfold SF64add; cbn [SFadd].
  - cbn [SF2Z]. destruct sx, sy; apply (faithful_exact (S754_zero _)); reflexivity.
  - cbn [SF2Z]. rewrite Z.add_0_l. now apply (faithful_exact (S754_finite sy my ey)).
  - cbn [SF2Z]. rewrite Z.add_0_r. now apply (faithful_exact (S754_finite sx mx ex)).
  - pose proof (valid_finite _ _ _ Vx) as [Cx _]. pose proof (valid_finite _ _ _ Vy) as [Cy _].
    apply canonical_inv in Cx as (Ex & _ & _). apply canonical_inv in Cy as (Ey & _ & _).
    rewrite <- (aligned_value sx mx ex (Z.min ex ey)) by lia.
    rewrite <- (aligned_value sy my ey (Z.min ex ey)) by lia.
    rewrite <- Z.mul_add_distr_r.
    apply binary_normalize_faithful. lia.
Qed.

Lemma SFsub_add (x y : spec_float) : SF64sub x y = SF64add x (SFopp y).
Proof.
  unfold SF64sub, SF64add.
  destruct x as [[|] | [|] | | sx mx ex], y as [[|] | [|] | | sy my ey]; try reflexivity.
  cbn [SFsub SFadd SFopp]. f_equal.
  destruct sy; cbn [negb cond_Zopp]; lia.
Qed.

Theorem SFsub_faithful (x y : spec_float) :
  valid_binary x = true -> valid_binary y = true ->
  SFfinite x = true -> SFfinite y = true ->
  faithful (SF2Z x - SF2Z y) 1 (SF64sub x y).
Proof.
  intros Vx Vy Fx Fy. rewrite SFsub_add.
  replace (SF2Z x - SF2Z y) with (SF2Z x + SF2Z (SFopp y)) by (rewrite SF2Z_opp; lia).
  apply SFadd_faithful; auto; [now rewrite valid_opp | now rewrite SFfinite_opp].
Qed.

(** ** Multiplication and division *)

Lemma faithful_exact_scaled (x : spec_float) (W : Z) :
  0 < W -> valid_binary x = true -> SFfinite x = true -> faithful (SF2Z x * W) W x.
Proof.
  intros HW Vx Fx. apply (faithful_scale _ _ 1); [lia |].
  destruct (faithful_exact x Vx Fx) as (V1 & N1 & H).
  split; [assumption |]. split; [assumption |].
  intros c Vc Fc. destruct (H c Vc Fc) as [H1 H2].
  split; intros Hc; [apply H1 | apply H2]; nia.
Qed.

Lemma digits_ge_53 (m : Z) : 2 ^ 52 <= m -> 53 <= Zdigits2 m.
Proof.
  intros H. assert (Hm : 0 < m) by (change (2 ^ 52) with 4503599627370496 in H; lia).
  pose proof (digits_pos_bounds m Hm) as (Hd & _ & Hhi).
  destruct (Z_le_gt_dec 53 (Zdigits2 m)) as [|Hlt]; [assumption |].
  pose proof (pow2_le (Zdigits2 m) 52). lia.
Qed.

Lemma mul_precondition (mx my : positive) (ex ey : Z) :
  canonical_mantissa prec emax mx ex = true ->
  canonical_mantissa prec emax my ey = true ->
  ex + ey <= fexp prec emax (Zdigits2 (Zpos (mx * my)) + (ex + ey)).
Proof.
  intros Cx Cy. apply canonical_inv in Cx as (Ex & Hx & Lx), Cy as (Ey & Hy & Ly).
  rewrite fexp_eq.
  destruct (Z_le_gt_dec (ex + ey) (-1074)) as [| Hgt]; [lia |].
  assert (2 ^ 52 <= Zpos (mx * my)).
  { rewrite Pos2Z.inj_mul.
    destruct (Z.eq_dec ex (-1074)) as [-> | Hne].
    - specialize (Ly ltac:(lia)). nia.
    - specialize (Lx ltac:(lia)). nia. }
  pose proof (digits_ge_53 _ H). lia.
Qed.

Theorem SFmul_faithful (x y : spec_float) :
  valid_binary x = true -> valid_binary y = true ->
  SFfinite x = true -> SFfinite y = true ->
  faithful (SF2Z x * SF2Z y) (2 ^ 1074) (SF64mul x y).
Proof.
  intros Vx Vy Fx Fy.
  pose proof (pow2_pos 1074 ltac:(lia)) as PW.
  destruct x as [sx | sx | | sx mx ex], y as [sy | sy | | sy my ey]; try discriminate;
    unfold SF64mul; cbn [SFmul].
  - apply (faithful_exact_scaled (S754_zero _) _ PW); reflexivity.
  - apply (faithful_exact_scaled (S754_zero _) _ PW); reflexivity.
  - cbn [SF2Z]. rewrite Z.mul_0_r.
    apply (faithful_exact_scaled (S754_zero _) _ PW); reflexivity.
  - pose proof (valid_finite _ _ _ Vx) as [Cx _]. pose proof (valid_finite _ _ _ Vy) as [Cy _].
    pose proof (mul_precondition _ _ _ _ Cx Cy) as Hpre.
    pose proof (canonical_inv _ _ Cx) as (Ex & _ & _).
    pose proof (canonical_inv _ _ Cy) as (Ey & _ & _).
    assert (B : brk_loc (Zpos (mx * my)) 1 (Zpos (mx * my)) loc_Exact).
    { unfold brk_loc. repeat split; try lia. }
    destruct (binary_round_aux_faithful _ _ _ _ _ B Hpre ltac:(lia)) as (Vr & Nn & H).
    assert (P : faithful (Zpos mx * 2 ^ (ex + 1074) * (Zpos my * 2 ^ (ey + 1074))) (2 ^ 1074)
                  (binary_round_aux prec emax false (Zpos (mx * my)) (ex + ey) loc_Exact)).
    { split; [exact Vr |]. split; [now apply SFnonneg_not_nan |].
      intros c Vc Fc. destruct (H c Vc Fc) as [H1 H2].
      assert (E : Zpos (mx * my) * 2 ^ (ex + ey + 2148) =
                  Zpos mx * 2 ^ (ex + 1074) * (Zpos my * 2 ^ (ey + 1074))).
      { rewrite Pos2Z.inj_mul.
        replace (ex + ey + 2148) with ((ex + 1074) + (ey + 1074)) by lia.
        rewrite pow2_split by lia. ring. }
      rewrite E in H1, H2. rewrite Z.mul_1_r in H1, H2. split; assumption. }
    cbn [SF2Z].
    destruct sx, sy; cbn [xorb cond_Zopp].
    + revert P. apply faithful_ext; [ring | reflexivity].
    + rewrite binary_round_aux_opp. apply faithful_opp in P.
      revert P. apply faithful_ext; [ring | reflexivity].
    + rewrite binary_round_aux_opp. apply faithful_opp in P.
      revert P. apply faithful_ext; [ring | reflexivity].
    + exact P.
Qed.

Lemma new_location_exact (nb k : Z) : new_location nb k = loc_Exact <-> k = 0.
Proof.
  unfold new_location, new_location_even, new_location_odd.
  destruct (Z.even nb); destruct (Z.eqb_spec k 0); split; intros H;
    try reflexivity; try assumption; try discriminate; try contradiction.
Qed.

Lemma shift_case (m s : Z) :
  0 <= s ->
  match s with Z0 => m | Zpos _ => Z.shiftl m s | Zneg _ => 0 end = m * 2 ^ s.
Proof.
  intros Hs. destruct s as [| p | p]; try lia.
  rewrite Z.shiftl_mul_pow2 by lia. reflexivity.
Qed.

Lemma div_core_spec (mx my : positive) (ex ey : Z) :
  canonical_mantissa prec emax mx ex = true ->
  canonical_mantissa prec emax my ey = true -> ex <= 971 -> ey <= 971 ->
  exists q e' l,
    SFdiv_core_binary prec emax (Zpos mx) ex (Zpos my) ey = (q, e', l) /\
    e' <= ex - ey /\ -2148 <= e' /\
    brk_loc (Zpos mx * 2 ^ (ex - ey - e')) (Zpos my) q l /\
    e' <= fexp prec emax (Zdigits2 q + e').
Proof.
  intros Cx Cy Bx By.
  pose proof (canonical_inv _ _ Cx) as (Ex & Hx & Lx).
  pose proof (canonical_inv _ _ Cy) as (Ey & Hy & Ly).
  unfold SFdiv_core_binary.
  set (d1 := Zdigits2 (Zpos mx)). set (d2 := Zdigits2 (Zpos my)).
  set (e' := Z.min (fexp prec emax (d1 + ex - (d2 + ey))) (ex - ey)).
  set (s := ex - ey - e').
  assert (He' : e' <= ex - ey) by (unfold e'; lia).
  assert (Hs : 0 <= s) by (unfold s; lia).
  assert (Hlow : -2148 <= e') by (unfold e'; rewrite fexp_eq; lia).
  set (m' := match s with Z0 => Zpos mx | Zpos _ => Z.shiftl (Zpos mx) s | Zneg _ => 0 end).
  assert (Hm' : m' = Zpos mx * 2 ^ s) by (apply shift_case; exact Hs).
  pose proof (Z_div_mod m' (Zpos my) ltac:(lia)) as Hdiv.
  destruct (Z.div_eucl m' (Zpos my)) as [q r].
  destruct Hdiv as [Hq Hr].
  exists q, e', (new_location (Zpos my) r).
  split; [reflexivity |]. split; [exact He' |]. split; [exact Hlow |].
  pose proof (pow2_pos s Hs) as Ps.
  assert (Hq0 : 0 <= q) by nia.
  split.
  { unfold brk_loc. fold s. rewrite <- Hm'. split; [lia |]. split; [exact Hq0 |].
    split; [nia |]. rewrite new_location_exact. split; intros H; nia. }
  rewrite fexp_eq.
  destruct (Z_le_gt_dec e' (-1074)) as [| Hgt]; [lia |].
  pose proof (digits_pos_bounds (Zpos mx) ltac:(lia)) as (D1 & L1 & H1).
  pose proof (digits_pos_bounds (Zpos my) ltac:(lia)) as (D2 & L2 & H2).
  fold d1 in D1, L1, H1. fold d2 in D2, L2, H2.
  assert (Hd1 : d1 <= 53).
  { destruct (Z_le_gt_dec d1 53) as [|G]; [assumption |].
    pose proof (pow2_le 53 (d1 - 1)). lia. }
  assert (He'' : e' = d1 + ex - (d2 + ey) - 53) by (unfold e' in *; rewrite fexp_eq in *; lia).
  assert (Hs' : s = 53 - d1 + d2) by (unfold s; lia).
  assert (2 ^ 52 * 2 ^ d2 <= m').
  { rewrite Hm', Hs'.
    replace (2 ^ 52 * 2 ^ d2) with (2 ^ (d1 - 1) * 2 ^ (53 - d1 + d2)).
    - apply Z.mul_le_mono_nonneg_r; [apply Z.pow_nonneg; lia | lia].
    - rewrite <- !pow2_split by lia. f_equal. lia. }
  assert (2 ^ 52 <= q).
  { assert (2 ^ 52 * Zpos my < (q + 1) * Zpos my) by nia.
    assert (2 ^ 52 < q + 1) by nia. lia. }
  pose proof (digits_ge_53 q ltac:(assumption)). lia.
Qed.

Theorem SFdiv_faithful (mx my : positive) (ex ey : Z) :
  valid_binary (S754_finite false mx ex) = true ->
  valid_binary (S754_finite false my ey) = true ->
  faithful (Zpos mx * 2 ^ (ex + 1074) * 2 ^ 1074) (Zpos my * 2 ^ (ey + 1074))
    (SF64div (S754_finite false mx ex) (S754_finite false my ey)) /\
  SFnonneg (SF64div (S754_finite false mx ex) (S754_finite false my ey)) = true.
Proof.
  intros Vx Vy.
  pose proof (valid_finite _ _ _ Vx) as [Cx Bx]. pose proof (valid_finite _ _ _ Vy) as [Cy By].
  pose proof (canonical_inv _ _ Cx) as (Ex & _ & _).
  pose proof (canonical_inv _ _ Cy) as (Ey & _ & _).
  destruct (div_core_spec mx my ex ey Cx Cy Bx By) as (q & e' & l & Hc & He' & Hlow & B & Hpre).
  unfold SF64div. cbn [SFdiv xorb]. rewrite Hc.
  destruct (binary_round_aux_faithful _ _ _ _ _ B Hpre Hlow) as (Vr & Nn & H).
  split; [| exact Nn].
  split; [exact Vr |]. split; [now apply SFnonneg_not_nan |].
  intros c Vc Fc. destruct (H c Vc Fc) as [H1 H2].
  pose proof (pow2_pos (ey + 1074) ltac:(lia)) as Py.
  pose proof (pow2_pos 1074 ltac:(lia)) as PW.
  assert (E : Zpos mx * 2 ^ (ex - ey - e') * 2 ^ (e' + 2148) * 2 ^ (ey + 1074)
              = Zpos mx * 2 ^ (ex + 1074) * 2 ^ 1074 * 2 ^ 1074).
  { rewrite <- !Z.mul_assoc. f_equal.
    rewrite <- (pow2_split (e' + 2148)) by lia.
    rewrite <- (pow2_split (ex - ey - e')) by lia.
    rewrite <- (pow2_split 1074) by lia.
    rewrite <- (pow2_split (ex + 1074)) by lia. f_equal. lia. }
  split; intros Hcmp.
  - apply H1. apply (Z.mul_le_mono_pos_r _ _ (2 ^ (ey + 1074)) Py).
    rewrite E.
    replace (SF2Z c * 2 ^ 1074 * Zpos my * 2 ^ (ey + 1074))
      with (SF2Z c * (Zpos my * 2 ^ (ey + 1074)) * 2 ^ 1074) by ring.
    apply Z.mul_le_mono_nonneg_r; [lia | exact Hcmp].
  - apply H2. apply (Z.mul_le_mono_pos_r _ _ (2 ^ (ey + 1074)) Py).
    rewrite E.
    replace (SF2Z c * 2 ^ 1074 * Zpos my * 2 ^ (ey + 1074))
      with (SF2Z c * (Zpos my * 2 ^ (ey + 1074)) * 2 ^ 1074) by ring.
    apply Z.mul_le_mono_nonneg_r; [lia | exact Hcmp].
Qed.

(** ** The same on primitive floats *)

Lemma SFcompare_refl (x : spec_float) : SFnan x = false -> SFcompare x x = Some Eq.
Proof.
  destruct x as [[|] | [|] | | [|] m e]; intros H; try discriminate; try reflexivity;
    cbn [SFcompare]; rewrite Z.compare_refl;
    change (Pos.compare_cont Eq m m) with (Pos.compare m m);
    rewrite Pos.compare_refl; reflexivity.
Qed.

Lemma is_nan_SF (x : float) : is_nan x = SFnan (Prim2SF x).
Proof.
  unfold is_nan. rewrite FloatAxioms.eqb_spec. unfold SFeqb.
  destruct (SFnan (Prim2SF x)) eqn:E.
  - destruct (Prim2SF x); try discriminate. reflexivity.
  - rewrite SFcompare_refl by assumption. reflexivity.
Qed.

Lemma is_infinity_SF (x : float) : is_infinity x = SFinf (Prim2SF x).
Proof.
  unfold is_infinity. rewrite FloatAxioms.eqb_spec, FloatAxioms.abs_spec.
  change (Prim2SF infinity) with (S754_infinity false).
  destruct (Prim2SF x) as [[|] | [|] | | [|] m e]; reflexivity.
Qed.

Lemma is_finite_SF (x : float) : is_finite x = SFfinite (Prim2SF x).
Proof.
  unfold is_finite. rewrite is_nan_SF, is_infinity_SF.
  destruct (Prim2SF x) as [[|] | [|] | | [|] m e]; reflexivity.
Qed.

Lemma leb_finite (x y : float) :
  is_finite x = true -> is_finite y = true ->
  (x <=? y)%float = true <-> F2Z x <= F2Z y.
Proof.
  rewrite !is_finite_SF, FloatAxioms.leb_spec. intros Fx Fy.
  apply SFleb_finite; auto using Prim2SF_valid.
Qed.

Lemma between_finite (a x b : float) :
  is_finite a = true -> is_finite b = true ->
  (a <=? x)%float = true -> (x <=? b)%float = true -> is_finite x = true.
Proof.
  rewrite !is_finite_SF, !FloatAxioms.leb_spec. unfold SFleb.
  destruct (Prim2SF a) as [[|] | [|] | | [|] ma ea], (Prim2SF x) as [[|] | [|] | | [|] mx ex],
    (Prim2SF b) as [[|] | [|] | | [|] mb eb]; cbn [SFfinite SFcompare];
    intros Fa Fb H1 H2; try discriminate; reflexivity.
Qed.

(** Faithful rounding read on primitive floats. *)
Lemma faithful_ge (V W : Z) (r c : float) :
  faithful V W (Prim2SF r) -> is_finite c = true -> F2Z c * W <= V ->
  (c <=? r)%float = true.
Proof.
  intros (_ & _ & H) Fc Hc. rewrite is_finite_SF in Fc.
  rewrite FloatAxioms.leb_spec. apply (H (Prim2SF c) (Prim2SF_valid c) Fc). exact Hc.
Qed.

Lemma faithful_le (V W : Z) (r c : float) :
  faithful V W (Prim2SF r) -> is_finite c = true -> V <= F2Z c * W ->
  (r <=? c)%float = true.
Proof.
  intros (_ & _ & H) Fc Hc. rewrite is_finite_SF in Fc.
  rewrite FloatAxioms.leb_spec. apply (H (Prim2SF c) (Prim2SF_valid c) Fc). exact Hc.
Qed.

Lemma add_faithful (x y : float) :
  is_finite x = true -> is_finite y = true ->
  faithful (F2Z x + F2Z y) 1 (Prim2SF (x + y)).
Proof.
  rewrite !is_finite_SF, FloatAxioms.add_spec. intros Fx Fy.
  apply SFadd_faithful; auto using Prim2SF_valid.
Qed.

Lemma sub_faithful (x y : float) :
  is_finite x = true -> is_finite y = true ->
  faithful (F2Z x - F2Z y) 1 (Prim2SF (x - y)).
Proof.
  rewrite !is_finite_SF, FloatAxioms.sub_spec. intros Fx Fy.
  apply SFsub_faithful; auto using Prim2SF_valid.
Qed.

Lemma mul_faithful (x y : float) :
  is_finite x = true -> is_finite y = true ->
  faithful (F2Z x * F2Z y) (2 ^ 1074) (Prim2SF (x * y)).
Proof.
  rewrite !is_finite_SF, FloatAxioms.mul_spec. intros Fx Fy.
  apply SFmul_faithful; auto using Prim2SF_valid.
Qed.

Lemma div_faithful (x y : float) :
  is_finite x = true -> is_finite y = true -> 0 < F2Z x -> 0 < F2Z y ->
  faithful (F2Z x * 2 ^ 1074) (F2Z y) (Prim2SF (x / y)).
Proof.
  rewrite !is_finite_SF, FloatAxioms.div_spec. unfold F2Z. intros Fx Fy Px Py.
  pose proof (Prim2SF_valid x) as Vx. pose proof (Prim2SF_valid y) as Vy.
  destruct (Prim2SF x) as [sx | sx | | sx mx ex]; try discriminate;
    cbn [SF2Z] in Px; try lia.
  destruct (Prim2SF y) as [sy | sy | | sy my ey]; try discriminate;
    cbn [SF2Z] in Py; try lia.
  pose proof (valid_finite _ _ _ Vx) as [Cx _]. pose proof (valid_finite _ _ _ Vy) as [Cy _].
  apply canonical_inv in Cx as (Ex & _ & _). apply canonical_inv in Cy as (Ey & _ & _).
  pose proof (SF2Z_pos mx ex Ex). pose proof (SF2Z_pos my ey Ey).
  destruct sx; cbn [cond_Zopp] in Px; try lia.
  destruct sy; cbn [cond_Zopp] in Py; try lia.
  cbn [SF2Z cond_Zopp]. apply SFdiv_faithful; assumption.
Qed.

(** ** The inequalities of the Elo update *)

(** A float that compares above a finite one and is not finite is +inf. *)
Lemma above_cases (c x : float) :
  is_finite c = true -> (c <=? x)%float = true ->
  is_finite x = true \/ Prim2SF x = S754_infinity false.
Proof.
  rewrite !is_finite_SF, FloatAxioms.leb_spec. unfold SFleb.
  destruct (Prim2SF c) as [[|] | [|] | | [|] mc ec], (Prim2SF x) as [[|] | [|] | | [|] mx ex];
    cbn [SFfinite SFcompare]; intros Fc H; try discriminate; auto.
Qed.

Lemma one_le_one_plus (p : float) :
  (0 <=? p)%float = true -> (1 <=? 1 + p)%float = true.
Proof.
  intros H. destruct (above_cases 0 p eq_refl H) as [Fp | Ip].
  - apply (faithful_ge _ _ _ 1 (add_faithful 1 p eq_refl Fp) eq_refl).
    apply (leb_finite 0 p eq_refl Fp) in H. change (F2Z 0) with 0 in H. lia.
  - rewrite FloatAxioms.leb_spec, FloatAxioms.add_spec, Ip. reflexivity.
Qed.

Lemma inverse_bounds (x : float) :
  (1 <=? x)%float = true ->
  (0 <=? 1 / x)%float = true /\ (1 / x <=? 1)%float = true.
Proof.
  intros H. destruct (above_cases 1 x eq_refl H) as [Fx | Ix].
  - apply (leb_finite 1 x eq_refl Fx) in H.
    assert (P1 : 0 < F2Z 1) by (vm_compute; reflexivity).
    pose proof (div_faithful 1 x eq_refl Fx P1 ltac:(lia)) as Hf.
    split.
    + apply (faithful_ge _ _ _ 0 Hf eq_refl). change (F2Z 0) with 0.
      pose proof (pow2_pos 1074 ltac:(lia)). nia.
    + apply (faithful_le _ _ _ 1 Hf eq_refl).
      change (F2Z 1) with (2 ^ 1074) in *.
      pose proof (pow2_pos 1074 ltac:(lia)). nia.
  - rewrite !FloatAxioms.leb_spec, FloatAxioms.div_spec, Ix. split; reflexivity.
Qed.

Lemma complement_bounds (e : float) :
  (0 <=? e)%float = true -> (e <=? 1)%float = true ->
  (0 <=? 1 - e)%float = true /\ (1 - e <=? 1)%float = true.
Proof.
  intros H0 H1.
  pose proof (between_finite 0 e 1 eq_refl eq_refl H0 H1) as Fe.
  apply (leb_finite 0 e eq_refl Fe) in H0. apply (leb_finite e 1 Fe eq_refl) in H1.
  pose proof (sub_faithful 1 e eq_refl Fe) as Hf.
  change (F2Z 0) with 0 in *.
  split.
  - apply (faithful_ge _ _ _ 0 Hf eq_refl). change (F2Z 0) with 0. lia.
  - apply (faithful_le _ _ _ 1 Hf eq_refl). lia.
Qed.

Lemma negation_bounds (e : float) :
  (0 <=? e)%float = true -> (e <=? 1)%float = true ->
  (-1 <=? 0 - e)%float = true /\ (0 - e <=? 0)%float = true.
Proof.
  intros H0 H1.
  pose proof (between_finite 0 e 1 eq_refl eq_refl H0 H1) as Fe.
  apply (leb_finite 0 e eq_refl Fe) in H0. apply (leb_finite e 1 Fe eq_refl) in H1.
  pose proof (sub_faithful 0 e eq_refl Fe) as Hf.
  change (F2Z 0) with 0 in *. change (F2Z 1) with (2 ^ 1074) in *.
  split.
  - apply (faithful_ge _ _ _ (-1) Hf eq_refl). change (F2Z (-1)) with (- 2 ^ 1074). lia.
  - apply (faithful_le _ _ _ 0 Hf eq_refl). change (F2Z 0) with 0. lia.
Qed.

Lemma times_K_bounds (t : float) :
  (-1 <=? t)%float = true -> (t <=? 1)%float = true ->
  (-32 <=? 32 * t)%float = true /\ (32 * t <=? 32)%float = true /\
  ((0 <=? t)%float = true -> (0 <=? 32 * t)%float = true) /\
  ((t <=? 0)%float = true -> (32 * t <=? 0)%float = true).
Proof.
  intros H0 H1.
  pose proof (between_finite (-1) t 1 eq_refl eq_refl H0 H1) as Ft.
  apply (leb_finite (-1) t eq_refl Ft) in H0. apply (leb_finite t 1 Ft eq_refl) in H1.
  pose proof (mul_faithful 32 t eq_refl Ft) as Hf.
  change (F2Z (-1)) with (- 2 ^ 1074) in *. change (F2Z 1) with (2 ^ 1074) in *.
  change (F2Z 32) with (32 * 2 ^ 1074) in *.
  pose proof (pow2_pos 1074 ltac:(lia)) as P.
  set (W := 2 ^ 1074) in *.
  split; [| split; [| split]].
  - apply (faithful_ge _ _ _ (-32) Hf eq_refl). change (F2Z (-32)) with (- (32 * W)). nia.
  - apply (faithful_le _ _ _ 32 Hf eq_refl). change (F2Z 32) with (32 * W). nia.
  - intros H. apply (leb_finite 0 t eq_refl Ft) in H. change (F2Z 0) with 0 in H.
    apply (faithful_ge _ _ _ 0 Hf eq_refl). change (F2Z 0) with 0. nia.
  - intros H. apply (leb_finite t 0 Ft eq_refl) in H. change (F2Z 0) with 0 in H.
    apply (faithful_le _ _ _ 0 Hf eq_refl). change (F2Z 0) with 0. nia.
Qed.

(** ** Signs, zeros and the amount of the loser *)




Lemma sub_diag (a : float) : is_finite a = true -> (a - a)%float = 0%float.
Proof.
  rewrite is_finite_SF. intros Fa.
  apply Prim2SF_inj. rewrite FloatAxioms.sub_spec. change (Prim2SF 0) with (S754_zero false).
  destruct (Prim2SF a) as [[|] | s | | s m e]; try discriminate; try reflexivity.
  unfold SF64sub. cbn [SFsub]. rewrite Z.sub_diag. reflexivity.
Qed.







(** ** The expected score in binary64 *)

Lemma binary_round_aux_not_nan (s : bool) (N D m e : Z) (l : location) :
  brk_loc N D m l -> e <= fexp prec emax (Zdigits2 m + e) -> -2148 <= e ->
  SFnan (binary_round_aux prec emax s m e l) = false.
Proof.
  intros B Hp He.
  destruct (binary_round_aux_faithful N D m e l B Hp He) as (_ & Nn & _).
  apply SFnonneg_not_nan in Nn.
  destruct s; [rewrite binary_round_aux_opp, SFnan_opp |]; exact Nn.
Qed.

Lemma SFdiv_finite_not_nan (x y : spec_float) :
  valid_binary x = true -> valid_binary y = true ->
  SFnan x = false -> SFfinite y = true -> SFzero y = false ->
  SFnan (SF64div x y) = false.
Proof.
  intros Vx Vy Nx Fy Zy. unfold SF64div.
  destruct y as [sy | sy | | sy my ey]; try discriminate.
  destruct x as [sx | sx | | sx mx ex]; try discriminate; try reflexivity.
  pose proof (valid_finite _ _ _ Vx) as [Cx Bx]. pose proof (valid_finite _ _ _ Vy) as [Cy By].
  destruct (div_core_spec mx my ex ey Cx Cy Bx By) as (q & e' & l & Hc & He' & Hlow & B & Hpre).
  cbn [SFdiv]. rewrite Hc.
  apply (binary_round_aux_not_nan _ _ _ _ _ _ B Hpre Hlow).
Qed.

Lemma sub_not_nan (a b : float) :
  is_finite a = true -> is_finite b = true -> is_nan (b - a)%float = false.
Proof.
  intros Fa Fb. rewrite is_nan_SF. apply (sub_faithful b a Fb Fa).
Qed.

Lemma gap_not_nan (a b : float) :
  is_finite a = true -> is_finite b = true -> is_nan ((b - a) / 400)%float = false.
Proof.
  intros Fa Fb. pose proof (sub_not_nan a b Fa Fb) as H.
  rewrite is_nan_SF in *. rewrite FloatAxioms.div_spec.
  apply SFdiv_finite_not_nan; auto using Prim2SF_valid.
Qed.

Lemma ge_one_nonzero (x : float) : (1 <=? x)%float = true -> (x =? 0)%float = false.
Proof.
  rewrite FloatAxioms.leb_spec, FloatAxioms.eqb_spec.
  pose proof (Prim2SF_valid x) as Vx.
  change (Prim2SF 1) with (S754_finite false 4503599627370496 (-52)).
  change (Prim2SF 0) with (S754_zero false).
  unfold SFleb, SFeqb.
  destruct (Prim2SF x) as [[|] | [|] | | [|] m e]; cbn [SFcompare]; intros H;
    try discriminate; reflexivity.
Qed.

Section Expected.

Variable pow : float -> float -> float * bool.
Hypothesis pow_ok : pow_nonneg pow.

Lemma pow10_outcome (y : float) :
  is_nan y = false ->
  B64.pow10 pow y = B64.Exn B64.OverflowError \/
  exists p, B64.pow10 pow y = B64.Val p /\ (0 <=? p)%float = true.
Proof.
  intros Ny. unfold B64.pow10.
  destruct (y =? 0)%float; [right; exists 1%float; split; reflexivity |].
  rewrite Ny.
  destruct (is_infinity y).
  { right. destruct (0 <? y)%float; eexists; split; reflexivity. }
  pose proof (pow_ok y) as Hp.
  destruct (pow 10%float y) as [ix erange]. cbn [fst] in Hp.
  destruct (if erange then negb (ix =? 0)%float else is_infinity ix);
    [left; reflexivity | right; exists ix; split; [reflexivity | exact Hp]].
Qed.

Lemma score_of_power (p : float) :
  (0 <=? p)%float = true ->
  B64.truediv 1 (1 + p) = B64.Val (1 / (1 + p))%float /\
  (0 <=? 1 / (1 + p))%float = true /\ (1 / (1 + p) <=? 1)%float = true.
Proof.
  intros Hp. pose proof (one_le_one_plus p Hp) as H1.
  split; [unfold B64.truediv; rewrite (ge_one_nonzero _ H1); reflexivity |].
  apply inverse_bounds, H1.
Qed.

Lemma expected_outcome (a b : float) :
  is_finite a = true -> is_finite b = true ->
  B64.expected pow a b = B64.Exn B64.OverflowError \/
  exists ex, B64.expected pow a b = B64.Val ex /\
             (0 <=? ex)%float = true /\ (ex <=? 1)%float = true.
Proof.
  intros Fa Fb. unfold B64.expected.
  destruct (pow10_outcome _ (gap_not_nan a b Fa Fb)) as [-> | (p & -> & Hp)];
    [left; reflexivity |].
  right. cbn [B64.bind]. destruct (score_of_power p Hp) as (E & H0 & H1).
  exists (1 / (1 + p))%float. auto.
Qed.

End Expected.

Lemma expected_same_rating (pow : float -> float -> float * bool) (a : float) :
  is_finite a = true -> B64.expected pow a a = B64.Val 0.5%float.
Proof.
  intros Fa. unfold B64.expected. rewrite (sub_diag a Fa). reflexivity.
Qed.

(** ** What [result] stores *)

Lemma result_raises (pow : float -> float -> float * bool) (p1 p2 : B64.Player)
    (e : B64.error) (winner : Z) :
  B64.expected pow (B64.elo p1) (B64.elo p2) = B64.Exn e ->
  B64.result pow p1 p2 winner = B64.Exn e.
Proof. intros H. unfold B64.result. rewrite H. reflexivity. Qed.

Lemma result_side_1_wins (pow : float -> float -> float * bool) (p1 p2 : B64.Player) (ex : float) :
  B64.expected pow (B64.elo p1) (B64.elo p2) = B64.Val ex ->
  B64.result pow p1 p2 1
  = B64.Val (B64.set_elo p1 (B64.elo p1 + 32 * (1 - ex))%float,
             B64.set_elo p2 (B64.elo p2 + 32 * (0 - (1 - ex)))%float).
Proof. intros H. unfold B64.result. rewrite H. reflexivity. Qed.

Lemma result_side_2_wins (pow : float -> float -> float * bool) (p1 p2 : B64.Player) (ex : float) :
  B64.expected pow (B64.elo p1) (B64.elo p2) = B64.Val ex ->
  B64.result pow p1 p2 2
  = B64.Val (B64.set_elo p1 (B64.elo p1 + 32 * (0 - ex))%float,
             B64.set_elo p2 (B64.elo p2 + 32 * (1 - (1 - ex)))%float).
Proof. intros H. unfold B64.result. rewrite H. reflexivity. Qed.

Lemma result_no_winner (pow : float -> float -> float * bool) (p1 p2 : B64.Player)
    (ex : float) (winner : Z) :
  B64.expected pow (B64.elo p1) (B64.elo p2) = B64.Val ex ->
  winner <> 1 -> winner <> 2 ->
  B64.result pow p1 p2 winner = B64.Val (p1, p2).
Proof.
  intros H N1 N2. unfold B64.result. rewrite H. cbn [B64.bind].
  destruct winner as [| [w | w |] | w]; try reflexivity; try contradiction.
  destruct w; try reflexivity. contradiction.
Qed.

(** The amounts [K * (1 - exp)] and [K * (0 - exp)] for an expected score
    between 0 and 1. *)
Lemma amounts (ex : float) :
  (0 <=? ex)%float = true -> (ex <=? 1)%float = true ->
  let gain := (32 * (1 - ex))%float in
  let loss := (32 * (0 - ex))%float in
  (0 <=? gain)%float = true /\ (gain <=? 32)%float = true /\
  (-32 <=? loss)%float = true /\ (loss <=? 0)%float = true /\
  is_finite gain = true /\ is_finite loss = true.
Proof.
  intros H0 H1. cbv zeta.
  destruct (complement_bounds ex H0 H1) as [C0 C1].
  destruct (negation_bounds ex H0 H1) as [N0 N1].
  assert (Ft : is_finite (1 - ex)%float = true)
    by exact (between_finite 0 _ 1 eq_refl eq_refl C0 C1).
  assert (C0' : (-1 <=? 1 - ex)%float = true).
  { apply (leb_finite (-1) _ eq_refl Ft). apply (leb_finite 0 _ eq_refl Ft) in C0.
    change (F2Z 0) with 0 in C0. change (F2Z (-1)) with (- 2 ^ 1074).
    pose proof (pow2_pos 1074 ltac:(lia)). lia. }
  assert (Fu : is_finite (0 - ex)%float = true)
    by exact (between_finite (-1) _ 0 eq_refl eq_refl N0 N1).
  assert (N1' : (0 - ex <=? 1)%float = true).
  { apply (leb_finite _ 1 Fu eq_refl). apply (leb_finite _ 0 Fu eq_refl) in N1.
    change (F2Z 0) with 0 in N1. change (F2Z 1) with (2 ^ 1074).
    pose proof (pow2_pos 1074 ltac:(lia)). lia. }
  destruct (times_K_bounds _ C0' C1) as (G0 & G1 & G2 & _).
  destruct (times_K_bounds _ N0 N1') as (L0 & L1 & _ & L2).
  specialize (G2 C0). specialize (L2 N1).
  repeat split; auto.
  - exact (between_finite 0 _ 32 eq_refl eq_refl G2 G1).
  - exact (between_finite (-32) _ 0 eq_refl eq_refl L0 L2).
Qed.


(** C1.  [result] reads one expected score [ex] off the two ratings before
    it writes either.  When side 1 or side 2 wins, the new rating of each
    side is [old + K * (actual - expected)] with K = 32, the winner's actual
    score 1 and the loser's 0, computed in binary64 by [adjustElo]: side 1
    is charged [ex] and side 2 its complement [1 - ex] of the same
    snapshot (not a second call of [expected]); no other field of a record
    changes, any other [winner] changes nothing, and an exception of
    [expected] leaves before anything is written.  From 2000.0 against
    2000.0 with side 1 winning the ratings become 2016.0 and 1984.0 exactly,
    whatever the C library; from 1500.0 against 2100.0, where [pow(10, 1.5)]
    is 31.622776601683793, they become 1531.0190902389852 and
    2068.980909761015. *)
Theorem C1_result_updates_elo :
  (forall pow p1 p2,
     match B64.expected pow (B64.elo p1) (B64.elo p2) with
     | B64.Exn e => forall winner, B64.result pow p1 p2 winner = B64.Exn e
     | B64.Val ex =>
         B64.result pow p1 p2 1
         = B64.Val (B64.set_elo p1 (B64.elo p1 + 32 * (1 - ex))%float,
                    B64.set_elo p2 (B64.elo p2 + 32 * (0 - (1 - ex)))%float)
         /\ B64.result pow p1 p2 2
            = B64.Val (B64.set_elo p1 (B64.elo p1 + 32 * (0 - ex))%float,
                       B64.set_elo p2 (B64.elo p2 + 32 * (1 - (1 - ex)))%float)
         /\ (forall winner, winner <> 1 -> winner <> 2 ->
             B64.result pow p1 p2 winner = B64.Val (p1, p2))
     end)
  /\ (forall oldElo exp,
        B64.adjustElo oldElo exp 1 K_FACTOR = B64.Val (oldElo + 32 * (1 - exp))%float
        /\ B64.adjustElo oldElo exp 0 K_FACTOR = B64.Val (oldElo + 32 * (0 - exp))%float)
  /\ K_FACTOR = 32
  /\ (forall pow,
        B64.result pow (B64.newPlayer "A" "1" "100" 2000) (B64.newPlayer "B" "2" "200" 2000) 1
        = B64.Val (B64.newPlayer "A" "1" "100" 2016, B64.newPlayer "B" "2" "200" 1984))
  /\ (forall pow,
        pow 10%float 1.5%float = (31.622776601683793%float, false) ->
        B64.result pow (B64.newPlayer "A" "1" "100" 1500) (B64.newPlayer "B" "2" "200" 2100) 1
        = B64.Val (B64.newPlayer "A" "1" "100" 1531.0190902389852,
                   B64.newPlayer "B" "2" "200" 2068.980909761015)).
Proof.
  split.
  { intros pow p1 p2.
    destruct (B64.expected pow (B64.elo p1) (B64.elo p2)) as [ex | e] eqn:E.
    - split; [exact (result_side_1_wins pow p1 p2 ex E) |].
      split; [exact (result_side_2_wins pow p1 p2 ex E) |].
      intros winner; exact (result_no_winner pow p1 p2 ex winner E).
    - intros winner. exact (result_raises pow p1 p2 e winner E). }
  split; [intros oldElo exp; split; reflexivity |].
  split; [reflexivity |].
  split; [intros pow; reflexivity |].
  intros pow H. unfold B64.result, B64.expected, B64.pow10.
  cbn [B64.elo B64.newPlayer].
  change ((2100 - 1500) / 400)%float with 1.5%float.
  change (1.5 =? 0)%float with false. change (is_nan 1.5) with false.
  change (is_infinity 1.5) with false. cbv iota. rewrite H. reflexivity.
Qed.

(** ** The claims about the Elo pair, in binary64 *)

(** Runs a call of [expected] or [result] on literals, given the answer [H]
    of the C library at the one exponent the call reaches. *)
Ltac feed H :=
  unfold B64.result, B64.expected, B64.pow10, playerA, playerB;
  cbn [B64.elo B64.newPlayer];
  match type of H with
  | ?pw ?b ?y0 = _ =>
      match goal with
      | |- context [pw b ?y] => change y with y0; rewrite H
      end
  end.

(** C3, as stated, fails in binary64.  Between the finite ratings 1e308
    and -1e308 the difference overflows, [10 ** -inf] is 0.0 and the
    expected score is exactly 1.0 (and 0.0 the other way round), outside the
    open interval; the same happens at 9000 against 1000, where
    [pow(10, -20)] is 1e-20.  At 1501 against 2000, with the answers of the C
    library 17.6807221773432 and 0.05655877570891539, the two expected
    scores add up to 0.9999999999999999.  At 0 against 124000 the power
    overflows and [expected] raises OverflowError. *)
Lemma C3_counterexample :
  is_finite 1e308 = true /\ is_finite (-1e308) = true
  /\ (forall pow, B64.expected pow 1e308 (-1e308) = B64.Val 1%float)
  /\ (forall pow, B64.expected pow (-1e308) 1e308 = B64.Val 0%float)
  /\ (1 <? 1)%float = false /\ (0 <? 0)%float = false
  /\ (forall pow, pow 10%float (-20)%float = (1e-20%float, false) ->
        B64.expected pow 9000 1000 = B64.Val 1%float)
  /\ (forall pow,
        pow 10%float 1.2475%float = (17.6807221773432%float, false) ->
        pow 10%float (-1.2475)%float = (0.05655877570891539%float, false) ->
        exists x y, B64.expected pow 1501 2000 = B64.Val x
                    /\ B64.expected pow 2000 1501 = B64.Val y
                    /\ (x + y)%float = 0.9999999999999999%float)
  /\ (forall pow, pow 10%float 310%float = (infinity, true) ->
        B64.expected pow 0 124000 = B64.Exn B64.OverflowError).
Proof.
  split; [reflexivity |]. split; [reflexivity |].
  split; [intros pow; reflexivity |]. split; [intros pow; reflexivity |].
  split; [reflexivity |]. split; [reflexivity |].
  split; [intros pow H; feed H; reflexivity |].
  split.
  - intros pow H1 H2. eexists. eexists.
    split; [feed H1; reflexivity |]. split; [feed H2; reflexivity |]. reflexivity.
  - intros pow H. feed H. reflexivity.
Qed.

(** C3, amended.  For finite ratings [a] and [b], and a C library whose
    [pow(10, y)] is a number not below 0: a player is expected to score
    exactly 0.5 against an equal; [expected a b] either raises
    OverflowError (the power overflows) or returns a score in the closed
    interval from 0 to 1; it is [1 / (1 + p)] for the power
    [p = 10 ** ((b - a) / 400)], a function of its arguments alone.  (The
    division itself raises ZeroDivisionError on a zero divisor, which takes
    a C library that answers -1.) *)
Theorem C3_expected_in_binary64 (pow : float -> float -> float * bool) (a b : float) :
  is_finite a = true -> is_finite b = true -> pow_nonneg pow ->
  B64.expected pow a a = B64.Val 0.5%float
  /\ B64.expected pow b b = B64.Val 0.5%float
  /\ (B64.expected pow a b = B64.Exn B64.OverflowError
      \/ exists ex, B64.expected pow a b = B64.Val ex
                    /\ (0 <=? ex)%float = true /\ (ex <=? 1)%float = true)
  /\ (forall p, B64.pow10 pow ((b - a) / 400)%float = B64.Val p ->
                B64.expected pow a b = B64.Val (1 / (1 + p))%float)
  /\ (forall e, B64.pow10 pow ((b - a) / 400)%float = B64.Exn e ->
                B64.expected pow a b = B64.Exn e)
  /\ B64.expected (pow_const (-1)) 1500 2100 = B64.Exn B64.ZeroDivisionError.
Proof.
  intros Fa Fb Hp.
  split; [exact (expected_same_rating pow a Fa) |].
  split; [exact (expected_same_rating pow b Fb) |].
  split; [exact (expected_outcome pow Hp a b Fa Fb) |].
  split; [| split; [| reflexivity]].
  - intros p E. unfold B64.expected. rewrite E. cbn [B64.bind].
    destruct (pow10_outcome pow Hp _ (gap_not_nan a b Fa Fb)) as [E' | (p' & E' & Hp')];
      rewrite E in E'; [discriminate |].
    injection E' as <-. apply (score_of_power p Hp').
  - intros e E. unfold B64.expected. rewrite E. reflexivity.
Qed.

(** C3, at 1500 against 2100 with the answer of the C library at 1.5. *)
Lemma C3_expected_in_binary64_witness :
  B64.expected (pow_const 31.622776601683793) 1500 1500 = B64.Val 0.5%float
  /\ B64.expected (pow_const 31.622776601683793) 2100 2100 = B64.Val 0.5%float
  /\ (B64.expected (pow_const 31.622776601683793) 1500 2100 = B64.Exn B64.OverflowError
      \/ exists ex, B64.expected (pow_const 31.622776601683793) 1500 2100 = B64.Val ex
                    /\ (0 <=? ex)%float = true /\ (ex <=? 1)%float = true)
  /\ (forall p, B64.pow10 (pow_const 31.622776601683793) ((2100 - 1500) / 400)%float = B64.Val p ->
                B64.expected (pow_const 31.622776601683793) 1500 2100 = B64.Val (1 / (1 + p))%float)
  /\ (forall e, B64.pow10 (pow_const 31.622776601683793) ((2100 - 1500) / 400)%float = B64.Exn e ->
                B64.expected (pow_const 31.622776601683793) 1500 2100 = B64.Exn e)
  /\ B64.expected (pow_const (-1)) 1500 2100 = B64.Exn B64.ZeroDivisionError.
Proof.
  apply (C3_expected_in_binary64 (pow_const 31.622776601683793) 1500 2100).
  - reflexivity.
  - reflexivity.
  - intros y. reflexivity.
Defined.




(** C5, amended.  From two equal, finite ratings the expected score is 0.5
    and the amounts added to side 1 are mirror images: +16 (K / 2) when it
    wins and -16 when it loses, and -16 and +16 for side 2.  From unequal
    ratings they need not be: at 2200 against 1800, where [pow(10, -1)] is
    0.1, side 1 gets +2.9090909090909101 by winning and -29.09090909090909
    by losing. *)
Theorem C5_equal_ratings_mirror (pow : float -> float -> float * bool)
    (p1 p2 : B64.Player) :
  is_finite (B64.elo p1) = true -> B64.elo p2 = B64.elo p1 ->
  B64.result pow p1 p2 1
  = B64.Val (B64.set_elo p1 (B64.elo p1 + 16)%float,
             B64.set_elo p2 (B64.elo p2 + -16)%float)
  /\ B64.result pow p1 p2 2
     = B64.Val (B64.set_elo p1 (B64.elo p1 + -16)%float,
                B64.set_elo p2 (B64.elo p2 + 16)%float)
  /\ (forall pow', pow' 10%float (-1)%float = (0.1%float, false) ->
        B64.result pow' (playerA 2200) (playerB 1800) 1
        = B64.Val (B64.set_elo (playerA 2200) (2200 + 2.9090909090909101)%float,
                   B64.set_elo (playerB 1800) (1800 + -2.9090909090909101)%float)
        /\ B64.result pow' (playerA 2200) (playerB 1800) 2
           = B64.Val (B64.set_elo (playerA 2200) (2200 + -29.09090909090909)%float,
                      B64.set_elo (playerB 1800) (1800 + 29.09090909090909)%float)).
Proof.
  intros F E.
  assert (X : B64.expected pow (B64.elo p1) (B64.elo p2) = B64.Val 0.5%float)
    by (rewrite E; apply expected_same_rating, F).
  split; [rewrite (result_side_1_wins _ _ _ _ X); reflexivity |].
  split; [rewrite (result_side_2_wins _ _ _ _ X); reflexivity |].
  intros pow' H. split; feed H; reflexivity.
Qed.

(** C5, at 2000.0 against 2000.0. *)
Lemma C5_equal_ratings_mirror_witness :
  B64.result (pow_const 1) (playerA 2000) (playerB 2000) 1
  = B64.Val (B64.set_elo (playerA 2000) (B64.elo (playerA 2000) + 16)%float,
             B64.set_elo (playerB 2000) (B64.elo (playerB 2000) + -16)%float)
  /\ B64.result (pow_const 1) (playerA 2000) (playerB 2000) 2
     = B64.Val (B64.set_elo (playerA 2000) (B64.elo (playerA 2000) + -16)%float,
                B64.set_elo (playerB 2000) (B64.elo (playerB 2000) + 16)%float)
  /\ (forall pow', pow' 10%float (-1)%float = (0.1%float, false) ->
        B64.result pow' (playerA 2200) (playerB 1800) 1
        = B64.Val (B64.set_elo (playerA 2200) (2200 + 2.9090909090909101)%float,
                   B64.set_elo (playerB 1800) (1800 + -2.9090909090909101)%float)
        /\ B64.result pow' (playerA 2200) (playerB 1800) 2
           = B64.Val (B64.set_elo (playerA 2200) (2200 + -29.09090909090909)%float,
                      B64.set_elo (playerB 1800) (1800 + 29.09090909090909)%float)).
Proof.
  apply (C5_equal_ratings_mirror (pow_const 1) (playerA 2000) (playerB 2000)).
  - reflexivity.
  - reflexivity.
Defined.

(** C8, as stated, fails in binary64.  At 1000.4 against 9000.4, where
    [pow(10, 20)] is 1e20, the expected score of side 1 is 1e-20, the amount
    added by its win is 32.0 and the stored rating is 1032.4000000000001,
    the float nearest to the sum: the two stored ratings differ by more
    than 32 (by 32.000000000000114). *)
Lemma C8_counterexample :
  (forall pow, pow 10%float 20%float = (1e20%float, false) ->
     B64.result pow (playerA 1000.4) (playerB 9000.4) 1
     = B64.Val (playerA 1032.4000000000001, playerB 8968.3999999999996))
  /\ (1032.4000000000001 - 1000.4)%float = 32.000000000000114%float
  /\ (32 <? 32.000000000000114)%float = true
  /\ (32 * 2 ^ 1074 < F2Z 1032.4000000000001 - F2Z 1000.4)%Z.
Proof.
  split; [intros pow H; feed H; reflexivity |].
  split; [reflexivity |]. split; [reflexivity |].
  vm_compute. reflexivity.
Qed.

(** Whoever wins, what is added to either rating is between -K and K. *)
Lemma result_amounts_bounded (pow : float -> float -> float * bool)
    (p1 p2 q1 q2 : B64.Player) (winner : Z) :
  pow_nonneg pow ->
  is_finite (B64.elo p1) = true -> is_finite (B64.elo p2) = true ->
  B64.result pow p1 p2 winner = B64.Val (q1, q2) ->
  (q1, q2) = (p1, p2)
  \/ exists d1 d2 : float,
       q1 = B64.set_elo p1 (B64.elo p1 + d1)%float
       /\ q2 = B64.set_elo p2 (B64.elo p2 + d2)%float
       /\ (-32 <=? d1)%float = true /\ (d1 <=? 32)%float = true
       /\ (-32 <=? d2)%float = true /\ (d2 <=? 32)%float = true.
Proof.
  intros Hp F1 F2 R.
  destruct (expected_outcome pow Hp _ _ F1 F2) as [E | (ex & E & H0 & H1)].
  { rewrite (result_raises pow p1 p2 _ winner E) in R. discriminate. }
  destruct (complement_bounds ex H0 H1) as [C0 C1].
  destruct (amounts ex H0 H1) as (G0 & G1 & L0 & L1 & FG & FL).
  destruct (amounts (1 - ex)%float C0 C1) as (G0' & G1' & L0' & L1' & FG' & FL').
  cbv zeta in *.
  assert (Up : forall x, is_finite x = true -> (0 <=? x)%float = true -> (-32 <=? x)%float = true).
  { intros x Fx Hx. apply (leb_finite (-32) x eq_refl Fx).
    apply (leb_finite 0 x eq_refl Fx) in Hx. change (F2Z 0) with 0 in Hx.
    assert (F2Z (-32) < 0) by (vm_compute; reflexivity). lia. }
  assert (Dn : forall x, is_finite x = true -> (x <=? 0)%float = true -> (x <=? 32)%float = true).
  { intros x Fx Hx. apply (leb_finite x 32 Fx eq_refl).
    apply (leb_finite x 0 Fx eq_refl) in Hx. change (F2Z 0) with 0 in Hx.
    assert (0 < F2Z 32) by (vm_compute; reflexivity). lia. }
  destruct (Z.eq_dec winner 1) as [-> | N1].
  { rewrite (result_side_1_wins pow p1 p2 ex E) in R. injection R as <- <-. right.
    exists (32 * (1 - ex))%float, (32 * (0 - (1 - ex)))%float.
    repeat split; auto. }
  destruct (Z.eq_dec winner 2) as [-> | N2].
  { rewrite (result_side_2_wins pow p1 p2 ex E) in R. injection R as <- <-. right.
    exists (32 * (0 - ex))%float, (32 * (1 - (1 - ex)))%float.
    repeat split; auto. }
  rewrite (result_no_winner pow p1 p2 ex winner E N1 N2) in R. injection R as <- <-.
  left. reflexivity.
Qed.

(** ** The composite and the Aligulac rating in binary64 *)

Lemma setSRs_spec (playerList : list B64.Player) :
  match B64.setSRs playerList with
  | (None, after) => Forall2 rated playerList after
  | (Some e, after) =>
      exists reached reached' p rest,
        playerList = reached ++ p :: rest
        /\ after = reached' ++ p :: rest
        /\ Forall2 rated reached reached'
        /\ B64.slothRating p = B64.Exn e
  end.
Proof.
  induction playerList as [| p pl IH]; cbn [B64.setSRs].
  - constructor.
  - destruct (B64.slothRating p) as [s | e] eqn:S.
    + destruct (B64.setSRs pl) as [[e |] after].
      * destruct IH as (reached & reached' & p' & rest & E1 & E2 & F & X).
        exists (p :: reached), (B64.set_sr p s :: reached'), p', rest.
        rewrite E1, E2. repeat split; auto.
        constructor; [exists s; split; [exact S | reflexivity] | exact F].
      * constructor; [exists s; split; [exact S | reflexivity] | exact IH].
    + exists [], [], p, pl. repeat split; auto.
Qed.

Lemma setSRs_keeps_elo (playerList : list B64.Player) :
  map B64.elo (snd (B64.setSRs playerList)) = map B64.elo playerList.
Proof.
  induction playerList as [| p pl IH]; cbn [B64.setSRs]; [reflexivity |].
  destruct (B64.slothRating p) as [s | e]; [| reflexivity].
  destruct (B64.setSRs pl) as [r after]. cbn [snd map] in *. rewrite IH. reflexivity.
Qed.

(** C2.  [setSRs] stores in every record, in list order,
    [round(aligRating * 0.3 + mmr * 0.2 + round(elo * 0.5))] as binary64
    computes it: the two int ratings are converted to floats and weighted,
    the Elo term is rounded to an int on its own and added as a float, and
    the sum is rounded, each time to the nearest int with ties to the even
    one; no other field changes, and when a composite raises (a NaN or
    infinite Elo, an int too large for a float) the loop stops there with
    the earlier records updated.  The weights are 0.5, 0.3 and 0.2.  For
    aligRating 2000, mmr 4000 and Elo 2100 the composite is 2450 (the Elo
    term is 1050); for 1009, 6149 and Elo 1000.0 it is 2033; Elo 1001 alone
    gives 500 and Elo 1003 gives 502 (ties of the inner rounding), and
    aligRating 15 alone gives 4 (a tie of the outer one). *)
Theorem C2_setSRs_composite :
  (forall playerList,
     match B64.setSRs playerList with
     | (None, after) =>
         Forall2 (fun p q => exists s, B64.slothRating p = B64.Val s /\ q = B64.set_sr p s)
                 playerList after
     | (Some e, after) =>
         exists reached reached' p rest,
           playerList = reached ++ p :: rest
           /\ after = reached' ++ p :: rest
           /\ Forall2 (fun p q => exists s, B64.slothRating p = B64.Val s /\ q = B64.set_sr p s)
                      reached reached'
           /\ B64.slothRating p = B64.Exn e
     end)
  /\ (forall p a m e ef,
        B64.float_of_int (B64.aligRating p) = B64.Val a ->
        B64.float_of_int (B64.mmr p) = B64.Val m ->
        B64.round (B64.elo p * 0.5)%float = B64.Val e ->
        B64.float_of_int e = B64.Val ef ->
        B64.slothRating p = B64.round (a * 0.3 + m * 0.2 + ef)%float)
  /\ B64.ELO_WEIGHT = 0.5%float /\ B64.ALIG_WEIGHT = 0.3%float /\ B64.MMR_WEIGHT = 0.2%float
  /\ B64.slothRating (B64.mkPlayer "A" "1" "100" 2100 2000 4000 0) = B64.Val 2450
  /\ B64.round (2100 * 0.5)%float = B64.Val 1050
  /\ B64.slothRating (B64.mkPlayer "A" "1" "100" 1000 1009 6149 0) = B64.Val 2033
  /\ B64.slothRating (B64.mkPlayer "A" "1" "100" 1001 0 0 0) = B64.Val 500
  /\ B64.slothRating (B64.mkPlayer "A" "1" "100" 1003 0 0 0) = B64.Val 502
  /\ B64.slothRating (B64.mkPlayer "A" "1" "100" 0 15 0 0) = B64.Val 4
  /\ B64.slothRating (B64.mkPlayer "A" "1" "100" 0 5 0 0) = B64.Val 2
  /\ B64.slothRating (B64.mkPlayer "A" "1" "100" 2001 1 1 0) = B64.Val 1000
  /\ B64.slothRating (B64.mkPlayer "A" "1" "100" (-1001) 0 0 0) = B64.Val (-500)
  /\ B64.slothRating (B64.mkPlayer "A" "1" "100" (-1003) (-5) 0 0) = B64.Val (-504)
  /\ B64.slothRating (B64.mkPlayer "A" "1" "100" nan 2000 4000 0) = B64.Exn B64.ValueError
  /\ B64.slothRating (B64.mkPlayer "A" "1" "100" infinity 2000 4000 0)
     = B64.Exn B64.OverflowError
  /\ B64.slothRating (B64.mkPlayer "A" "1" "100" 2100 2000 (2 ^ 1024) 0)
     = B64.Exn B64.OverflowError
  /\ B64.setSRs [B64.mkPlayer "A" "1" "100" 2100 2000 4000 0;
                 B64.mkPlayer "B" "2" "200" 1000 1009 6149 7]
     = (None, [B64.mkPlayer "A" "1" "100" 2100 2000 4000 2450;
               B64.mkPlayer "B" "2" "200" 1000 1009 6149 2033]).
Proof.
  split; [exact setSRs_spec |].
  split.
  { intros p a m e ef Ha Hm He Hef. unfold B64.slothRating.
    rewrite Ha, Hm. cbn [B64.bind]. unfold B64.ELO_WEIGHT. rewrite He. cbn [B64.bind].
    rewrite Hef. reflexivity. }
  repeat split; reflexivity.
Qed.

(** ** setAligRatings *)

Lemma alig_loop_eq (objects : list B64.number) (i : nat) (p : B64.Player)
    (rest : list B64.Player) :
  B64.alig_loop objects i (p :: rest)
  = match fetched objects i p with
    | B64.Exn e => (Some e, p :: rest)
    | B64.Val q => (fst (B64.alig_loop objects (S i) rest),
                    q :: snd (B64.alig_loop objects (S i) rest))
    end.
Proof.
  cbn [B64.alig_loop]. unfold fetched.
  destruct (B64.item objects i) as [rating | e]; cbn [B64.bind]; [| reflexivity].
  destruct (B64.aligRating_of rating) as [a | e]; cbn [B64.bind]; [| reflexivity].
  destruct (B64.alig_loop objects (S i) rest). reflexivity.
Qed.

Lemma alig_loop_spec (objects : list B64.number) (playerList : list B64.Player) :
  forall i,
    match B64.alig_loop objects i playerList with
    | (None, after) =>
        List.length after = List.length playerList
        /\ forall n p, nth_error playerList n = Some p ->
             exists q, fetched objects (i + n) p = B64.Val q /\ nth_error after n = Some q
    | (Some e, after) =>
        exists k p,
          nth_error playerList k = Some p
          /\ fetched objects (i + k) p = B64.Exn e
          /\ List.length after = List.length playerList
          /\ (forall n p', (n < k)%nat -> nth_error playerList n = Some p' ->
                exists q, fetched objects (i + n) p' = B64.Val q /\ nth_error after n = Some q)
          /\ (forall n, (k <= n)%nat -> nth_error after n = nth_error playerList n)
    end.
Proof.
  induction playerList as [| p pl IH]; intros i.
  - cbn [B64.alig_loop]. split; [reflexivity |]. intros [| n] q H; discriminate.
  - rewrite alig_loop_eq. destruct (fetched objects i p) as [q | e] eqn:F.
    + specialize (IH (S i)).
      destruct (B64.alig_loop objects (S i) pl) as [[e |] after]; cbn [fst snd].
      * destruct IH as (k & p' & Hk & Hf & Hl & Hlo & Hhi).
        exists (S k), p'. cbn [nth_error List.length].
        replace (i + S k)%nat with (S i + k)%nat by lia.
        repeat split; auto.
        -- intros [| n] p'' Hn Hp''; cbn [nth_error] in *.
           ++ injection Hp'' as <-. exists q. rewrite Nat.add_0_r. auto.
           ++ replace (i + S n)%nat with (S i + n)%nat by lia. apply Hlo; [lia | auto].
        -- intros [| n] Hn; [lia |]. cbn [nth_error]. apply Hhi. lia.
      * destruct IH as [Hl Hn]. cbn [List.length]. split; [lia |].
        intros [| n] p' Hp'; cbn [nth_error] in *.
        -- injection Hp' as <-. exists q. rewrite Nat.add_0_r. auto.
        -- replace (i + S n)%nat with (S i + n)%nat by lia. auto.
    + exists 0%nat, p. rewrite Nat.add_0_r. cbn [nth_error].
      repeat split; auto. intros n p' Hn. lia.
Qed.

Lemma alig_loop_frame (objects : list B64.number) (playerList : list B64.Player) :
  forall i,
    map B64.elo (snd (B64.alig_loop objects i playerList)) = map B64.elo playerList
    /\ map B64.name (snd (B64.alig_loop objects i playerList)) = map B64.name playerList
    /\ map B64.mmr (snd (B64.alig_loop objects i playerList)) = map B64.mmr playerList.
Proof.
  induction playerList as [| p pl IH]; intros i; [repeat split |].
  rewrite alig_loop_eq. unfold fetched.
  destruct (B64.item objects i) as [rating | e]; cbn [B64.bind]; [| repeat split].
  destruct (B64.aligRating_of rating) as [a | e]; cbn [B64.bind]; [| repeat split].
  destruct (IH (S i)) as (E1 & E2 & E3). cbn [snd map]. rewrite E1, E2, E3. repeat split.
Qed.

(** X11.  [setAligRatings] pairs players and answers by position alone.  The
    record in place n gets [round(rating * 1000 + 1000)] of the object in
    place n, computed in binary64 for a float rating (1.3575 gives 2358,
    0.0005 gives 1000) and exactly for an int one, and no other field of it
    changes.  Objects beyond the last player are ignored.  The loop stops
    at the first place whose object is missing (IndexError) or whose rating
    does not round (ValueError for a NaN, OverflowError for an infinite
    value): the records before that place keep their new ratings, the
    others their old ones. *)
Theorem setAligRatings_pairs_by_position :
  (forall objects playerList,
     match B64.setAligRatings objects playerList with
     | (None, after) =>
         List.length after = List.length playerList
         /\ forall n p, nth_error playerList n = Some p ->
              exists rating a,
                nth_error objects n = Some rating
                /\ B64.aligRating_of rating = B64.Val a
                /\ nth_error after n = Some (B64.set_aligRating p a)
     | (Some e, after) =>
         exists k p,
           nth_error playerList k = Some p
           /\ match nth_error objects k with
              | None => e = B64.IndexError
              | Some rating => B64.aligRating_of rating = B64.Exn e
              end
           /\ List.length after = List.length playerList
           /\ (forall n p', (n < k)%nat -> nth_error playerList n = Some p' ->
                 exists rating a,
                   nth_error objects n = Some rating
                   /\ B64.aligRating_of rating = B64.Val a
                   /\ nth_error after n = Some (B64.set_aligRating p' a))
           /\ (forall n, (k <= n)%nat -> nth_error after n = nth_error playerList n)
     end)
  /\ (forall objects playerList,
        map B64.elo (snd (B64.setAligRatings objects playerList)) = map B64.elo playerList
        /\ map B64.name (snd (B64.setAligRatings objects playerList)) = map B64.name playerList
        /\ map B64.mmr (snd (B64.setAligRatings objects playerList)) = map B64.mmr playerList)
  /\ B64.aligRating_of (B64.Float 1.3575) = B64.Val 2358
  /\ B64.aligRating_of (B64.Float 0.0005) = B64.Val 1000
  /\ B64.aligRating_of (B64.Float 1) = B64.Val 2000
  /\ B64.aligRating_of (B64.Int 1) = B64.Val 2000
  /\ B64.aligRating_of (B64.Float nan) = B64.Exn B64.ValueError
  /\ B64.aligRating_of (B64.Float 1e306) = B64.Exn B64.OverflowError
  /\ B64.setAligRatings [B64.Float 1.3575]
       [B64.newPlayer "A" "1" "100" 2000; B64.newPlayer "B" "2" "200" 2000]
     = (Some B64.IndexError,
        [B64.set_aligRating (B64.newPlayer "A" "1" "100" 2000) 2358;
         B64.newPlayer "B" "2" "200" 2000]).
Proof.
  assert (Inv : forall objects n p q,
            fetched objects n p = B64.Val q ->
            exists rating a, nth_error objects n = Some rating
                             /\ B64.aligRating_of rating = B64.Val a
                             /\ q = B64.set_aligRating p a).
  { intros objects n p q. unfold fetched, B64.item.
    destruct (nth_error objects n) as [rating |]; cbn [B64.bind]; [| discriminate].
    destruct (B64.aligRating_of rating) as [a | e] eqn:R; cbn [B64.bind]; [| discriminate].
    intros H. injection H as <-. exists rating, a. repeat split. exact R. }
  split.
  { intros objects playerList. unfold B64.setAligRatings.
    pose proof (alig_loop_spec objects playerList 0) as H.
    destruct (B64.alig_loop objects 0 playerList) as [[e |] after].
    - destruct H as (k & p & Hk & Hf & Hl & Hlo & Hhi). exists k, p.
      split; [exact Hk |]. split.
      { cbn [Nat.add] in Hf. unfold fetched, B64.item in Hf.
        destruct (nth_error objects k) as [rating |]; cbn [B64.bind] in Hf;
          [| injection Hf as <-; reflexivity].
        destruct (B64.aligRating_of rating) as [a | e']; cbn [B64.bind] in Hf;
          [discriminate | injection Hf as <-; reflexivity]. }
      split; [exact Hl |]. split; [| exact Hhi].
      intros n p' Hn Hp'. destruct (Hlo n p' Hn Hp') as (q & Hq & Hq').
      destruct (Inv _ _ _ _ Hq) as (rating & a & H1 & H2 & ->).
      exists rating, a. auto.
    - destruct H as [Hl Hn]. split; [exact Hl |].
      intros n p Hp. destruct (Hn n p Hp) as (q & Hq & Hq').
      destruct (Inv _ _ _ _ Hq) as (rating & a & H1 & H2 & ->).
      exists rating, a. auto. }
  split; [intros objects playerList; apply alig_loop_frame |].
  repeat split; reflexivity.
Qed.

(** ** What moves an Elo rating, and by how much *)

(** C8, amended.  One application of [result] (finite ratings, a C library
    whose [pow(10, y)] is a number not below 0) adds to each of the two
    ratings, in binary64, an amount between -K and K = 32, or changes
    nothing; the stored rating is the float nearest to [old + amount], so
    that two stored ratings can differ by a rounding error more than K.
    Nothing else moves an Elo: [setSRs] and [setAligRatings] keep every
    Elo, the sort of [printRatingList] only reorders the records, the
    display and the save commands keep the Elo of every record, and one
    line given to [readResultString] leaves every record of the roster with
    all its fields but the Elo as they were. *)
Theorem C8_amount_is_at_most_K (pow : float -> float -> float * bool)
    (p1 p2 q1 q2 : B64.Player) (winner : Z) (w : World) :
  pow_nonneg pow ->
  is_finite (B64.elo p1) = true -> is_finite (B64.elo p2) = true ->
  B64.result pow p1 p2 winner = B64.Val (q1, q2) ->
  ((q1, q2) = (p1, p2)
   \/ exists d1 d2 : float,
        q1 = B64.set_elo p1 (B64.elo p1 + d1)%float
        /\ q2 = B64.set_elo p2 (B64.elo p2 + d2)%float
        /\ (-32 <=? d1)%float = true /\ (d1 <=? 32)%float = true
        /\ (-32 <=? d2)%float = true /\ (d2 <=? 32)%float = true)
  /\ K_FACTOR = 32
  /\ (forall playerList,
        map B64.elo (snd (B64.setSRs playerList)) = map B64.elo playerList)
  /\ (forall objects playerList,
        map B64.elo (snd (B64.setAligRatings objects playerList))
        = map B64.elo playerList)
  /\ map elo (setSRs (roster w)) = map elo (roster w)
  /\ Permutation (fst (printRatingList (roster w))) (roster w)
  /\ Permutation (map elo (roster (snd (print_command w)))) (map elo (roster w))
  /\ roster (snd (exit_command w)) = roster w
  /\ (forall resString n p,
         nth_error (roster w) n = Some p ->
         exists q, nth_error (roster (snd (readResultString resString w))) n
                   = Some q
                   /\ q = set_elo p (elo q)).
Proof.
  intros Hp F1 F2 R.
  split; [exact (result_amounts_bounded pow p1 p2 q1 q2 winner Hp F1 F2 R) |].
  split; [reflexivity |].
  split; [exact setSRs_keeps_elo |].
  split; [intros objects playerList; apply alig_loop_frame |].
  split; [apply setSRs_elo |].
  split; [apply sort_desc_perm |].
  split.
  { rewrite print_command_roster. cbn [snd roster].
    rewrite <- (setSRs_elo (roster w)). apply Permutation_map, sort_desc_perm. }
  split; [reflexivity |].
  intros resString n p Hn.
  destruct (readResultString_roster resString w) as [-> | (i & j & k & ->)].
  - exists p. split; [exact Hn |]. destruct p; reflexivity.
  - exact (result_at_frame i j k (roster w) n p Hn).
Qed.

(** C8, at 1500 beating 2100 with the answer of the C library at 1.5, in a
    session on the roster of Foo and Bar. *)
Lemma C8_amount_is_at_most_K_witness :
  (playerA 1531.0190902389852, playerB 2068.980909761015)
  = (playerA 1500, playerB 2100)
  \/ exists d1 d2 : float,
       playerA 1531.0190902389852
       = B64.set_elo (playerA 1500) (B64.elo (playerA 1500) + d1)%float
       /\ playerB 2068.980909761015
          = B64.set_elo (playerB 2100) (B64.elo (playerB 2100) + d2)%float
       /\ (-32 <=? d1)%float = true /\ (d1 <=? 32)%float = true
       /\ (-32 <=? d2)%float = true /\ (d2 <=? 32)%float = true.
Proof.
  apply (C8_amount_is_at_most_K (pow_const 31.622776601683793)
           (playerA 1500) (playerB 2100)
           (playerA 1531.0190902389852) (playerB 2068.980909761015) 1
           (mkWorld roster_foo_bar [] [] [])).
  - intros y. reflexivity.
  - reflexivity.
  - reflexivity.
  - reflexivity.
Defined.
